(** * pixel-cli: the external process execution and streaming layer

    A shallow embedding of three TypeScript services

      - [src/services/claude-command-sanitizer.ts]  (module [Sanitizer])
      - [src/services/claude-output-streamer.ts]    (module [Streamer])
      - [src/services/enhanced-claude-manager.ts]   (module [Manager])

    of the factory that creates the manager and of the chunking of its
    mock

      - [src/services/claude-manager-factory.ts]    (module [Factory])
      - [src/services/mock-claude-manager.ts]       (module [Mock])

    and the properties of the specification that concern them.

    Conventions.  A JavaScript string is a Rocq [string], one character per
    UTF-16 code unit (code units 0..255).  A JavaScript number that the code
    uses as a count, a limit or an exit code is a [Z]; lengths are [nat].
    [undefined] is [None].  Calls to [debugLogger] have no effect on the
    values studied here and are left out. *)

From stdpp Require Import base option list strings gmap pretty.
From Stdlib Require Import ZArith Lia Ascii String.
From Stdlib Require QArith.

Local Open Scope string_scope.
Local Open Scope Z_scope.
Local Open Scope list_scope.

(** ** JavaScript string primitives *)

Module Js.

Definition code (c : ascii) : nat := nat_of_ascii c.

Definition in_range (lo hi : nat) (c : ascii) : bool :=
  (Nat.leb lo (code c) && Nat.leb (code c) hi)%bool.

Definition is_char (a c : ascii) : bool := Ascii.eqb a c.

(** [String.prototype.length] *)
Definition length (s : string) : nat := String.length s.

(** [String.prototype.startsWith] *)
Fixpoint startsWith (s p : string) : bool :=
  match p, s with
  | EmptyString, _ => true
  | String _ _, EmptyString => false
  | String a p', String b s' => if Ascii.eqb a b then startsWith s' p' else false
  end.

(** [String.prototype.includes] *)
Fixpoint includes (s sub : string) : bool :=
  if startsWith s sub then true
  else match s with
       | EmptyString => false
       | String _ s' => includes s' sub
       end.

(** White space and line terminators, as [trim] and the regular
    expression class [\s] see them (code units up to 255). *)
Definition is_white (c : ascii) : bool :=
  (in_range 9 13 c || Nat.eqb (code c) 32 || Nat.eqb (code c) 160)%bool.

Fixpoint trimStart (s : string) : string :=
  match s with
  | EmptyString => EmptyString
  | String c s' => if is_white c then trimStart s' else s
  end.

(** [String.prototype.trim] *)
Definition trim (s : string) : string :=
  String.rev (trimStart (String.rev (trimStart s))).

Definition lower_char (c : ascii) : ascii :=
  if (in_range 65 90 c
      || (in_range 192 222 c && negb (Nat.eqb (code c) 215)))%bool
  then ascii_of_nat (code c + 32) else c.

Definition upper_char (c : ascii) : ascii :=
  if (in_range 97 122 c
      || (in_range 224 254 c && negb (Nat.eqb (code c) 247)))%bool
  then ascii_of_nat (code c - 32) else c.

(** [String.prototype.toLowerCase] *)
Fixpoint toLowerCase (s : string) : string :=
  match s with
  | EmptyString => EmptyString
  | String c s' => String (lower_char c) (toLowerCase s')
  end.

(** [Array.prototype.join] *)
Fixpoint join (sep : string) (l : list string) : string :=
  match l with
  | [] => ""
  | [x] => x
  | x :: l' => x +:+ sep +:+ join sep l'
  end.

(** [Array.prototype.some] and [Array.prototype.includes] *)
Definition some {A} (p : A → bool) (l : list A) : bool := existsb p l.
Definition list_includes (l : list string) (x : string) : bool :=
  existsb (String.eqb x) l.

(** Truthiness of a string: the empty string is falsy. *)
Definition truthy (s : string) : bool := negb (String.eqb s "").

(** A number inside a template literal. *)
Definition num (z : Z) : string := pretty z.
Definition idx (n : nat) : string := pretty n.

End Js.

(** ** Regular expressions

  The patterns of the sanitizer without back-references are transcribed
  into the syntax below and run by derivatives; [test] is
  [RegExp.prototype.test] of a pattern without the global or sticky
  flag. *)

Module Re.

Inductive regex : Type :=
| Fail : regex
| Eps : regex
| Set_ (p : ascii → bool) : regex
| Cat (r1 r2 : regex) : regex
| Alt (r1 r2 : regex) : regex
| Star (r : regex) : regex.

Fixpoint nullable (r : regex) : bool :=
  match r with
  | Fail => false
  | Eps => true
  | Set_ _ => false
  | Cat r1 r2 => nullable r1 && nullable r2
  | Alt r1 r2 => nullable r1 || nullable r2
  | Star _ => true
  end.

Definition cat (r1 r2 : regex) : regex :=
  match r1, r2 with
  | Fail, _ => Fail
  | _, Fail => Fail
  | Eps, _ => r2
  | _, _ => Cat r1 r2
  end.

Definition alt (r1 r2 : regex) : regex :=
  match r1, r2 with
  | Fail, _ => r2
  | _, Fail => r1
  | _, _ => Alt r1 r2
  end.

Fixpoint deriv (c : ascii) (r : regex) : regex :=
  match r with
  | Fail => Fail
  | Eps => Fail
  | Set_ p => if p c then Eps else Fail
  | Cat r1 r2 =>
      if nullable r1 then alt (cat (deriv c r1) r2) (deriv c r2)
      else cat (deriv c r1) r2
  | Alt r1 r2 => alt (deriv c r1) (deriv c r2)
  | Star r1 => cat (deriv c r1) (Star r1)
  end.

(** Some prefix of [s] matches [r]. *)
Fixpoint matches_prefix (r : regex) (s : string) : bool :=
  if nullable r then true
  else match s with
       | EmptyString => false
       | String c s' => matches_prefix (deriv c r) s'
       end.

(** Some substring of [s] matches [r]. *)
Fixpoint test (r : regex) (s : string) : bool :=
  if matches_prefix r s then true
  else match s with
       | EmptyString => false
       | String _ s' => test r s'
       end.

(** Pattern syntax. *)
Definition chr (a : ascii) : regex := Set_ (Js.is_char a).
(** a literal character under the [i] flag *)
Definition chr_i (a : ascii) : regex :=
  Set_ (λ c, Js.is_char (Js.upper_char a) (Js.upper_char c)).
Fixpoint lit (s : string) : regex :=
  match s with
  | EmptyString => Eps
  | String a s' => Cat (chr a) (lit s')
  end.
Fixpoint lit_i (s : string) : regex :=
  match s with
  | EmptyString => Eps
  | String a s' => Cat (chr_i a) (lit_i s')
  end.
Definition opt (r : regex) : regex := Alt r Eps.
Definition plus (r : regex) : regex := Cat r (Star r).
Fixpoint at_least (n : nat) (r : regex) : regex :=
  match n with
  | O => Star r
  | S n' => Cat r (at_least n' r)
  end.
Definition one_of (s : string) : regex := Set_ (λ c, Js.includes s (String c "")).
Definition space : regex := Set_ Js.is_white.

(** The dot of a pattern without the [s] flag: no line terminator. *)
Definition is_dot (c : ascii) : bool :=
  negb (Nat.eqb (Js.code c) 10 || Nat.eqb (Js.code c) 13).

Fixpoint repeat_string (n : nat) (w : string) : string :=
  match n with
  | O => ""
  | S n' => w +:+ repeat_string n' w
  end.

Fixpoint all_dot (w : string) : bool :=
  match w with
  | EmptyString => true
  | String c w' => if is_dot c then all_dot w' else false
  end.

Fixpoint take (n : nat) (s : string) : string :=
  match n, s with
  | S n', String c s' => String c (take n' s')
  | _, _ => ""
  end.

(** A pattern [(B)\1{k,}] with a back-reference, anchored at the start
    of [s]: a block of [len] characters without line terminator followed
    by at least [k] copies of itself.  [tries] block lengths are tried,
    [len], [len + 1], ..., as long as [s] has that many characters. *)
Fixpoint block_repeats_from (tries len k : nat) (s : string) : bool :=
  match tries with
  | O => false
  | S tries' =>
      let w := take len s in
      if negb (Nat.eqb (Js.length w) len) then false
      else if all_dot w && Js.startsWith s (repeat_string (S k) w) then true
      else block_repeats_from tries' (S len) k s
  end.

(** [/(.)\1{k,}/.test(s)] *)
Fixpoint test_char_repeats (k : nat) (s : string) : bool :=
  if block_repeats_from 1 1 k s then true
  else match s with
       | EmptyString => false
       | String _ s' => test_char_repeats k s'
       end.

(** [/(.{lo,})\1{k,}/.test(s)] *)
Fixpoint test_block_repeats (lo k : nat) (s : string) : bool :=
  if block_repeats_from (S (Js.length s)) lo k s then true
  else match s with
       | EmptyString => false
       | String _ s' => test_block_repeats lo k s'
       end.

End Re.

(** ** The command sanitizer ([claude-command-sanitizer.ts]) *)

Module Sanitizer.

(** A [RegExp] supplied by the caller: its [source] and its [test]. *)
Record RegExp := mkRegExp { source : string; accepts : string → bool }.

(** [Required<SanitizationOptions>] *)
Record Options := mkOptions {
  allowFileSystemAccess : bool;
  allowNetworkAccess : bool;
  allowEnvironmentVariables : bool;
  allowShellMetacharacters : bool;
  maxCommandLength : Z;
  maxArgumentLength : Z;
  maxArgumentCount : Z;
  customAllowedPatterns : list RegExp;
  customBlockedPatterns : list RegExp
}.

(** [SanitizationOptions], every field optional *)
Record PartialOptions := mkPartial {
  p_allowFileSystemAccess : option bool;
  p_allowNetworkAccess : option bool;
  p_allowEnvironmentVariables : option bool;
  p_allowShellMetacharacters : option bool;
  p_maxCommandLength : option Z;
  p_maxArgumentLength : option Z;
  p_maxArgumentCount : option Z;
  p_customAllowedPatterns : option (list RegExp);
  p_customBlockedPatterns : option (list RegExp)
}.

Definition no_overrides : PartialOptions :=
  mkPartial None None None None None None None None None.

(** The object spread [{ ...base, ...over }] *)
Definition spread (base : Options) (over : PartialOptions) : Options :=
  {| allowFileSystemAccess :=
       default (allowFileSystemAccess base) (p_allowFileSystemAccess over);
     allowNetworkAccess :=
       default (allowNetworkAccess base) (p_allowNetworkAccess over);
     allowEnvironmentVariables :=
       default (allowEnvironmentVariables base) (p_allowEnvironmentVariables over);
     allowShellMetacharacters :=
       default (allowShellMetacharacters base) (p_allowShellMetacharacters over);
     maxCommandLength := default (maxCommandLength base) (p_maxCommandLength over);
     maxArgumentLength := default (maxArgumentLength base) (p_maxArgumentLength over);
     maxArgumentCount := default (maxArgumentCount base) (p_maxArgumentCount over);
     customAllowedPatterns :=
       default (customAllowedPatterns base) (p_customAllowedPatterns over);
     customBlockedPatterns :=
       default (customBlockedPatterns base) (p_customBlockedPatterns over) |}.

(** A sanitizer object is its [defaultOptions]. *)
Record ClaudeCommandSanitizer := mkSanitizer { defaultOptions : Options }.

Definition constructor_defaults : Options :=
  {| allowFileSystemAccess := true;
     allowNetworkAccess := true;
     allowEnvironmentVariables := true;
     allowShellMetacharacters := false;
     maxCommandLength := 100;
     maxArgumentLength := 2000;
     maxArgumentCount := 50;
     customAllowedPatterns := [];
     customBlockedPatterns := [] |}.

Definition new (options : PartialOptions) : ClaudeCommandSanitizer :=
  mkSanitizer (spread constructor_defaults options).

Definition claude_profile : PartialOptions :=
  {| p_allowFileSystemAccess := Some true;
     p_allowNetworkAccess := Some true;
     p_allowEnvironmentVariables := Some true;
     p_allowShellMetacharacters := Some false;
     p_maxCommandLength := Some 100;
     p_maxArgumentLength := Some 2000;
     p_maxArgumentCount := Some 50;
     p_customAllowedPatterns := None;
     p_customBlockedPatterns := None |}.

Definition strict_profile : PartialOptions :=
  {| p_allowFileSystemAccess := Some false;
     p_allowNetworkAccess := Some false;
     p_allowEnvironmentVariables := Some false;
     p_allowShellMetacharacters := Some false;
     p_maxCommandLength := Some 50;
     p_maxArgumentLength := Some 100;
     p_maxArgumentCount := Some 5;
     p_customAllowedPatterns := None;
     p_customBlockedPatterns := None |}.

Definition createClaudeSanitizer : ClaudeCommandSanitizer := new claude_profile.
Definition createStrictSanitizer : ClaudeCommandSanitizer := new strict_profile.

Record SanitizationResult := mkResult {
  isValid : bool;
  sanitizedCommand : option string;
  sanitizedArgs : option (list string);
  sanitizedWorkingDirectory : option string;
  violations : list string;
  warnings : list string
}.

(** The three mutations the validators perform on the result object. *)
Definition push_violation (msg : string) (r : SanitizationResult) :=
  mkResult (isValid r) (sanitizedCommand r) (sanitizedArgs r)
           (sanitizedWorkingDirectory r) (violations r ++ [msg]) (warnings r).
Definition push_warning (msg : string) (r : SanitizationResult) :=
  mkResult (isValid r) (sanitizedCommand r) (sanitizedArgs r)
           (sanitizedWorkingDirectory r) (violations r) (warnings r ++ [msg]).
Definition set_isValid (b : bool) (r : SanitizationResult) :=
  mkResult b (sanitizedCommand r) (sanitizedArgs r)
           (sanitizedWorkingDirectory r) (violations r) (warnings r).
Definition set_sanitizedCommand (c : string) (r : SanitizationResult) :=
  mkResult (isValid r) (Some c) (sanitizedArgs r)
           (sanitizedWorkingDirectory r) (violations r) (warnings r).

(** Statements in sequence: [r ▷ f ▷ g] runs [f], then [g]. *)
Notation "r ▷ f" := (f r) (at level 45, left associativity, only parsing).
Definition when (b : bool) (f : SanitizationResult → SanitizationResult)
  : SanitizationResult → SanitizationResult :=
  λ r, if b then f r else r.

(** [for (let i = 0; i < xs.length; i++) body(i, xs[i])], from index [i] *)
Fixpoint for_from {A} (i : nat) (xs : list A)
    (body : nat → A → SanitizationResult → SanitizationResult)
    (r : SanitizationResult) : SanitizationResult :=
  match xs with
  | [] => r
  | x :: xs' => for_from (S i) xs' body (body i x r)
  end.
Definition for_each {A} (xs : list A)
    (body : A → SanitizationResult → SanitizationResult) :=
  for_from 0 xs (λ _, body).
Definition for_index {A} (xs : list A)
    (body : nat → A → SanitizationResult → SanitizationResult) :=
  for_from 0 xs body.

(** *** Patterns *)

Definition word_class (c : ascii) : bool :=
  (Js.in_range 97 122 c || Js.in_range 65 90 c || Js.in_range 48 57 c
   || Js.is_char "_" c || Js.is_char "-" c)%bool.
Definition quote_class (c : ascii) : bool :=
  (Nat.eqb (Js.code c) 39 || Nat.eqb (Js.code c) 34)%bool.

(** [/[;&|`$(){}[\]<>*~\\]/] *)
Definition shellMetaChars : Re.regex := Re.one_of ";&|`$(){}[]<>*~\".
(** [/[;&|`$(){}[\]<>*~]/] *)
Definition dangerousShellMetaChars : Re.regex := Re.one_of ";&|`$(){}[]<>*~".
(** [/https?:\/\//i] *)
Definition urlPattern : Re.regex :=
  Re.Cat (Re.lit_i "http") (Re.Cat (Re.opt (Re.chr_i "s")) (Re.lit_i "://")).
(** [/\$\{?[A-Z_][A-Z0-9_]*\}?/] *)
Definition envVarPattern : Re.regex :=
  Re.Cat (Re.chr "$")
    (Re.Cat (Re.opt (Re.chr "{"))
       (Re.Cat (Re.Set_ (λ c, Js.in_range 65 90 c || Js.is_char "_" c))
          (Re.Cat (Re.Star (Re.Set_ (λ c, Js.in_range 65 90 c
                                          || Js.in_range 48 57 c
                                          || Js.is_char "_" c)))
             (Re.opt (Re.chr "}"))))).
(** [/[\x00-\x08\x0B\x0C\x0E-\x1F\x7F-\x9F]/] *)
Definition binaryPattern : Re.regex :=
  Re.Set_ (λ c, Js.in_range 0 8 c || Nat.eqb (Js.code c) 11
                || Nat.eqb (Js.code c) 12 || Js.in_range 14 31 c
                || Js.in_range 127 159 c).
(** [/sk-ant-[a-zA-Z0-9_-]{95,}/] *)
Definition anthropicKeyPattern : Re.regex :=
  Re.Cat (Re.lit "sk-ant-") (Re.at_least 95 (Re.Set_ word_class)).
(** [/['\"]?[A-Za-z0-9_-]{32,}['\"]?/] *)
Definition keyMaterialPattern : Re.regex :=
  Re.Cat (Re.opt (Re.Set_ quote_class))
    (Re.Cat (Re.at_least 32 (Re.Set_ word_class)) (Re.opt (Re.Set_ quote_class))).

(** The five prompt-injection patterns, all with the [i] flag. *)
Definition injectionPatterns : list Re.regex :=
  [ (* /ignore\s+previous\s+instructions/i *)
    Re.Cat (Re.lit_i "ignore") (Re.Cat (Re.plus Re.space)
      (Re.Cat (Re.lit_i "previous") (Re.Cat (Re.plus Re.space)
        (Re.lit_i "instructions"))));
    (* /forget\s+everything/i *)
    Re.Cat (Re.lit_i "forget") (Re.Cat (Re.plus Re.space) (Re.lit_i "everything"));
    (* /you\s+are\s+now/i *)
    Re.Cat (Re.lit_i "you") (Re.Cat (Re.plus Re.space)
      (Re.Cat (Re.lit_i "are") (Re.Cat (Re.plus Re.space) (Re.lit_i "now"))));
    (* /system:\s*override/i *)
    Re.Cat (Re.lit_i "system:") (Re.Cat (Re.Star Re.space) (Re.lit_i "override"));
    (* /\\n\\n#\s*new\s+role/i *)
    Re.Cat (Re.lit_i "\n\n#") (Re.Cat (Re.Star Re.space)
      (Re.Cat (Re.lit_i "new") (Re.Cat (Re.plus Re.space) (Re.lit_i "role")))) ].

(** *** Private helpers *)

Definition isSensitiveDirectory (path : string) : bool :=
  let sensitivePaths :=
    ["/etc"; "/proc"; "/sys"; "/root"; "/boot"; "/dev"; "/var/log"] in
  Js.some (λ sensitivePath, Js.startsWith path sensitivePath) sensitivePaths.

Definition hasExcessiveRepetition (text : string) : bool :=
  if Re.test_char_repeats 49 text then true
  else if Re.test_block_repeats 3 9 text then true
  else false.

(** *** Core validations *)

Definition validateCommandLength (command : string) (options : Options)
    (result : SanitizationResult) : SanitizationResult :=
  let trimmedCommand := Js.trim command in
  if Nat.eqb (Js.length trimmedCommand) 0 then
    result ▷ push_violation "Empty command not allowed" ▷ set_isValid false
  else
    result
    ▷ when (Z.of_nat (Js.length trimmedCommand) >? maxCommandLength options)
        (λ result, result
           ▷ push_violation ("Command too long: exceeds maximum length of "
                             +:+ Js.num (maxCommandLength options) +:+ " characters")
           ▷ set_isValid false)
    ▷ set_sanitizedCommand trimmedCommand.

Definition validateCommandName (command : string) (options : Options)
    (result : SanitizationResult) : SanitizationResult :=
  let trimmedCommand := Js.trim command in
  result
  ▷ when (negb (allowShellMetacharacters options))
      (when (Re.test shellMetaChars trimmedCommand)
         (λ result, result
            ▷ push_violation "Shell metacharacters detected in command"
            ▷ set_isValid false))
  ▷ when (Js.includes trimmedCommand "..")
      (λ result, result
         ▷ push_violation "Path traversal not allowed in command name"
         ▷ set_isValid false)
  ▷ for_each (customBlockedPatterns options)
      (λ pattern, when (accepts pattern trimmedCommand)
         (λ result, result
            ▷ push_violation ("Command matches blocked pattern: " +:+ source pattern)
            ▷ set_isValid false)).

Definition validateArgumentCount (args : list string) (options : Options)
    (result : SanitizationResult) : SanitizationResult :=
  result
  ▷ when (Z.of_nat (List.length args) >? maxArgumentCount options)
      (λ result, result
         ▷ push_violation ("Too many arguments: " +:+ Js.idx (List.length args)
                           +:+ " exceeds limit of " +:+ Js.num (maxArgumentCount options))
         ▷ set_isValid false).

Definition tooLongMessage (i : nat) (arg : string) (options : Options) : string :=
  "Argument " +:+ Js.idx i +:+ " too long: " +:+ Js.idx (Js.length arg)
  +:+ " exceeds maximum of " +:+ Js.num (maxArgumentLength options) +:+ " characters".

(** The body of the loop of [validateArguments]. *)
Definition validateArgument (options : Options) (i : nat) (arg : string)
    (result : SanitizationResult) : SanitizationResult :=
  result
  ▷ when (Z.of_nat (Js.length arg) >? maxArgumentLength options)
      (λ result, result
         ▷ push_violation (tooLongMessage i arg options)
         ▷ set_isValid false)
  ▷ when (negb (allowShellMetacharacters options))
      (when (Re.test dangerousShellMetaChars arg)
         (λ result, result
            ▷ push_violation ("Shell metacharacters detected in argument "
                              +:+ Js.idx i +:+ ": " +:+ arg)
            ▷ set_isValid false))
  ▷ when (negb (allowNetworkAccess options))
      (when (Re.test urlPattern arg)
         (λ result, result
            ▷ push_violation ("Network access disabled: argument "
                              +:+ Js.idx i +:+ " contains URLs")
            ▷ set_isValid false))
  ▷ when (Js.includes arg "..")
      (λ result, result
         ▷ push_violation ("Path traversal detected in argument "
                           +:+ Js.idx i +:+ ": " +:+ arg)
         ▷ set_isValid false)
  ▷ when (negb (allowEnvironmentVariables options))
      (when (Re.test envVarPattern arg)
         (λ result, result
            ▷ push_violation ("Environment variable reference in argument "
                              +:+ Js.idx i +:+ ": " +:+ arg)
            ▷ set_isValid false))
  ▷ when (Re.test binaryPattern arg)
      (λ result, result
         ▷ push_violation ("Binary or control characters in argument " +:+ Js.idx i)
         ▷ set_isValid false).

Definition validateArguments (args : list string) (options : Options)
    (result : SanitizationResult) : SanitizationResult :=
  for_index args (validateArgument options) result.

Definition validateWorkingDirectory (workingDirectory : option string)
    (options : Options) (result : SanitizationResult) : SanitizationResult :=
  match workingDirectory with
  | None => result
  | Some wd =>
      if negb (Js.truthy wd) then result
      else if negb (allowFileSystemAccess options) then
        result
        ▷ push_violation "File system access disabled but working directory specified"
        ▷ set_isValid false
      else
        result
        ▷ when (Js.includes wd "..")
            (λ result, result
               ▷ push_violation "Path traversal not allowed in working directory"
               ▷ set_isValid false)
        ▷ when (isSensitiveDirectory wd)
            (push_warning "Working directory points to sensitive system location")
  end.

(** *** Claude-specific validations *)

Definition validateClaudeArguments (args : list string)
    (result : SanitizationResult) : SanitizationResult :=
  let dangerousArgs := ["--eval"; "--execute"; "--shell"; "--run"] in
  let fileOperationFlags := ["--file"; "-f"; "--output"; "-o"] in
  result
  ▷ for_each args
      (λ arg, when (Js.some (λ dangerous, Js.includes arg dangerous) dangerousArgs)
         (push_warning ("Potentially dangerous Claude CLI argument: " +:+ arg)))
  ▷ for_each args
      (λ arg, when (Js.some (λ flag, Js.startsWith arg flag) fileOperationFlags)
         (push_warning ("File operation detected in Claude argument: " +:+ arg))).

Definition validateDangerousOperations (command : string) (args : list string)
    (workingDirectory : option string)
    (result : SanitizationResult) : SanitizationResult :=
  let dangerousCommands := ["rm"; "del"; "delete"; "format"; "mkfs"; "dd"] in
  if Js.list_includes dangerousCommands (Js.toLowerCase command) then
    let sensitiveArgs :=
      Js.some (λ arg, Js.includes arg "/etc/" || Js.includes arg "/root/"
                      || Js.includes arg "/sys/" || Js.includes arg "/boot/"
                      || Js.includes arg "/dev/") args in
    let sensitiveWd :=
      match workingDirectory with
      | Some wd => Js.truthy wd && isSensitiveDirectory wd
      | None => false
      end in
    result
    ▷ when (sensitiveArgs || sensitiveWd)
        (λ result, result
           ▷ push_violation
               "Attempted dangerous file operation on sensitive system directory"
           ▷ set_isValid false)
  else result.

(** The body of the loop of [validateApiKeySafety]. *)
Definition validateApiKeyArgument (i : nat) (arg : string)
    (result : SanitizationResult) : SanitizationResult :=
  result
  ▷ when (Js.includes arg "sk-ant-" || Re.test anthropicKeyPattern arg)
      (λ result, result
         ▷ push_violation ("Argument " +:+ Js.idx i +:+ " contains an exposed API key")
         ▷ set_isValid false)
  ▷ when (Js.includes arg "ANTHROPIC_API_KEY" && negb (Js.startsWith arg "$"))
      (λ result, result
         ▷ push_violation ("Argument " +:+ Js.idx i +:+ " may contain exposed API key")
         ▷ set_isValid false)
  ▷ when (Re.test keyMaterialPattern arg
          && Js.includes (Js.toLowerCase arg) "key")
      (push_warning ("Argument " +:+ Js.idx i +:+ " may contain sensitive key material")).

Definition validateApiKeySafety (args : list string)
    (result : SanitizationResult) : SanitizationResult :=
  for_index args validateApiKeyArgument result.

(** The body of the loop of [validatePromptSafety]. *)
Definition validatePromptArgument (i : nat) (arg : string)
    (result : SanitizationResult) : SanitizationResult :=
  result
  ▷ for_each injectionPatterns
      (λ pattern, when (Re.test pattern arg)
         (push_warning ("Potential prompt injection detected in argument " +:+ Js.idx i)))
  ▷ when (hasExcessiveRepetition arg)
      (push_warning ("Excessive character repetition in argument " +:+ Js.idx i
                     +:+ " (potential DoS)")).

Definition validatePromptSafety (args : list string)
    (result : SanitizationResult) : SanitizationResult :=
  for_index args validatePromptArgument result.

Definition performClaudeSpecificValidations (command : string) (args : list string)
    (workingDirectory : option string)
    (result : SanitizationResult) : SanitizationResult :=
  result
  ▷ when (String.eqb command "claude") (validateClaudeArguments args)
  ▷ validateDangerousOperations command args workingDirectory
  ▷ validateApiKeySafety args
  ▷ validatePromptSafety args.

(** *** Public entry points *)

Definition sanitizeCommand (this : ClaudeCommandSanitizer)
    (command : string) (args : list string) (workingDirectory : option string)
    (options : PartialOptions) : SanitizationResult :=
  let mergedOptions := spread (defaultOptions this) options in
  let result :=
    {| isValid := true;
       sanitizedCommand := Some command;
       sanitizedArgs := Some args;
       sanitizedWorkingDirectory := workingDirectory;
       violations := [];
       warnings := [] |} in
  result
  ▷ validateCommandLength command mergedOptions
  ▷ validateCommandName command mergedOptions
  ▷ validateArgumentCount args mergedOptions
  ▷ validateArguments args mergedOptions
  ▷ validateWorkingDirectory workingDirectory mergedOptions
  ▷ performClaudeSpecificValidations command args workingDirectory.

Definition sanitizeClaudeCommand (this : ClaudeCommandSanitizer)
    (command : string) (args : list string) (workingDirectory : option string)
    : SanitizationResult :=
  sanitizeCommand this command args workingDirectory claude_profile.

End Sanitizer.

(** ** The output streamer ([claude-output-streamer.ts]) *)

Module Streamer.

(** [ClaudeOutput] and [ClaudeStreamEvent] ([types/claude.ts]) have the
    same fields. *)
Inductive OutputType := stdout | stderr | exit | error.

Global Instance OutputType_eq_dec : EqDecision OutputType.
Proof. solve_decision. Defined.

Definition type_name (t : OutputType) : string :=
  match t with
  | stdout => "stdout" | stderr => "stderr" | exit => "exit" | error => "error"
  end.

Record ClaudeOutput := mkOutput {
  processId : string;
  type : OutputType;
  data : string;
  timestamp : Z;
  exitCode : option Z
}.
Definition ClaudeStreamEvent := ClaudeOutput.

Global Instance ClaudeOutput_eq_dec : EqDecision ClaudeOutput.
Proof. solve_decision. Defined.

(** What a listener receives: a stream event, or the object
    [{ processId, timestamp }] of a life-cycle notification. *)
Inductive Payload :=
| Event (e : ClaudeStreamEvent)
| Lifecycle (processId : string) (timestamp : Z).

(** A listener function is known by its identity. *)
Definition Handler := nat.

Inductive NamingPattern := colon | dash.

Record OutputStreamerConfig := mkConfig {
  cfg_maxBufferSize : option Z;
  cfg_eventNamingPattern : option NamingPattern
}.

Record ClaudeOutputStreamer := mkStreamer {
  (** [Map<string, boolean>]: every stored value is [true]; the keys in
      insertion order *)
  activeStreams : list string;
  buffers : gmap string (list string);
  maxBufferSize : Z;
  eventNamingPattern : NamingPattern;
  (** the [EventEmitter] part: registered listeners in registration
      order, and the calls made to them so far *)
  listeners : list (string * Handler);
  delivered : list (Handler * Payload)
}.

Definition set_activeStreams v (s : ClaudeOutputStreamer) :=
  mkStreamer v (buffers s) (maxBufferSize s) (eventNamingPattern s)
             (listeners s) (delivered s).
Definition set_buffers v (s : ClaudeOutputStreamer) :=
  mkStreamer (activeStreams s) v (maxBufferSize s) (eventNamingPattern s)
             (listeners s) (delivered s).
Definition set_listeners v (s : ClaudeOutputStreamer) :=
  mkStreamer (activeStreams s) (buffers s) (maxBufferSize s)
             (eventNamingPattern s) v (delivered s).
Definition set_delivered v (s : ClaudeOutputStreamer) :=
  mkStreamer (activeStreams s) (buffers s) (maxBufferSize s)
             (eventNamingPattern s) (listeners s) v.

(** [a || b] on an optional number: zero and [undefined] are falsy. *)
Definition or_number (a : option Z) (b : Z) : Z :=
  match a with
  | Some z => if Z.eqb z 0 then b else z
  | None => b
  end.

Definition new (config : OutputStreamerConfig) : ClaudeOutputStreamer :=
  {| activeStreams := [];
     buffers := ∅;
     maxBufferSize := or_number (cfg_maxBufferSize config) 1000;
     eventNamingPattern := default colon (cfg_eventNamingPattern config);
     listeners := [];
     delivered := [] |}.

(** *** The event emitter *)

Definition handlers_of (name : string) (s : ClaudeOutputStreamer) : list Handler :=
  map snd (filter (λ l, fst l = name) (listeners s)).

(** [emit]: every listener of [name] is called, in registration order.
    An ['error'] event without a listener is thrown instead: the result
    is [None]. *)
Definition emit (name : string) (p : Payload) (s : ClaudeOutputStreamer)
    : option ClaudeOutputStreamer :=
  let hs := handlers_of name s in
  if String.eqb name "error" && bool_decide (hs = []) then None
  else Some (set_delivered (delivered s ++ map (λ h, (h, p)) hs)%list s).

Definition on (name : string) (h : Handler) (s : ClaudeOutputStreamer) :=
  set_listeners (listeners s ++ [(name, h)])%list s.

(** [removeListener] takes away the most recently added instance. *)
Fixpoint remove_first (x : string * Handler) (l : list (string * Handler)) :=
  match l with
  | [] => []
  | y :: l' => if decide (x = y) then l' else y :: remove_first x l'
  end.
Definition off (name : string) (h : Handler) (s : ClaudeOutputStreamer) :=
  set_listeners (rev (remove_first (name, h) (rev (listeners s)))) s.

Definition removeAllListeners (s : ClaudeOutputStreamer) := set_listeners [] s.

(** *** Private helpers *)

Definition formatProcessEvent (s : ClaudeOutputStreamer)
    (eventType processId : string) : string :=
  match eventNamingPattern s with
  | colon => eventType +:+ ":" +:+ processId
  | dash => eventType +:+ "-" +:+ processId
  end.

(** [buffer.push(data)], then [buffer.splice(0, length - max)] when the
    buffer has more than [max] chunks. *)
Definition addToBuffer (processId data : string) (s : ClaudeOutputStreamer)
    : ClaudeOutputStreamer :=
  match buffers s !! processId with
  | None => s
  | Some buffer =>
      let buffer := (buffer ++ [data])%list in
      let buffer :=
        if Z.of_nat (List.length buffer) >? maxBufferSize s
        then drop (Z.to_nat (Z.of_nat (List.length buffer) - maxBufferSize s)) buffer
        else buffer in
      set_buffers (<[processId := buffer]> (buffers s)) s
  end.

(** [Map.prototype.has] / [get] / [set] / [delete] on [activeStreams] *)
Definition active_has (processId : string) (s : ClaudeOutputStreamer) : bool :=
  bool_decide (processId ∈ activeStreams s).
Definition active_get (processId : string) (s : ClaudeOutputStreamer) : option bool :=
  if active_has processId s then Some true else None.
Definition active_set (processId : string) (s : ClaudeOutputStreamer) :=
  if active_has processId s then s
  else set_activeStreams (activeStreams s ++ [processId])%list s.
Definition active_delete (processId : string) (s : ClaudeOutputStreamer) :=
  set_activeStreams (filter (λ k, k ≠ processId) (activeStreams s)) s.

(** *** Public methods; [now] is the value of [Date.now()] *)

Definition startStreaming (processId : string) (now : Z)
    (s : ClaudeOutputStreamer) : option ClaudeOutputStreamer :=
  if active_has processId s then Some s
  else
    let s := active_set processId s in
    let s := set_buffers (<[processId := []]> (buffers s)) s in
    emit "stream-started" (Lifecycle processId now) s.

Definition stopStreaming (processId : string) (now : Z)
    (s : ClaudeOutputStreamer) : option ClaudeOutputStreamer :=
  if negb (active_has processId s) then Some s
  else
    let s := active_delete processId s in
    emit "stream-stopped" (Lifecycle processId now) s.

Definition isStreaming (processId : string) (s : ClaudeOutputStreamer) : bool :=
  default false (active_get processId s).

Definition streamOutput (output : ClaudeOutput) (s : ClaudeOutputStreamer)
    : option ClaudeOutputStreamer :=
  if negb (default false (active_get (processId output) s)) then Some s
  else
    let s := addToBuffer (processId output) (data output) s in
    let streamEvent : ClaudeStreamEvent :=
      {| processId := processId output;
         type := type output;
         data := data output;
         timestamp := timestamp output;
         exitCode := exitCode output |} in
    s ← emit "output" (Event streamEvent) s;
    s ← emit (formatProcessEvent s "output" (processId output)) (Event streamEvent) s;
    s ← emit (type_name (type output)) (Event streamEvent) s;
    emit (formatProcessEvent s (type_name (type output)) (processId output))
         (Event streamEvent) s.

Definition streamError (processId error_ : string) (now : Z)
    (s : ClaudeOutputStreamer) : option ClaudeOutputStreamer :=
  if negb (default false (active_get processId s)) then Some s
  else
    let s := addToBuffer processId error_ s in
    let streamEvent : ClaudeStreamEvent :=
      {| processId := processId;
         type := error;
         data := error_;
         timestamp := now;
         exitCode := None |} in
    s ← emit "error" (Event streamEvent) s;
    emit (formatProcessEvent s "error" processId) (Event streamEvent) s.

Definition exitMessage (exitCode : Z) : string :=
  "Claude process exited with code " +:+ Js.num exitCode.

Definition streamProcessExit (processId : string) (exitCode : Z) (now : Z)
    (s : ClaudeOutputStreamer) : option ClaudeOutputStreamer :=
  if negb (default false (active_get processId s)) then Some s
  else
    let streamEvent : ClaudeStreamEvent :=
      {| processId := processId;
         type := exit;
         data := exitMessage exitCode;
         timestamp := now;
         exitCode := Some exitCode |} in
    s ← emit "exit" (Event streamEvent) s;
    s ← emit (formatProcessEvent s "exit" processId) (Event streamEvent) s;
    stopStreaming processId now s.

Definition getActiveStreams (s : ClaudeOutputStreamer) : list string :=
  activeStreams s.

Definition getFullOutput (processId : string) (s : ClaudeOutputStreamer) : string :=
  match buffers s !! processId with
  | Some buffer => Js.join "" buffer
  | None => ""
  end.

Definition getBuffer (processId : string) (s : ClaudeOutputStreamer) : list string :=
  default [] (buffers s !! processId).

Definition clearBuffer (processId : string) (s : ClaudeOutputStreamer) :=
  set_buffers (<[processId := []]> (buffers s)) s.

Definition onOutput h s := on "output" h s.
Definition offOutput h s := off "output" h s.
Definition onProcessOutput processId h s :=
  on (formatProcessEvent s "output" processId) h s.
Definition offProcessOutput processId h s :=
  off (formatProcessEvent s "output" processId) h s.
Definition onProcessError processId h s :=
  on (formatProcessEvent s "error" processId) h s.
Definition offProcessError processId h s :=
  off (formatProcessEvent s "error" processId) h s.
Definition onProcessExit processId h s :=
  on (formatProcessEvent s "exit" processId) h s.
Definition offProcessExit processId h s :=
  off (formatProcessEvent s "exit" processId) h s.

(** [for (const processId of this.activeStreams.keys())
    this.stopStreaming(processId)], over the keys still to be visited *)
Fixpoint stop_all (ids : list string) (now : Z) (s : ClaudeOutputStreamer)
    : option ClaudeOutputStreamer :=
  match ids with
  | [] => Some s
  | processId :: ids' => s ← stopStreaming processId now s; stop_all ids' now s
  end.

Definition shutdown (now : Z) (s : ClaudeOutputStreamer)
    : option ClaudeOutputStreamer :=
  s ← stop_all (activeStreams s) now s;
  Some (removeAllListeners (set_buffers ∅ s)).

(** *** Calls from outside, and runs of them *)

Inductive Call :=
| StartStreaming (processId : string) (now : Z)
| StreamOutput (output : ClaudeOutput)
| StreamError (processId error_ : string) (now : Z)
| StreamProcessExit (processId : string) (exitCode : Z) (now : Z)
| StopStreaming (processId : string) (now : Z)
| ClearBuffer (processId : string)
| On (name : string) (h : Handler)
| Off (name : string) (h : Handler)
| Shutdown (now : Z).

Definition call (c : Call) (s : ClaudeOutputStreamer) : option ClaudeOutputStreamer :=
  match c with
  | StartStreaming processId now => startStreaming processId now s
  | StreamOutput output => streamOutput output s
  | StreamError processId error_ now => streamError processId error_ now s
  | StreamProcessExit processId exitCode now =>
      streamProcessExit processId exitCode now s
  | StopStreaming processId now => stopStreaming processId now s
  | ClearBuffer processId => Some (clearBuffer processId s)
  | On name h => Some (on name h s)
  | Off name h => Some (off name h s)
  | Shutdown now => shutdown now s
  end.

Fixpoint run (cs : list Call) (s : ClaudeOutputStreamer)
    : option ClaudeOutputStreamer :=
  match cs with
  | [] => Some s
  | c :: cs' => s ← call c s; run cs' s
  end.

End Streamer.

(** ** The process manager ([enhanced-claude-manager.ts])

    The manager is a state machine.  One step is one turn of the event
    loop: a call from outside, or one event of a child or of a timer,
    together with the promise continuations that the turn schedules (they
    run before the next event).  The operating system is seen through the
    list of calls to [spawn], the signals sent to each child, and the
    events the children send back; a failure to start a child arrives as
    its [error] event.  [Date.now()] is an argument of every step. *)

(** [ClaudeCommand] and [ClaudeProcess] of [types/claude.ts] *)
Module Command.
Record ClaudeCommand := mk {
  id : string;
  command : string;
  args : list string;
  workingDirectory : option string;
  timeout : option Z;
  input : option string
}.
End Command.

Module Process.
Inductive Status := running | completed | failed | killed.

Global Instance Status_eq_dec : EqDecision Status.
Proof. solve_decision. Defined.

Record ClaudeProcess := mk {
  id : string;
  command : Command.ClaudeCommand;
  status : Status;
  startTime : Z;
  endTime : option Z;
  pid : option Z;
  exitCode : option Z;
  error : option string
}.

Definition set_pid v (p : ClaudeProcess) :=
  mk (id p) (command p) (status p) (startTime p) (endTime p) v
     (exitCode p) (error p).
Definition set_status v (p : ClaudeProcess) :=
  mk (id p) (command p) v (startTime p) (endTime p) (pid p)
     (exitCode p) (error p).
Definition set_endTime v (p : ClaudeProcess) :=
  mk (id p) (command p) (status p) (startTime p) (Some v) (pid p)
     (exitCode p) (error p).
Definition set_exitCode v (p : ClaudeProcess) :=
  mk (id p) (command p) (status p) (startTime p) (endTime p) (pid p)
     (Some v) (error p).
Definition set_error v (p : ClaudeProcess) :=
  mk (id p) (command p) (status p) (startTime p) (endTime p) (pid p)
     (exitCode p) (Some v).
End Process.

Module Manager.
Import Process.

Record ClaudeConfig := mkConfig {
  commandTimeout : Z;
  maxBufferSize : Z;
  logLevel : string;
  maxRetries : Z;
  retryDelay : Z
}.

(** How a promise ends: [resolve(value)] or [reject(new Error(message))]. *)
Inductive Outcome :=
| Resolved (value : string)
| Rejected (message : string).

(** One call of [child_process.spawn]. *)
Record SpawnCall := mkSpawn {
  spawn_command : string;
  spawn_args : list string;
  spawn_cwd : string;
  spawn_logLevel : string
}.

(** One call of [executeCommand] that reached [spawnClaudeProcess]: the
    record object it created, the [ChildProcess] object it got from
    [spawn], the variables and timers of the promise executor, and how
    the promises of the call ended. *)
Record Invocation := mkInvocation {
  claudeProcess : ClaudeProcess;
  output : string;
  errorOutput : string;
  (** the deadline timer, while armed, with its delay *)
  timeoutId : option Z;
  (** the promise of [spawnClaudeProcess], and with it the promise that
      [executeCommand] returned *)
  settled : option Outcome;
  (** the child: [childProcess.killed], the signals sent to it, what was
      written to its input before the input was closed, and whether
      the forced-kill timer of [killProcess] is armed *)
  child_killed : bool;
  child_signals : list string;
  child_stdin : option string;
  forceKillTimer : bool;
  (** the call came through [executeStreamingCommand]: its [onOutput],
      and how the promise of [executeStreamingCommand] ended *)
  onOutput : option Streamer.Handler;
  streamingResult : option Outcome
}.

Definition set_claudeProcess v (i : Invocation) :=
  mkInvocation v (output i) (errorOutput i) (timeoutId i) (settled i)
    (child_killed i) (child_signals i) (child_stdin i) (forceKillTimer i)
    (onOutput i) (streamingResult i).
Definition set_output v (i : Invocation) :=
  mkInvocation (claudeProcess i) v (errorOutput i) (timeoutId i) (settled i)
    (child_killed i) (child_signals i) (child_stdin i) (forceKillTimer i)
    (onOutput i) (streamingResult i).
Definition set_errorOutput v (i : Invocation) :=
  mkInvocation (claudeProcess i) (output i) v (timeoutId i) (settled i)
    (child_killed i) (child_signals i) (child_stdin i) (forceKillTimer i)
    (onOutput i) (streamingResult i).
Definition set_timeoutId v (i : Invocation) :=
  mkInvocation (claudeProcess i) (output i) (errorOutput i) v (settled i)
    (child_killed i) (child_signals i) (child_stdin i) (forceKillTimer i)
    (onOutput i) (streamingResult i).
Definition set_settled v (i : Invocation) :=
  mkInvocation (claudeProcess i) (output i) (errorOutput i) (timeoutId i) v
    (child_killed i) (child_signals i) (child_stdin i) (forceKillTimer i)
    (onOutput i) (streamingResult i).
Definition set_forceKillTimer v (i : Invocation) :=
  mkInvocation (claudeProcess i) (output i) (errorOutput i) (timeoutId i)
    (settled i) (child_killed i) (child_signals i) (child_stdin i) v
    (onOutput i) (streamingResult i).
Definition set_streamingResult v (i : Invocation) :=
  mkInvocation (claudeProcess i) (output i) (errorOutput i) (timeoutId i)
    (settled i) (child_killed i) (child_signals i) (child_stdin i)
    (forceKillTimer i) (onOutput i) v.
(** [childProcess.kill(signal)] *)
Definition kill (signal : string) (i : Invocation) :=
  mkInvocation (claudeProcess i) (output i) (errorOutput i) (timeoutId i)
    (settled i) true (child_signals i ++ [signal])%list (child_stdin i)
    (forceKillTimer i) (onOutput i) (streamingResult i).

(** The manager object.  [processes] and [childProcesses] map an id to
    an object; an object is the position of its invocation in
    [invocations], the heap.  [spawned] lists the calls to [spawn] and
    [cwd] is [process.cwd()]. *)
Record EnhancedClaudeManager := mkManager {
  config : ClaudeConfig;
  processes : gmap string nat;
  childProcesses : gmap string nat;
  outputStreamer : Streamer.ClaudeOutputStreamer;
  commandSanitizer : Sanitizer.ClaudeCommandSanitizer;
  isShuttingDown : bool;
  invocations : list Invocation;
  spawned : list SpawnCall;
  cwd : string
}.

Definition set_processes v (m : EnhancedClaudeManager) :=
  mkManager (config m) v (childProcesses m) (outputStreamer m)
    (commandSanitizer m) (isShuttingDown m) (invocations m) (spawned m) (cwd m).
Definition set_childProcesses v (m : EnhancedClaudeManager) :=
  mkManager (config m) (processes m) v (outputStreamer m)
    (commandSanitizer m) (isShuttingDown m) (invocations m) (spawned m) (cwd m).
Definition set_outputStreamer v (m : EnhancedClaudeManager) :=
  mkManager (config m) (processes m) (childProcesses m) v
    (commandSanitizer m) (isShuttingDown m) (invocations m) (spawned m) (cwd m).
Definition set_isShuttingDown v (m : EnhancedClaudeManager) :=
  mkManager (config m) (processes m) (childProcesses m) (outputStreamer m)
    (commandSanitizer m) v (invocations m) (spawned m) (cwd m).
Definition set_invocations v (m : EnhancedClaudeManager) :=
  mkManager (config m) (processes m) (childProcesses m) (outputStreamer m)
    (commandSanitizer m) (isShuttingDown m) v (spawned m) (cwd m).
Definition set_spawned v (m : EnhancedClaudeManager) :=
  mkManager (config m) (processes m) (childProcesses m) (outputStreamer m)
    (commandSanitizer m) (isShuttingDown m) (invocations m) v (cwd m).

(** A mutation of the object at position [k] of the heap. *)
Definition update (k : nat) (f : Invocation → Invocation)
    (m : EnhancedClaudeManager) : EnhancedClaudeManager :=
  set_invocations (alter f k (invocations m)) m.

(** [Partial<ClaudeConfig>] *)
Record PartialConfig := mkPartialConfig {
  p_commandTimeout : option Z;
  p_maxBufferSize : option Z;
  p_logLevel : option string;
  p_maxRetries : option Z;
  p_retryDelay : option Z
}.
Definition no_config : PartialConfig :=
  mkPartialConfig None None None None None.

Definition new (config : PartialConfig) (cwd : string) : EnhancedClaudeManager :=
  let config :=
    {| commandTimeout := default 30000 (p_commandTimeout config);
       maxBufferSize := default 1000 (p_maxBufferSize config);
       logLevel := default "info" (p_logLevel config);
       maxRetries := default 3 (p_maxRetries config);
       retryDelay := default 1000 (p_retryDelay config) |} in
  {| config := config;
     processes := ∅;
     childProcesses := ∅;
     outputStreamer :=
       Streamer.new {| Streamer.cfg_maxBufferSize := Some (maxBufferSize config);
                       Streamer.cfg_eventNamingPattern := None |};
     commandSanitizer := Sanitizer.createClaudeSanitizer;
     isShuttingDown := false;
     invocations := [];
     spawned := [];
     cwd := cwd |}.

(** What a call of [executeCommand] or [executeStreamingCommand] gives
    at once: an exception, or a promise that waits for the child of
    invocation [k]. *)
Inductive Reply :=
| Throws (message : string)
| Awaiting (k : nat).

Definition or_string (a : option string) (b : string) : string :=
  match a with
  | Some s => if Js.truthy s then s else b
  | None => b
  end.

(** The synchronous part of [spawnClaudeProcess]: the body of the promise
    executor up to the registration of the handlers. *)
Definition spawnClaudeProcess (command : Command.ClaudeCommand)
    (claudeProcess : ClaudeProcess) (child_pid : option Z)
    (onOutput : option Streamer.Handler)
    (m : EnhancedClaudeManager) : EnhancedClaudeManager * nat :=
  let timeout :=
    Streamer.or_number (Command.timeout command) (commandTimeout (config m)) in
  let k := List.length (invocations m) in
  let m :=
    set_spawned
      (spawned m ++ [ {| spawn_command := Command.command command;
                         spawn_args := Command.args command;
                         spawn_cwd := or_string (Command.workingDirectory command) (cwd m);
                         spawn_logLevel := logLevel (config m) |} ])%list m in
  let claudeProcess := set_pid child_pid claudeProcess in
  let m := set_childProcesses (<[Command.id command := k]> (childProcesses m)) m in
  let invocation :=
    {| claudeProcess := claudeProcess;
       output := "";
       errorOutput := "";
       timeoutId := Some timeout;
       settled := None;
       child_killed := false;
       child_signals := [];
       child_stdin :=
         match Command.input command with
         | Some text => if Js.truthy text then Some text else None
         | None => None
         end;
       forceKillTimer := false;
       onOutput := onOutput;
       streamingResult := None |} in
  (set_invocations (invocations m ++ [invocation])%list m, k).

Definition sanitizationMessage (violations : list string) : string :=
  "Command failed sanitization: " +:+ Js.join ", " violations.
Definition duplicateMessage (id : string) : string :=
  "Process with ID " +:+ id +:+ " already exists".
Definition shutdownMessage : string := "Claude Manager is shutting down".

(** [executeCommand] up to its [await]. *)
Definition executeCommand_from (onOutput : option Streamer.Handler)
    (command : Command.ClaudeCommand) (now : Z) (child_pid : option Z)
    (m : EnhancedClaudeManager) : EnhancedClaudeManager * Reply :=
  if isShuttingDown m then (m, Throws shutdownMessage)
  else
    let sanitizationResult :=
      Sanitizer.sanitizeClaudeCommand (commandSanitizer m)
        (Command.command command) (Command.args command)
        (Command.workingDirectory command) in
    if negb (Sanitizer.isValid sanitizationResult) then
      (m, Throws (sanitizationMessage (Sanitizer.violations sanitizationResult)))
    else if bool_decide (is_Some (processes m !! Command.id command)) then
      (m, Throws (duplicateMessage (Command.id command)))
    else
      let claudeProcess :=
        {| id := Command.id command;
           command := command;
           status := running;
           startTime := now;
           endTime := None;
           pid := None;
           exitCode := None;
           error := None |} in
      let m :=
        set_processes
          (<[Command.id command := List.length (invocations m)]> (processes m)) m in
      let '(m, k) := spawnClaudeProcess command claudeProcess child_pid onOutput m in
      (m, Awaiting k).

Definition executeCommand := executeCommand_from None.

(** [executeStreamingCommand] up to its [await]; when [executeCommand]
    throws, the [finally] block runs at once. *)
Definition executeStreamingCommand (command : Command.ClaudeCommand)
    (onOutput : Streamer.Handler) (now : Z) (child_pid : option Z)
    (m : EnhancedClaudeManager) : option (EnhancedClaudeManager * Reply) :=
  if isShuttingDown m then Some (m, Throws shutdownMessage)
  else
    s ← Streamer.startStreaming (Command.id command) now (outputStreamer m);
    let s := Streamer.onProcessOutput (Command.id command) onOutput s in
    let m := set_outputStreamer s m in
    match executeCommand_from (Some onOutput) command now child_pid m with
    | (m, Awaiting k) => Some (m, Awaiting k)
    | (m, Throws message) =>
        let s := Streamer.offProcessOutput (Command.id command) onOutput
                   (outputStreamer m) in
        s ← Streamer.stopStreaming (Command.id command) now s;
        Some (set_outputStreamer s m, Throws message)
    end.

(** The continuations that run when the promise of invocation [k]
    settles: the [try]/[catch]/[finally] of [executeCommand], then those
    of [executeStreamingCommand] when the call came through it.  A
    promise settles once; later calls of [resolve] and [reject] do
    nothing. *)
Definition settle (k : nat) (o : Outcome) (now : Z)
    (m : EnhancedClaudeManager) : option EnhancedClaudeManager :=
  match invocations m !! k with
  | None => Some m
  | Some invocation =>
      match settled invocation with
      | Some _ => Some m
      | None =>
          let id := Command.id (command (claudeProcess invocation)) in
          let finish :=
            match o with
            | Resolved _ =>
                λ p, set_exitCode 0 (set_endTime now (set_status completed p))
            | Rejected message =>
                λ p, set_exitCode 1 (set_error message
                       (set_endTime now (set_status failed p)))
            end in
          let m :=
            update k (λ i, set_settled (Some o)
                             (set_claudeProcess (finish (claudeProcess i)) i)) m in
          let m := set_childProcesses (delete id (childProcesses m)) m in
          match onOutput invocation with
          | None => Some m
          | Some handler =>
              let streamed :=
                match o with
                | Resolved result =>
                    let fullOutput :=
                      Streamer.getFullOutput id (outputStreamer m) in
                    Resolved (if Js.truthy fullOutput then fullOutput else result)
                | Rejected message => Rejected message
                end in
              let s := Streamer.offProcessOutput id handler (outputStreamer m) in
              s ← Streamer.stopStreaming id now s;
              Some (update k (set_streamingResult (Some streamed))
                      (set_outputStreamer s m))
          end
      end
  end.

(** *** The handlers registered on the child of invocation [k] *)

Definition streamIfActive (id : string)
    (f : Streamer.ClaudeOutputStreamer → option Streamer.ClaudeOutputStreamer)
    (m : EnhancedClaudeManager) : option EnhancedClaudeManager :=
  if Streamer.isStreaming id (outputStreamer m) then
    s ← f (outputStreamer m); Some (set_outputStreamer s m)
  else Some m.

Definition on_stdout_data (k : nat) (data : string) (now : Z)
    (m : EnhancedClaudeManager) : option EnhancedClaudeManager :=
  match invocations m !! k with
  | None => Some m
  | Some invocation =>
      let id := Command.id (command (claudeProcess invocation)) in
      let m := update k (λ i, set_output (output i +:+ data) i) m in
      streamIfActive id
        (Streamer.streamOutput
           {| Streamer.processId := id;
              Streamer.type := Streamer.stdout;
              Streamer.data := data;
              Streamer.timestamp := now;
              Streamer.exitCode := None |}) m
  end.

Definition on_stderr_data (k : nat) (data : string) (now : Z)
    (m : EnhancedClaudeManager) : option EnhancedClaudeManager :=
  match invocations m !! k with
  | None => Some m
  | Some invocation =>
      let id := Command.id (command (claudeProcess invocation)) in
      let m := update k (λ i, set_errorOutput (errorOutput i +:+ data) i) m in
      streamIfActive id
        (Streamer.streamOutput
           {| Streamer.processId := id;
              Streamer.type := Streamer.stderr;
              Streamer.data := data;
              Streamer.timestamp := now;
              Streamer.exitCode := None |}) m
  end.

Definition exitErrorMessage (code : option Z) (signal : option string)
    (errorOutput : string) : string :=
  "Claude process exited with code "
  +:+ match code with Some c => Js.num c | None => "null" end
  +:+ match signal with
      | Some s => if Js.truthy s then " (" +:+ s +:+ ")" else ""
      | None => ""
      end
  +:+ ": " +:+ errorOutput.

Definition on_exit (k : nat) (code : option Z) (signal : option string)
    (now : Z) (m : EnhancedClaudeManager) : option EnhancedClaudeManager :=
  match invocations m !! k with
  | None => Some m
  | Some invocation =>
      let id := Command.id (command (claudeProcess invocation)) in
      let m := update k (set_timeoutId None) m in
      m ← streamIfActive id
             (Streamer.streamProcessExit id (Streamer.or_number code 0) now) m;
      if bool_decide (code = Some 0) then
        settle k (Resolved (output invocation)) now m
      else
        settle k (Rejected (exitErrorMessage code signal (errorOutput invocation)))
               now m
  end.

Definition on_error (k : nat) (message : string) (now : Z)
    (m : EnhancedClaudeManager) : option EnhancedClaudeManager :=
  match invocations m !! k with
  | None => Some m
  | Some invocation =>
      let id := Command.id (command (claudeProcess invocation)) in
      let m := update k (set_timeoutId None) m in
      m ← streamIfActive id (Streamer.streamError id message now) m;
      settle k (Rejected message) now m
  end.

Definition timeoutMessage (timeout : Z) : string :=
  "Command timed out after " +:+ Js.num timeout +:+ "ms".

(** The deadline timer of invocation [k] fires, if it is armed. *)
Definition on_timeout (k : nat) (now : Z)
    (m : EnhancedClaudeManager) : option EnhancedClaudeManager :=
  match invocations m !! k with
  | None => Some m
  | Some invocation =>
      match timeoutId invocation with
      | None => Some m
      | Some timeout =>
          let m := update k (λ i, kill "SIGTERM" (set_timeoutId None i)) m in
          settle k (Rejected (timeoutMessage timeout)) now m
      end
  end.

(** The forced-kill timer of [killProcess] fires, if it is armed. *)
Definition on_forceKill (k : nat)
    (m : EnhancedClaudeManager) : EnhancedClaudeManager :=
  match invocations m !! k with
  | None => m
  | Some invocation =>
      if forceKillTimer invocation then
        update k (λ i, let i := set_forceKillTimer false i in
                       if negb (child_killed i) then kill "SIGKILL" i else i) m
      else m
  end.

(** *** Queries and termination *)

Definition getProcess (processId : string)
    (m : EnhancedClaudeManager) : option ClaudeProcess :=
  k ← processes m !! processId;
  claudeProcess <$> invocations m !! k.

(** The positions of the tracked records, in the order in which they
    entered [processes]. *)
Definition is_tracked (m : EnhancedClaudeManager) (k : nat) : bool :=
  match invocations m !! k with
  | Some i =>
      bool_decide (processes m !! Command.id (command (claudeProcess i)) = Some k)
  | None => false
  end.
Definition tracked (m : EnhancedClaudeManager) : list nat :=
  filter (λ k, is_tracked m k = true) (seq 0 (List.length (invocations m))).

Definition getActiveProcesses (m : EnhancedClaudeManager) : list ClaudeProcess :=
  filter (λ p, status p = running)
    (omap (λ k, claudeProcess <$> invocations m !! k) (tracked m)).

Definition killProcess (processId : string) (now : Z)
    (m : EnhancedClaudeManager) : option (EnhancedClaudeManager * bool) :=
  match processes m !! processId with
  | None => Some (m, false)
  | Some k =>
      match invocations m !! k with
      | None => Some (m, false)
      | Some invocation =>
          if negb (bool_decide (status (claudeProcess invocation) = running))
          then Some (m, false)
          else
            let m :=
              match childProcesses m !! processId with
              | Some c =>
                  set_childProcesses (delete processId (childProcesses m))
                    (update c (λ i, set_forceKillTimer true (kill "SIGTERM" i)) m)
              | None => m
              end in
            let m :=
              update k (λ i, set_claudeProcess
                 (set_error "Process killed by user"
                    (set_exitCode (-1)
                       (set_endTime now
                          (set_status killed (claudeProcess i))))) i) m in
            s ← Streamer.stopStreaming processId now (outputStreamer m);
            Some (set_outputStreamer s m, true)
      end
  end.

Definition isReady (m : EnhancedClaudeManager) : bool := negb (isShuttingDown m).

Fixpoint kill_all (ids : list string) (now : Z)
    (m : EnhancedClaudeManager) : option EnhancedClaudeManager :=
  match ids with
  | [] => Some m
  | processId :: ids' =>
      '(m, _) ← killProcess processId now m; kill_all ids' now m
  end.

Definition shutdown (now : Z)
    (m : EnhancedClaudeManager) : option EnhancedClaudeManager :=
  if isShuttingDown m then Some m
  else
    let m := set_isShuttingDown true m in
    let activeProcesses := getActiveProcesses m in
    m ← kill_all (map id activeProcesses) now m;
    s ← Streamer.shutdown now (outputStreamer m);
    Some (set_childProcesses ∅ (set_processes ∅ (set_outputStreamer s m))).

(** *** What can happen to a manager, and runs *)

Inductive Label :=
| ExecuteCommand (command : Command.ClaudeCommand) (now : Z) (child_pid : option Z)
| ExecuteStreamingCommand (command : Command.ClaudeCommand)
    (onOutput : Streamer.Handler) (now : Z) (child_pid : option Z)
| KillProcess (processId : string) (now : Z)
| Shutdown (now : Z)
| StdoutData (k : nat) (data : string) (now : Z)
| StderrData (k : nat) (data : string) (now : Z)
| ChildExit (k : nat) (code : option Z) (signal : option string) (now : Z)
| ChildError (k : nat) (message : string) (now : Z)
| TimeoutFires (k : nat) (now : Z)
| ForceKillFires (k : nat).

(** One step; [None] when an exception escapes an event handler. *)
Definition step (l : Label) (m : EnhancedClaudeManager)
    : option EnhancedClaudeManager :=
  match l with
  | ExecuteCommand command now child_pid =>
      Some (fst (executeCommand command now child_pid m))
  | ExecuteStreamingCommand command onOutput now child_pid =>
      fst <$> executeStreamingCommand command onOutput now child_pid m
  | KillProcess processId now => fst <$> killProcess processId now m
  | Shutdown now => shutdown now m
  | StdoutData k data now => on_stdout_data k data now m
  | StderrData k data now => on_stderr_data k data now m
  | ChildExit k code signal now => on_exit k code signal now m
  | ChildError k message now => on_error k message now m
  | TimeoutFires k now => on_timeout k now m
  | ForceKillFires k => Some (on_forceKill k m)
  end.

Fixpoint run (ls : list Label) (m : EnhancedClaudeManager)
    : option EnhancedClaudeManager :=
  match ls with
  | [] => Some m
  | l :: ls' => m ← step l m; run ls' m
  end.

End Manager.

(** ** The mock manager ([mock-claude-manager.ts])

    Of the mock, its configuration and the private method that cuts a
    response into chunks for [executeStreamingCommand]. *)

Module Mock.

(** [String.prototype.slice] on integers: a negative index counts from
    the end, and both indices are clamped to the string. *)
Fixpoint skip (n : nat) (s : string) : string :=
  match n, s with
  | S n', String _ s' => skip n' s'
  | _, _ => s
  end.

Definition slice (s : string) (start end_ : Z) : string :=
  let len := Z.of_nat (Js.length s) in
  let from := if start <? 0 then Z.max (len + start) 0 else Z.min start len in
  let to := if end_ <? 0 then Z.max (len + end_) 0 else Z.min end_ len in
  Re.take (Z.to_nat (Z.max (to - from) 0)) (skip (Z.to_nat from) s).

(** [MockConfig], every field optional, and the configuration the
    constructor builds from it.  [None] is a field that the object
    passed in does not have: the spread [...config] lets only the
    fields that are present replace the defaults. *)
Record MockConfig := mkMockConfig {
  simulateDelay : option bool;
  defaultDelay : option Z;
  failureRate : option QArith_base.Q;
  responseTemplate : option string
}.

Definition no_config : MockConfig := mkMockConfig None None None None.

Record MockClaudeManager := mkMock {
  processes : gmap string Process.ClaudeProcess;
  config : MockConfig
}.

Definition new (config : option MockConfig) : MockClaudeManager :=
  let config := default no_config config in
  {| processes := ∅;
     config :=
       {| simulateDelay := Some (default true (simulateDelay config));
          defaultDelay := Some (default 1000 (defaultDelay config));
          failureRate :=
            Some (default (QArith_base.Qmake 1 10) (failureRate config));
          responseTemplate :=
            Some (default "Mock response for: {input}"
                    (responseTemplate config)) |} |}.

(** [for (let i = 0; i < text.length; i += chunkSize)
      chunks.push(text.slice(i, i + chunkSize))], from index [i] with
    the chunks pushed so far.  The loop need not end; [fuel] bounds the
    number of turns, and [None] means that the turns were used up. *)
Fixpoint breakIntoChunks_from (fuel : nat) (text : string) (chunkSize : Z)
    (i : Z) (chunks : list string) : option (list string) :=
  if negb (i <? Z.of_nat (Js.length text)) then Some chunks
  else match fuel with
       | O => None
       | S fuel' =>
           breakIntoChunks_from fuel' text chunkSize (i + chunkSize)
             (chunks ++ [slice text i (i + chunkSize)])
       end.

Definition breakIntoChunks (fuel : nat) (text : string) (chunkSize : Z)
    : option (list string) :=
  breakIntoChunks_from fuel text chunkSize 0 [].

(** The outputs that [executeStreamingCommand] hands to [onOutput] for
    a response, one for each chunk of 20 characters; [now] gives the
    time of each call. *)
Definition outputs (processId : string) (chunks : list string)
    (now : nat → Z) : list Streamer.ClaudeOutput :=
  imap (λ n chunk,
          {| Streamer.processId := processId;
             Streamer.type := Streamer.stdout;
             Streamer.data := chunk;
             Streamer.timestamp := now n;
             Streamer.exitCode := None |}) chunks.

Definition stream_response (fuel : nat) (processId response : string)
    (now : nat → Z) : option (list Streamer.ClaudeOutput) :=
  chunks ← breakIntoChunks fuel response 20;
  Some (outputs processId chunks now).

End Mock.

(** ** The manager factory ([claude-manager-factory.ts]) *)

Module Factory.

Inductive ManagerType := production | mock | auto.

Definition type_name (t : ManagerType) : string :=
  match t with
  | production => "production" | mock => "mock" | auto => "auto"
  end.

Record FactoryConfig := mkFactoryConfig {
  type : option ManagerType;
  claudeConfig : option Manager.PartialConfig;
  mockConfig : option Mock.MockConfig;
  forceProduction : option bool
}.

(** The three variables of [process.env] that the factory reads. *)
Record Env := mkEnv {
  NODE_ENV : option string;
  JEST_WORKER_ID : option string;
  VITEST : option string
}.

Definition env_is (a : option string) (b : string) : bool :=
  match a with
  | Some s => String.eqb s b
  | None => false
  end.

Definition defined (a : option string) : bool :=
  match a with Some _ => true | None => false end.

Definition isTestEnvironment (env : Env) : bool :=
  env_is (NODE_ENV env) "test" || defined (JEST_WORKER_ID env) || defined (VITEST env).

Definition isDevelopmentEnvironment (env : Env) : bool :=
  env_is (NODE_ENV env) "development" || negb (defined (NODE_ENV env)).

Definition isProductionEnvironment (env : Env) : bool :=
  env_is (NODE_ENV env) "production".

Definition determineManagerType (config : FactoryConfig) (env : Env)
    : ManagerType :=
  match type config with
  | Some production => production
  | Some mock => mock
  | _ =>
      if default false (forceProduction config) then production
      else if isTestEnvironment env then mock
      else if isDevelopmentEnvironment env then auto
      else production
  end.

(** What [create] gives: a manager of one of the two kinds, or an
    exception. *)
Inductive Created :=
| Production (m : Manager.EnhancedClaudeManager)
| Mocked (m : Mock.MockClaudeManager)
| Throws (message : string).

Definition createProduction (config : option Manager.PartialConfig)
    (cwd : string) : Manager.EnhancedClaudeManager :=
  Manager.new (default Manager.no_config config) cwd.

Definition createMock (config : option Mock.MockConfig) : Mock.MockClaudeManager :=
  Mock.new config.

Definition create (config : FactoryConfig) (env : Env) (cwd : string) : Created :=
  let managerType := determineManagerType config env in
  match managerType with
  | production =>
      Production (Manager.new (default Manager.no_config (claudeConfig config)) cwd)
  | mock => Mocked (Mock.new (mockConfig config))
  | auto => Throws ("Unknown Claude manager type: " +:+ type_name managerType)
  end.

End Factory.

(** ** Predicates on sanitization results

  The vocabulary in which the properties of the sanitizer are stated. *)

Module SanitizerInv.
Import Sanitizer.

(** ** Steps that preserve a property of the result object *)

Definition preserves (P : SanitizationResult → Prop)
    (f : SanitizationResult → SanitizationResult) : Prop :=
  ∀ r, P r → P (f r).

(** A property is [stable] when no mutation of the validators breaks it:
    a violation pushed together with [isValid = false], a warning pushed,
    the trimmed command stored. *)
Record stable (P : SanitizationResult → Prop) : Prop := {
  stable_violation :
    ∀ msg, preserves P (λ r, set_isValid false (push_violation msg r));
  stable_warning : ∀ msg, preserves P (push_warning msg);
  stable_command : ∀ c, preserves P (set_sanitizedCommand c)
}.

Definition initial_result (command : string) (args : list string)
    (wd : option string) : SanitizationResult :=
  {| isValid := true;
     sanitizedCommand := Some command;
     sanitizedArgs := Some args;
     sanitizedWorkingDirectory := wd;
     violations := [];
     warnings := [] |}.

(** ** The flag and the list agree *)

Definition coherent (r : SanitizationResult) : Prop :=
  isValid r = match violations r with [] => true | _ :: _ => false end.

(** ** Violations are only ever added *)

Definition has_violation (msg : string) (r : SanitizationResult) : Prop :=
  msg ∈ violations r.

(** ** Messages about the length of one argument *)

(** The violation messages that report the length of argument [i]. *)
Definition isLengthViolation (i : nat) (msg : string) : bool :=
  Js.startsWith msg ("Argument " +:+ Js.idx i +:+ " too long: ").

Fixpoint no_space (s : string) : bool :=
  match s with
  | EmptyString => true
  | String c s' => negb (Js.is_char " " c) && no_space s'
  end.

Definition no_length_violation (i : nat) (r : SanitizationResult) : Prop :=
  Forall (λ v, isLengthViolation i v = false) (violations r).

End SanitizerInv.

(** ** Predicates on streamer states

  What a listener has seen, and what one chunk makes the emitter
  deliver. *)

Module StreamerInv.
Import Streamer.




(** The calls to listeners that one payload emitted under [names]
    causes. *)
Definition deliveries (names : list string) (pl : Payload)
    (s : ClaudeOutputStreamer) : list (Handler * Payload) :=
  flat_map (λ name, map (λ h, (h, pl)) (handlers_of name s)) names.


Definition is_chunk (o : ClaudeOutput) : Prop :=
  type o = stdout ∨ type o = stderr.

(** The event that [streamProcessExit] builds. *)
Definition exit_event (p : string) (code now : Z) : ClaudeStreamEvent :=
  {| processId := p; type := exit; data := exitMessage code;
     timestamp := now; exitCode := Some code |}.




(** The payload is the exit event of process [p]. *)
Definition is_exit (p : string) (pl : Payload) : Prop :=
  ∃ e, pl = Event e ∧ processId e = p ∧ type e = exit.


(** Some listener has received the exit event of [p]. *)
Definition exit_seen (p : string) (log : list (Handler * Payload)) : Prop :=
  Exists (λ d, is_exit p (snd d)) log.



End StreamerInv.

(** ** Views of a manager state *)

Module ManagerInv.
Import Process Manager.

(** The record object of invocation [k]. *)
Definition record (k : nat) (m : EnhancedClaudeManager) : option ClaudeProcess :=
  claudeProcess <$> invocations m !! k.

(** How the promise of [executeCommand] of invocation [k] ended. *)
Definition result (k : nat) (m : EnhancedClaudeManager) : option Outcome :=
  invocations m !! k ≫= settled.

(** How the promise of [executeStreamingCommand] of invocation [k]
    ended. *)
Definition streamed (k : nat) (m : EnhancedClaudeManager) : option Outcome :=
  invocations m !! k ≫= streamingResult.

(** The verdict that [executeCommand] computes for a command. *)
Definition verdict (m : EnhancedClaudeManager) (command : Command.ClaudeCommand)
    : Sanitizer.SanitizationResult :=
  Sanitizer.sanitizeClaudeCommand (commandSanitizer m)
    (Command.command command) (Command.args command)
    (Command.workingDirectory command).

(** The call to [spawn] that a command causes. *)
Definition spawn_of (m : EnhancedClaudeManager) (command : Command.ClaudeCommand)
    : SpawnCall :=
  {| spawn_command := Command.command command;
     spawn_args := Command.args command;
     spawn_cwd := or_string (Command.workingDirectory command) (cwd m);
     spawn_logLevel := logLevel (config m) |}.

Definition terminal (st : Status) : Prop := st ≠ running.

(** What the [try] and [catch] blocks of [executeCommand] write into
    the record. *)
Definition finished (o : Outcome) (now : Z) (p : ClaudeProcess) : ClaudeProcess :=
  match o with
  | Resolved _ => set_exitCode 0 (set_endTime now (set_status completed p))
  | Rejected message =>
      set_exitCode 1 (set_error message (set_endTime now (set_status failed p)))
  end.

(** The id under which invocation [i] runs. *)
Definition id_of (i : Invocation) : string :=
  Command.id (command (claudeProcess i)).

(** What every reachable state of a manager satisfies: unless the
    manager is shutting down, the record tracked under the id of an
    invocation is the record of that invocation, so that no two
    invocations share an id; and a stream is open for a tracked id
    only. *)
Definition consistent (m : EnhancedClaudeManager) : Prop :=
  (isShuttingDown m = false →
   ∀ k i, invocations m !! k = Some i → processes m !! id_of i = Some k)
  ∧ (∀ p, p ∈ Streamer.activeStreams (outputStreamer m) →
          is_Some (processes m !! p)).

(** From [m] to [m'] the tracked ids, the shutdown flag and the ids of
    the invocations are the same. *)
Definition same_frame (m m' : EnhancedClaudeManager) : Prop :=
  processes m' = processes m
  ∧ isShuttingDown m' = isShuttingDown m
  ∧ map id_of (invocations m') = map id_of (invocations m).

End ManagerInv.

(** ** The checks of the sanitizer as conditions on its input

  Each definition collects the conditions under which one validator
  pushes no violation. *)

Module SanitizerChecks.
Import Sanitizer.

(** [validateCommandLength] and [validateCommandName] *)
Definition command_ok (options : Options) (command : string) : bool :=
  let trimmedCommand := Js.trim command in
  negb (Nat.eqb (Js.length trimmedCommand) 0)
  && negb (Z.of_nat (Js.length trimmedCommand) >? maxCommandLength options)
  && (allowShellMetacharacters options
      || negb (Re.test shellMetaChars trimmedCommand))
  && negb (Js.includes trimmedCommand "..")
  && forallb (λ pattern, negb (accepts pattern trimmedCommand))
       (customBlockedPatterns options).

(** [validateArgumentCount] *)
Definition count_ok (options : Options) (args : list string) : bool :=
  negb (Z.of_nat (List.length args) >? maxArgumentCount options).

(** One turn of the loop of [validateArguments] *)
Definition argument_ok (options : Options) (arg : string) : bool :=
  negb (Z.of_nat (Js.length arg) >? maxArgumentLength options)
  && (allowShellMetacharacters options
      || negb (Re.test dangerousShellMetaChars arg))
  && (allowNetworkAccess options || negb (Re.test urlPattern arg))
  && negb (Js.includes arg "..")
  && (allowEnvironmentVariables options || negb (Re.test envVarPattern arg))
  && negb (Re.test binaryPattern arg).

(** [validateWorkingDirectory] *)
Definition workingDirectory_ok (options : Options)
    (workingDirectory : option string) : bool :=
  match workingDirectory with
  | None => true
  | Some wd =>
      negb (Js.truthy wd)
      || (allowFileSystemAccess options && negb (Js.includes wd ".."))
  end.

(** [validateDangerousOperations] *)
Definition dangerous (command : string) (args : list string)
    (workingDirectory : option string) : bool :=
  Js.list_includes ["rm"; "del"; "delete"; "format"; "mkfs"; "dd"]
    (Js.toLowerCase command)
  && (Js.some (λ arg, Js.includes arg "/etc/" || Js.includes arg "/root/"
                      || Js.includes arg "/sys/" || Js.includes arg "/boot/"
                      || Js.includes arg "/dev/") args
      || match workingDirectory with
         | Some wd => Js.truthy wd && isSensitiveDirectory wd
         | None => false
         end).

(** One turn of the loop of [validateApiKeySafety] *)
Definition key_ok (arg : string) : bool :=
  negb (Js.includes arg "sk-ant-" || Re.test anthropicKeyPattern arg)
  && negb (Js.includes arg "ANTHROPIC_API_KEY" && negb (Js.startsWith arg "$")).

(** No validator of [sanitizeCommand] finds a violation. *)
Definition accepted (options : Options) (command : string)
    (args : list string) (workingDirectory : option string) : bool :=
  command_ok options command
  && count_ok options args
  && forallb (argument_ok options) args
  && workingDirectory_ok options workingDirectory
  && negb (dangerous command args workingDirectory)
  && forallb key_ok args.

(** Options [o1] are at least as strict as [o2]: what [o1] allows, [o2]
    allows; the limits of [o1] are not above those of [o2]; every
    pattern that [o2] blocks, [o1] blocks. *)
Definition at_least_as_strict (o1 o2 : Options) : Prop :=
  (allowFileSystemAccess o1 = true → allowFileSystemAccess o2 = true)
  ∧ (allowNetworkAccess o1 = true → allowNetworkAccess o2 = true)
  ∧ (allowEnvironmentVariables o1 = true → allowEnvironmentVariables o2 = true)
  ∧ (allowShellMetacharacters o1 = true → allowShellMetacharacters o2 = true)
  ∧ maxCommandLength o1 ≤ maxCommandLength o2
  ∧ maxArgumentLength o1 ≤ maxArgumentLength o2
  ∧ maxArgumentCount o1 ≤ maxArgumentCount o2
  ∧ (∀ pattern, pattern ∈ customBlockedPatterns o2 →
                pattern ∈ customBlockedPatterns o1).

(** Two option sets that differ at most in [customAllowedPatterns]. *)
Definition same_policy (o1 o2 : Options) : Prop :=
  allowFileSystemAccess o1 = allowFileSystemAccess o2
  ∧ allowNetworkAccess o1 = allowNetworkAccess o2
  ∧ allowEnvironmentVariables o1 = allowEnvironmentVariables o2
  ∧ allowShellMetacharacters o1 = allowShellMetacharacters o2
  ∧ maxCommandLength o1 = maxCommandLength o2
  ∧ maxArgumentLength o1 = maxArgumentLength o2
  ∧ maxArgumentCount o1 = maxArgumentCount o2
  ∧ customBlockedPatterns o1 = customBlockedPatterns o2.

(** The characters of the class [[;&|`$(){}[\]<>*~]]. *)
Definition shell_metacharacters : list ascii :=
  list_ascii_of_string ";&|`$(){}[]<>*~".

(** The characters of a string. *)
Definition chars (s : string) : list ascii := list_ascii_of_string s.

(** The three fields of a result that echo the input. *)
Definition echoes (command : option string) (args : option (list string))
    (workingDirectory : option string) (r : SanitizationResult) : Prop :=
  sanitizedCommand r = command
  ∧ sanitizedArgs r = args
  ∧ sanitizedWorkingDirectory r = workingDirectory.

(** A property that the two pushes of the validators do not break. *)
Record push_stable (P : SanitizationResult → Prop) : Prop := {
  push_stable_violation :
    ∀ msg r, P r → P (set_isValid false (push_violation msg r));
  push_stable_warning : ∀ msg r, P r → P (push_warning msg r)
}.

End SanitizerChecks.

(** ** More predicates on streamer states

  A listener is a function of the caller; as in the rest of the
  development it is taken not to call the streamer's methods while it
  runs. *)

Module StreamerChecks.
Import Streamer StreamerInv.

(** The last [n] elements of a list; all of it when it has no more than
    [n], none when [n] is negative. *)
Definition last_chunks (n : Z) (l : list string) : list string :=
  drop (Z.to_nat (Z.of_nat (List.length l) - n)) l.

(** No buffer holds more than [maxBufferSize] chunks. *)
Definition bounded (s : ClaudeOutputStreamer) : Prop :=
  ∀ p b, buffers s !! p = Some b →
         Z.of_nat (List.length b) ≤ Z.max 0 (maxBufferSize s).

(** The event that [streamError] builds. *)
Definition error_event (p message : string) (now : Z) : ClaudeStreamEvent :=
  {| processId := p; type := error; data := message;
     timestamp := now; exitCode := None |}.

(** Listener [h] is registered under no other name than the output
    event of process [p]. *)
Definition only_output_of (h : Handler) (p : string)
    (s : ClaudeOutputStreamer) : Prop :=
  ∀ name, (name, h) ∈ listeners s → name = formatProcessEvent s "output" p.

(** A call that registers listener [h]. *)
Definition registers (h : Handler) (c : Call) : Prop :=
  match c with
  | On _ h' => h' = h
  | _ => False
  end.

(** What a listener of the output of process [p] may receive: a stream
    event of [p]. *)
Definition about (p : string) (pl : Payload) : Prop :=
  ∃ e, pl = Event e ∧ processId e = p.

(** From [s] to [s'] the calls to listeners grew, and what listener [h]
    received since is about process [p]. *)
Definition hears_only (h : Handler) (p : string)
    (s s' : ClaudeOutputStreamer) : Prop :=
  ∃ extra, delivered s' = delivered s ++ extra
           ∧ ∀ pl, (h, pl) ∈ extra → about p pl.

(** No listener is registered for the [error] event. *)
Definition deaf (s : ClaudeOutputStreamer) : Prop :=
  ∀ h, ("error", h) ∉ listeners s.

(** Every listener of [s'] is a listener of [s]. *)
Definition no_new_listener (s s' : ClaudeOutputStreamer) : Prop :=
  ∀ x, x ∈ listeners s' → x ∈ listeners s.

End StreamerChecks.

(** ** The calls that the manager makes *)

Module StreamerCalls.
Import Streamer StreamerInv StreamerChecks.

(** A call that the manager makes for process [q]: it opens or closes
    the stream of [q], streams a stdout or stderr chunk, an error or the
    exit of [q], or adds or removes a listener of the output event of
    [q]; the name of that event is built as in streamer [s0]. *)
Definition made_for (s0 : ClaudeOutputStreamer) (q : string) (c : Call) : Prop :=
  match c with
  | StartStreaming p _ | StopStreaming p _
  | StreamError p _ _ | StreamProcessExit p _ _ => p = q
  | StreamOutput o => processId o = q ∧ is_chunk o
  | On name _ | Off name _ => name = formatProcessEvent s0 "output" q
  | ClearBuffer _ | Shutdown _ => False
  end.

(** A call that the manager makes: one for some process, or the
    [shutdown] of the streamer. *)
Definition made_by_manager (s0 : ClaudeOutputStreamer) (c : Call) : Prop :=
  (∃ q, made_for s0 q c) ∨ (∃ now, c = Shutdown now).

(** From [s] to [s'] the stream of [p] stayed open if it was, and its
    buffer and the size of the buffers are the same. *)
Definition untouched (p : string) (s s' : ClaudeOutputStreamer) : Prop :=
  (p ∈ activeStreams s → p ∈ activeStreams s')
  ∧ buffers s' !! p = buffers s !! p
  ∧ maxBufferSize s' = maxBufferSize s.

(** From [s] to [s'] no stream was opened. *)
Definition closes_only (s s' : ClaudeOutputStreamer) : Prop :=
  ∀ p, p ∈ activeStreams s' → p ∈ activeStreams s.

(** Every listener is a listener of the output event of a process, and
    every call made to a listener carried a stdout or stderr event. *)
Definition hears_chunks_only (s : ClaudeOutputStreamer) : Prop :=
  (∀ name h, (name, h) ∈ listeners s →
             ∃ p, name = formatProcessEvent s "output" p)
  ∧ (∀ h pl, (h, pl) ∈ delivered s → ∃ e, pl = Event e ∧ is_chunk e).

End StreamerCalls.

(** ** More views of a manager state *)

Module ManagerChecks.
Import Process Manager ManagerInv.

(** The control characters of the class
    [[\x00-\x08\x0B\x0C\x0E-\x1F\x7F-\x9F]]. *)
Definition is_control (c : ascii) : bool :=
  Js.in_range 0 8 c || Nat.eqb (Js.code c) 11
  || Nat.eqb (Js.code c) 12 || Js.in_range 14 31 c
  || Js.in_range 127 159 c.

(** What the sanitization of [executeCommand] guarantees of one
    argument ... *)
Definition clean_argument (arg : string) : Prop :=
  Z.of_nat (Js.length arg) ≤ 2000
  ∧ (∀ c, c ∈ SanitizerChecks.shell_metacharacters →
          c ∉ SanitizerChecks.chars arg)
  ∧ (∀ c, c ∈ SanitizerChecks.chars arg → is_control c = false)
  ∧ Js.includes arg ".." = false
  ∧ Js.includes arg "sk-ant-" = false.

(** ... and of one call to [spawn]. *)
Definition clean_spawn (c : SpawnCall) : Prop :=
  Js.trim (spawn_command c) ≠ ""
  ∧ Z.of_nat (Js.length (Js.trim (spawn_command c))) ≤ 100
  ∧ (∀ ch, ch ∈ SanitizerChecks.chars ";&|`$(){}[]<>*~\" →
           ch ∉ SanitizerChecks.chars (Js.trim (spawn_command c)))
  ∧ Js.includes (Js.trim (spawn_command c)) ".." = false
  ∧ Z.of_nat (List.length (spawn_args c)) ≤ 50
  ∧ Forall clean_argument (spawn_args c).

(** The promise of an invocation has settled and its record is
    terminal. *)
Definition frozen (i : Invocation) : Prop :=
  is_Some (settled i) ∧ status (claudeProcess i) ≠ running.

(** Two states of one invocation with the same record and the same
    outcome. *)
Definition same_record (i i' : Invocation) : Prop :=
  claudeProcess i' = claudeProcess i ∧ settled i' = settled i.

(** From [m] to [m'] no frozen invocation changed its record or its
    outcome. *)
Definition grows (m m' : EnhancedClaudeManager) : Prop :=
  ∀ k i, invocations m !! k = Some i → frozen i →
         ∃ i', invocations m' !! k = Some i' ∧ same_record i i'.

(** The deadline in effect for a command. *)
Definition deadline (m : EnhancedClaudeManager)
    (command : Command.ClaudeCommand) : Z :=
  Streamer.or_number (Command.timeout command) (commandTimeout (config m)).

(** A step that calls [spawn] for no command: the list of calls is the
    same and no frozen invocation changed. *)
Definition inert (m m' : EnhancedClaudeManager) : Prop :=
  spawned m' = spawned m ∧ grows m m'.

(** What the operating system sees of the child of invocation [k]: the
    signals sent to it. *)
Definition signals (k : nat) (m : EnhancedClaudeManager) : option (list string) :=
  child_signals <$> invocations m !! k.

(** The deadline timer of invocation [k], when armed. *)
Definition timer (k : nat) (m : EnhancedClaudeManager) : option (option Z) :=
  timeoutId <$> invocations m !! k.

End ManagerChecks.

(** ** Runs around one execution *)

Module ManagerRuns.
Import Process Manager ManagerInv.

(** The process that a step concerns, when the step is a [killProcess]
    or an event of a child or of its deadline. *)
Definition subject (l : Label) (m : EnhancedClaudeManager) : option string :=
  match l with
  | KillProcess processId _ => Some processId
  | StdoutData k _ _ | StderrData k _ _ | ChildExit k _ _ _
  | ChildError k _ _ | TimeoutFires k _ => id_of <$> invocations m !! k
  | _ => None
  end.

Definition opens (c : Streamer.Call) : Prop :=
  match c with
  | Streamer.StartStreaming _ _ => True
  | _ => False
  end.

(** The calls of the streamer's methods that a step of the manager in
    state [m] may make. *)
Definition acts_on (l : Label) (m : EnhancedClaudeManager)
    (c : Streamer.Call) : Prop :=
  match l with
  | Shutdown _ =>
      (∃ q now, c = Streamer.StopStreaming q now)
      ∨ (∃ now, c = Streamer.Shutdown now)
  | ExecuteStreamingCommand command _ _ _ =>
      StreamerCalls.made_for (outputStreamer m) (Command.id command) c
  | _ =>
      ∃ q, subject l m = Some q
           ∧ StreamerCalls.made_for (outputStreamer m) q c ∧ ¬ opens c
  end.

(** A step that leaves the execution [k] of id [p] pending and its
    stream open: it is no exit or error of its child, not its deadline,
    no [killProcess] of [p], no [executeStreamingCommand] with the id
    [p] (it would be rejected as a duplicate and close the stream) and
    no [shutdown]. *)
Definition undisturbed (p : string) (k : nat) (l : Label) : Prop :=
  match l with
  | ExecuteStreamingCommand command _ _ _ => Command.id command ≠ p
  | KillProcess processId _ => processId ≠ p
  | Shutdown _ => False
  | ChildExit k' _ _ _ | ChildError k' _ _ | TimeoutFires k' _ => k' ≠ k
  | ExecuteCommand _ _ _ | StdoutData _ _ _ | StderrData _ _ _
  | ForceKillFires _ => True
  end.

(** A step in which the child of invocation [k] writes to stderr. *)
Definition writes_stderr (k : nat) (l : Label) : Prop :=
  match l with
  | StderrData k' _ _ => k' = k
  | _ => False
  end.

(** What the child of invocation [k] writes in one step: to stdout, and
    to stdout or stderr. *)
Definition stdout_of (k : nat) (l : Label) : list string :=
  match l with
  | StdoutData k' data _ => if decide (k' = k) then [data] else []
  | _ => []
  end.

Definition output_of (k : nat) (l : Label) : list string :=
  match l with
  | StdoutData k' data _ | StderrData k' data _ =>
      if decide (k' = k) then [data] else []
  | _ => []
  end.

(** The chunks that the child of invocation [k] writes in a run, in
    arrival order: those on stdout, and all of them. *)
Definition child_stdout (k : nat) (ls : list Label) : list string :=
  flat_map (stdout_of k) ls.

Definition child_output (k : nat) (ls : list Label) : list string :=
  flat_map (output_of k) ls.

(** From [m] to [m'] invocation [k] is the same call: same id, same
    listener, same text accumulated, settled or not as before. *)
Definition same_call (k : nat) (m m' : EnhancedClaudeManager) : Prop :=
  ∀ i, invocations m !! k = Some i →
       ∃ i', invocations m' !! k = Some i'
             ∧ id_of i' = id_of i ∧ settled i' = settled i
             ∧ onOutput i' = onOutput i ∧ output i' = output i.

End ManagerRuns.

(** * Properties of the sanitizer *)

Module SanitizerFacts.
Import Sanitizer SanitizerInv.


Lemma preserves_when P b f : preserves P f → preserves P (when b f).
Proof. intros Hf r Hr. unfold when. destruct b; auto. Qed.

Lemma preserves_for_from {A} P (xs : list A) body :
  (∀ i x, preserves P (body i x)) →
  ∀ i, preserves P (for_from i xs body).
Proof.
  intros Hbody. induction xs as [|x xs IH]; intros i r Hr; simpl; [done|].
  apply IH. by apply Hbody.
Qed.

(** The loop over an array, when the body is known to preserve [P] only
    at the positions the array really has. *)
Lemma preserves_for_index {A} P (xs : list A) body :
  (∀ i x, xs !! i = Some x → preserves P (body i x)) →
  preserves P (for_index xs body).
Proof.
  unfold for_index.
  cut (∀ (ys : list A) k,
         (∀ i x, ys !! i = Some x → preserves P (body (k + i)%nat x)) →
         preserves P (for_from k ys body)).
  { intros H Hb. apply (H xs 0%nat). intros i x. apply Hb. }
  induction ys as [|y ys IH]; intros k Hb r Hr; simpl; [done|].
  apply IH.
  - intros i x Hx. replace (S k + i)%nat with (k + S i)%nat by lia.
    by apply Hb.
  - specialize (Hb 0%nat y eq_refl). rewrite Nat.add_0_r in Hb. by apply Hb.
Qed.


Ltac stable_step H :=
  repeat first
    [ apply preserves_when
    | apply preserves_for_from; intros ? ?; cbv beta
    | apply (stable_violation _ H); try assumption
    | apply (stable_warning _ H); try assumption
    | apply (stable_command _ H); try assumption
    | progress (intros; cbv beta) ].

Section Stable.
Variable P : SanitizationResult → Prop.
Hypothesis HP : stable P.

Lemma stable_validateCommandLength command options :
  preserves P (validateCommandLength command options).
Proof.
  intros r Hr. unfold validateCommandLength.
  destruct (Nat.eqb _ _).
  - by apply (stable_violation _ HP).
  - apply (stable_command _ HP).
    revert r Hr. fold (preserves P (when
      (Z.of_nat (Js.length (Js.trim command)) >? maxCommandLength options)
      (λ result, set_isValid false (push_violation
         ("Command too long: exceeds maximum length of "
          +:+ Js.num (maxCommandLength options) +:+ " characters") result)))).
    stable_step HP.
Qed.

Lemma stable_validateCommandName command options :
  preserves P (validateCommandName command options).
Proof.
  intros r Hr. unfold validateCommandName, for_each.
  apply preserves_for_from; [stable_step HP|].
  apply preserves_when; [stable_step HP|].
  apply preserves_when; [stable_step HP|done].
Qed.

Lemma stable_validateArgumentCount args options :
  preserves P (validateArgumentCount args options).
Proof. unfold validateArgumentCount. stable_step HP. Qed.

Lemma stable_validateArgument options i arg :
  preserves P (validateArgument options i arg).
Proof.
  intros r Hr. unfold validateArgument.
  do 6 (apply preserves_when; [stable_step HP|]). done.
Qed.

Lemma stable_validateArguments args options :
  preserves P (validateArguments args options).
Proof.
  unfold validateArguments, for_index. apply preserves_for_from.
  intros. apply stable_validateArgument.
Qed.

Lemma stable_validateWorkingDirectory wd options :
  preserves P (validateWorkingDirectory wd options).
Proof.
  intros r Hr. unfold validateWorkingDirectory.
  destruct wd as [wd|]; [|done].
  destruct (negb (Js.truthy wd)); [done|].
  destruct (negb (allowFileSystemAccess options)).
  - by apply (stable_violation _ HP).
  - do 2 (apply preserves_when; [stable_step HP|]). done.
Qed.

Lemma stable_validateClaudeArguments args :
  preserves P (validateClaudeArguments args).
Proof.
  intros r Hr. unfold validateClaudeArguments, for_each.
  do 2 (apply preserves_for_from; [stable_step HP|]). done.
Qed.

Lemma stable_validateDangerousOperations command args wd :
  preserves P (validateDangerousOperations command args wd).
Proof.
  intros r Hr. unfold validateDangerousOperations.
  destruct (Js.list_includes _ _); [|done].
  apply preserves_when; [stable_step HP|done].
Qed.

Lemma stable_validateApiKeySafety args :
  preserves P (validateApiKeySafety args).
Proof.
  unfold validateApiKeySafety, for_index. apply preserves_for_from.
  intros i arg r Hr. unfold validateApiKeyArgument.
  do 3 (apply preserves_when; [stable_step HP|]). done.
Qed.

Lemma stable_validatePromptSafety args :
  preserves P (validatePromptSafety args).
Proof.
  unfold validatePromptSafety, for_index. apply preserves_for_from.
  intros i arg r Hr. unfold validatePromptArgument, for_each.
  apply preserves_when; [stable_step HP|].
  apply preserves_for_from; [stable_step HP|done].
Qed.

Lemma stable_performClaudeSpecificValidations command args wd :
  preserves P (performClaudeSpecificValidations command args wd).
Proof.
  intros r Hr. unfold performClaudeSpecificValidations.
  apply stable_validatePromptSafety, stable_validateApiKeySafety,
    stable_validateDangerousOperations.
  revert r Hr. apply preserves_when, stable_validateClaudeArguments.
Qed.
End Stable.


Lemma stable_sanitizeCommand P this command args wd options :
  stable P →
  P (initial_result command args wd) →
  P (sanitizeCommand this command args wd options).
Proof.
  intros HP H0. unfold sanitizeCommand.
  apply stable_performClaudeSpecificValidations,
    stable_validateWorkingDirectory, stable_validateArguments,
    stable_validateArgumentCount, stable_validateCommandName,
    stable_validateCommandLength; done.
Qed.


Lemma coherent_stable : stable coherent.
Proof.
  split; unfold preserves, coherent; intros; simpl; try done.
  by destruct (violations r).
Qed.

Lemma sanitizeCommand_coherent this command args wd options :
  coherent (sanitizeCommand this command args wd options).
Proof. apply stable_sanitizeCommand; [apply coherent_stable|done]. Qed.

Lemma sanitizeCommand_coherent_iff this command args wd options :
  isValid (sanitizeCommand this command args wd options) = true
  ↔ violations (sanitizeCommand this command args wd options) = [].
Proof.
  pose proof (sanitizeCommand_coherent this command args wd options) as H.
  unfold coherent in H. rewrite H.
  destruct (violations _); split; congruence.
Qed.


Lemma has_violation_stable msg : stable (has_violation msg).
Proof.
  split; unfold preserves, has_violation; intros; simpl; try done.
  apply elem_of_app. by left.
Qed.

Lemma has_violation_pushed msg r :
  has_violation msg (set_isValid false (push_violation msg r)).
Proof. unfold has_violation; simpl. apply elem_of_app. right. by left. Qed.

(** A body that establishes [P] at one position of the array and
    preserves it everywhere makes the loop establish [P]. *)
Lemma for_index_establishes {A} P (xs : list A) body i x :
  xs !! i = Some x →
  (∀ j y, preserves P (body j y)) →
  (∀ r, P (body i x r)) →
  ∀ r, P (for_index xs body r).
Proof.
  intros Hx Hpres Hest. unfold for_index.
  cut (∀ (ys : list A) k n, ys !! n = Some x → i = (k + n)%nat →
         ∀ r, P (for_from k ys body r)).
  { intros H r. by apply (H xs 0%nat i). }
  induction ys as [|y ys IH]; intros k n Hn Hi r; [done|].
  destruct n as [|n]; simpl in Hn |- *.
  - injection Hn as ->. assert (i = k) as -> by lia.
    by apply preserves_for_from.
  - apply (IH (S k) n); [done|lia].
Qed.



Lemma pretty_N_char_no_space x :
  negb (Js.is_char " " (pretty_N_char x)) = true.
Proof.
  destruct x as [|p]; [done|].
  do 4 (try destruct p as [p|p|]; try done).
Qed.

Lemma pretty_N_go_no_space x s :
  no_space s = true → no_space (pretty_N_go x s) = true.
Proof.
  revert s. induction (N.lt_wf_0 x) as [x _ IH]; intros s Hs.
  destruct (decide (x = 0)%N) as [->|Hx]; [done|].
  rewrite pretty_N_go_step by lia. apply IH.
  - apply N.div_lt; lia.
  - cbn [no_space]. by rewrite Hs, pretty_N_char_no_space.
Qed.

Lemma idx_no_space n : no_space (Js.idx n) = true.
Proof.
  unfold Js.idx, pretty, pretty_nat, pretty, pretty_N.
  case_decide; [done|]. by apply pretty_N_go_no_space.
Qed.

Lemma startsWith_append a s p :
  Js.startsWith (a +:+ s) (a +:+ p) = Js.startsWith s p.
Proof.
  induction a as [|c a IH]; simpl; [done|].
  by rewrite Ascii.eqb_refl.
Qed.

Lemma startsWith_prefix p s : Js.startsWith (p +:+ s) p = true.
Proof.
  induction p as [|c p IH]; simpl; [by destruct s|].
  by rewrite Ascii.eqb_refl.
Qed.

Lemma startsWith_number d1 d2 r1 r2 :
  no_space d1 = true → no_space d2 = true →
  Js.startsWith (d1 +:+ String " " r1) (d2 +:+ String " " r2) = true →
  d1 = d2 ∧ Js.startsWith r1 r2 = true.
Proof.
  assert (∀ a b p s, Js.startsWith (String b s) (String a p)
            = if Ascii.eqb a b then Js.startsWith s p else false) as Hcons
    by done.
  revert d2. induction d1 as [|c d1 IH]; intros [|c' d2] H1 H2 H;
    change (String ?x ?a +:+ ?b) with (String x (a +:+ b)) in H;
    change ("" +:+ ?b) with b in H;
    rewrite Hcons in H;
    cbn [no_space] in H1, H2.
  - by rewrite Ascii.eqb_refl in H.
  - destruct (Ascii.eqb c' " ") eqn:Hc; [|done].
    apply Ascii.eqb_eq in Hc as ->. discriminate H2.
  - destruct (Ascii.eqb " " c) eqn:Hc; [|done].
    apply Ascii.eqb_eq in Hc as <-. discriminate H1.
  - destruct (Ascii.eqb c' c) eqn:Hc; [|done].
    apply andb_true_iff in H1 as [_ H1]. apply andb_true_iff in H2 as [_ H2].
    apply Ascii.eqb_eq in Hc as ->.
    destruct (IH d2 H1 H2 H) as [-> ?]. done.
Qed.

(** A message about another argument, or about something else than the
    length of argument [i], is no length violation of argument [i]. *)
Lemma argument_message_not_length i j rest :
  (i = j → Js.startsWith rest "too long: " = false) →
  isLengthViolation i ("Argument " +:+ Js.idx j +:+ String " " rest) = false.
Proof.
  intros Hrest. unfold isLengthViolation.
  apply not_true_is_false. intros E.
  change (Js.startsWith (Js.idx j +:+ String " " rest)
            (Js.idx i +:+ String " " "too long: ") = true) in E.
  apply startsWith_number in E as [Hij Hs]; auto using idx_no_space.
  apply (inj pretty) in Hij. rewrite Hrest in Hs; done.
Qed.


Lemma no_length_violation_push i msg :
  isLengthViolation i msg = false →
  preserves (no_length_violation i)
    (λ r, set_isValid false (push_violation msg r)).
Proof.
  intros Hmsg r Hr. unfold no_length_violation in *; simpl.
  apply Forall_app. split; [done|]. by constructor.
Qed.

Lemma no_length_violation_warning i msg :
  preserves (no_length_violation i) (push_warning msg).
Proof. by intros r Hr. Qed.

Lemma no_length_violation_command i c :
  preserves (no_length_violation i) (set_sanitizedCommand c).
Proof. by intros r Hr. Qed.

Ltac not_length :=
  solve [ reflexivity
        | apply argument_message_not_length; intros; reflexivity ].

Ltac no_length_step :=
  repeat first
    [ apply preserves_when
    | apply preserves_for_from; intros ? ?; cbv beta
    | apply no_length_violation_push; [not_length|assumption ..]
    | apply no_length_violation_warning; try assumption
    | apply no_length_violation_command; try assumption
    | progress (intros; cbv beta) ].

Lemma no_length_validateCommandLength i command options :
  preserves (no_length_violation i) (validateCommandLength command options).
Proof.
  intros r Hr. unfold validateCommandLength.
  destruct (Nat.eqb _ _).
  - revert r Hr. no_length_step.
  - apply no_length_violation_command.
    apply preserves_when; [no_length_step|done].
Qed.

Lemma no_length_validateCommandName i command options :
  preserves (no_length_violation i) (validateCommandName command options).
Proof.
  intros r Hr. unfold validateCommandName, for_each.
  apply preserves_for_from; [no_length_step|].
  do 2 (apply preserves_when; [no_length_step|]). done.
Qed.

Lemma no_length_validateArgumentCount i args options :
  preserves (no_length_violation i) (validateArgumentCount args options).
Proof. unfold validateArgumentCount. no_length_step. Qed.

Lemma no_length_validateArgument i options j arg :
  (j = i → (Z.of_nat (Js.length arg) >? maxArgumentLength options) = false) →
  preserves (no_length_violation i) (validateArgument options j arg).
Proof.
  intros Hlen r Hr. unfold validateArgument.
  do 5 (apply preserves_when; [no_length_step|]).
  unfold when. destruct (_ >? _) eqn:E; [|done].
  revert r Hr. apply no_length_violation_push.
  apply (argument_message_not_length i j). intros ->.
  by specialize (Hlen eq_refl).
Qed.

Lemma no_length_validateArguments i args options arg :
  args !! i = Some arg →
  (Z.of_nat (Js.length arg) >? maxArgumentLength options) = false →
  preserves (no_length_violation i) (validateArguments args options).
Proof.
  intros Hi Hlen. unfold validateArguments. apply preserves_for_index.
  intros j x Hj. apply no_length_validateArgument. intros ->.
  by simplify_eq.
Qed.

Lemma no_length_validateWorkingDirectory i wd options :
  preserves (no_length_violation i) (validateWorkingDirectory wd options).
Proof.
  intros r Hr. unfold validateWorkingDirectory.
  destruct wd as [wd|]; [|done].
  destruct (negb (Js.truthy wd)); [done|].
  destruct (negb (allowFileSystemAccess options)).
  - revert r Hr. no_length_step.
  - do 2 (apply preserves_when; [no_length_step|]). done.
Qed.

Lemma no_length_performClaudeSpecificValidations i command args wd :
  preserves (no_length_violation i)
    (performClaudeSpecificValidations command args wd).
Proof.
  intros r Hr.
  unfold performClaudeSpecificValidations, validatePromptSafety,
    validateApiKeySafety, for_index.
  apply preserves_for_from.
  { intros j arg r' Hr'. unfold validatePromptArgument, for_each.
    apply preserves_when; [no_length_step|].
    apply preserves_for_from; [no_length_step|done]. }
  apply preserves_for_from.
  { intros j arg r' Hr'. unfold validateApiKeyArgument.
    do 3 (apply preserves_when; [no_length_step|]). done. }
  unfold validateDangerousOperations.
  assert (no_length_violation i
            (when (String.eqb command "claude")
               (validateClaudeArguments args) r)) as Hr'.
  { revert r Hr. apply preserves_when. intros r Hr.
    unfold validateClaudeArguments, for_each.
    do 2 (apply preserves_for_from; [no_length_step|]). done. }
  destruct (Js.list_includes _ _); [|done].
  apply preserves_when; [no_length_step|done].
Qed.

Lemma no_length_sanitizeCommand this command args wd options i arg :
  args !! i = Some arg →
  (Z.of_nat (Js.length arg)
     >? maxArgumentLength (spread (defaultOptions this) options)) = false →
  no_length_violation i (sanitizeCommand this command args wd options).
Proof.
  intros Hi Hlen. unfold sanitizeCommand.
  apply no_length_performClaudeSpecificValidations,
    no_length_validateWorkingDirectory,
    (no_length_validateArguments i args _ arg Hi Hlen),
    no_length_validateArgumentCount, no_length_validateCommandName,
    no_length_validateCommandLength.
  constructor.
Qed.

Lemma too_long_sanitizeCommand this command args wd options i arg :
  args !! i = Some arg →
  (Z.of_nat (Js.length arg)
     >? maxArgumentLength (spread (defaultOptions this) options)) = true →
  has_violation (tooLongMessage i arg (spread (defaultOptions this) options))
    (sanitizeCommand this command args wd options).
Proof.
  intros Hi Hlen. unfold sanitizeCommand.
  set (opts := spread (defaultOptions this) options) in *.
  pose proof (has_violation_stable (tooLongMessage i arg opts)) as HP.
  apply stable_performClaudeSpecificValidations,
    stable_validateWorkingDirectory; try done.
  unfold validateArguments.
  apply (for_index_establishes _ args _ i arg Hi).
  - intros. by apply stable_validateArgument.
  - intros r. unfold validateArgument.
    do 5 (apply preserves_when; [stable_step HP|]).
    unfold when. rewrite Hlen. apply has_violation_pushed.
Qed.

Lemma dangerous_sanitizeCommand this command args wd options :
  Js.list_includes ["rm"; "del"; "delete"; "format"; "mkfs"; "dd"]
    (Js.toLowerCase command) = true →
  (Js.some (λ arg, Js.includes arg "/etc/" || Js.includes arg "/root/"
                   || Js.includes arg "/sys/" || Js.includes arg "/boot/"
                   || Js.includes arg "/dev/") args
   || match wd with
      | Some wd => Js.truthy wd && isSensitiveDirectory wd
      | None => false
      end) = true →
  has_violation "Attempted dangerous file operation on sensitive system directory"
    (sanitizeCommand this command args wd options).
Proof.
  intros Hcmd Hsens. unfold sanitizeCommand, performClaudeSpecificValidations.
  pose proof (has_violation_stable
    "Attempted dangerous file operation on sensitive system directory") as HP.
  apply stable_validatePromptSafety, stable_validateApiKeySafety; try done.
  unfold validateDangerousOperations. rewrite Hcmd.
  unfold when at 1. rewrite Hsens. apply has_violation_pushed.
Qed.

Lemma violation_invalidates msg r :
  coherent r → has_violation msg r → isValid r = false.
Proof.
  unfold coherent, has_violation. intros -> H.
  destruct (violations r); [|done]. by apply elem_of_nil in H.
Qed.

(** ** The verdict *)

(** C3.  For every sanitizer, command, argument list, working directory
    and set of policy overrides, the verdict's [isValid] flag is true
    exactly when its list of violations is empty; and the flag is a
    function of the violations alone: two verdicts with the same
    violations carry the same flag, whatever their warnings are. *)
Theorem verdict_valid_iff_no_violations
    (this : ClaudeCommandSanitizer) (command : string) (args : list string)
    (wd : option string) (options : PartialOptions) :
  let r := sanitizeCommand this command args wd options in
  (isValid r = true ↔ violations r = []) ∧
  (∀ this' command' args' wd' options',
     let r' := sanitizeCommand this' command' args' wd' options' in
     violations r = violations r' → isValid r = isValid r').
Proof.
  intros r.
  pose proof (sanitizeCommand_coherent this command args wd options) as H.
  change (coherent r) in H. clearbody r. unfold coherent in H. split.
  - rewrite H. destruct (violations r); split; congruence.
  - intros this' command' args' wd' options' r' Hv.
    pose proof (sanitizeCommand_coherent this' command' args' wd' options') as H'.
    change (coherent r') in H'. clearbody r'. unfold coherent in H'.
    by rewrite H, H', Hv.
Qed.

(** C4, as the specification has it, fails: under the command [claude]
    the argument [rm -rf /etc] passes every check. *)
Lemma rm_rf_etc_argument_accepted :
  let r := sanitizeClaudeCommand createClaudeSanitizer
             "claude" ["rm -rf /etc"] None in
  "rm -rf /etc" ∈ ["rm -rf /etc"] ∧ isValid r = true ∧ violations r = [].
Proof. split; [by left|]. by vm_compute. Qed.

(** Nor does the command [rm] with the arguments [-rf] and [/etc] fail:
    the sensitive paths are looked for with a trailing slash. *)
Example rm_etc_without_slash_accepted :
  isValid (sanitizeClaudeCommand createClaudeSanitizer "rm" ["-rf"; "/etc"] None)
  = true.
Proof. by vm_compute. Qed.

(** C4, amended.  A command invocation is rejected (its verdict is
    invalid, with the violation "Attempted dangerous file operation on
    sensitive system directory") when the command name is, in lower
    case, one of [rm], [del], [delete], [format], [mkfs], [dd] and some
    argument contains one of [/etc/], [/root/], [/sys/], [/boot/],
    [/dev/], or the working directory starts with a sensitive path. *)
Theorem dangerous_operation_rejected
    (this : ClaudeCommandSanitizer) (command : string) (args : list string)
    (wd : option string) (options : PartialOptions) :
  Js.list_includes ["rm"; "del"; "delete"; "format"; "mkfs"; "dd"]
    (Js.toLowerCase command) = true →
  (Js.some (λ arg, Js.includes arg "/etc/" || Js.includes arg "/root/"
                   || Js.includes arg "/sys/" || Js.includes arg "/boot/"
                   || Js.includes arg "/dev/") args
   || match wd with
      | Some wd => Js.truthy wd && isSensitiveDirectory wd
      | None => false
      end) = true →
  let r := sanitizeCommand this command args wd options in
  isValid r = false ∧
  "Attempted dangerous file operation on sensitive system directory"
    ∈ violations r.
Proof.
  intros Hcmd Hsens r.
  pose proof (dangerous_sanitizeCommand this command args wd options Hcmd Hsens)
    as H.
  split; [|exact H].
  eapply violation_invalidates; [apply sanitizeCommand_coherent|exact H].
Qed.

Lemma dangerous_operation_rejected_witness :
  let r := sanitizeCommand createClaudeSanitizer
             "rm" ["-rf"; "/etc/passwd"] None claude_profile in
  isValid r = false ∧
  "Attempted dangerous file operation on sensitive system directory"
    ∈ violations r.
Proof.
  apply (dangerous_operation_rejected createClaudeSanitizer
           "rm" ["-rf"; "/etc/passwd"] None claude_profile);
    reflexivity.
Defined.

(** C9.  Take any sanitizer and policy overrides, and let [max] be the
    [maxArgumentLength] in effect.  An argument of exactly [max]
    characters, at position [i] of an argument list, produces no length
    violation for position [i]; an argument of [max + 1] characters, at
    position [j] of an argument list, produces the length violation of
    position [j] and an invalid verdict. *)
Theorem argument_length_boundary
    (this : ClaudeCommandSanitizer) (command : string)
    (wd : option string) (options : PartialOptions)
    (args : list string) (i : nat) (arg : string)
    (args' : list string) (j : nat) (arg' : string) :
  let opts := spread (defaultOptions this) options in
  args !! i = Some arg →
  Z.of_nat (Js.length arg) = maxArgumentLength opts →
  args' !! j = Some arg' →
  Z.of_nat (Js.length arg') = maxArgumentLength opts + 1 →
  let r := sanitizeCommand this command args wd options in
  let r' := sanitizeCommand this command args' wd options in
  Forall (λ v, isLengthViolation i v = false) (violations r) ∧
  tooLongMessage j arg' opts ∈ violations r' ∧
  isLengthViolation j (tooLongMessage j arg' opts) = true ∧
  isValid r' = false.
Proof.
  intros opts Hi Hlen Hj Hlen' r r'.
  split; [|split; [|split]].
  - apply (no_length_sanitizeCommand this command args wd options i arg Hi).
    fold opts. rewrite Hlen, Z.gtb_ltb. apply Z.ltb_irrefl.
  - apply (too_long_sanitizeCommand this command args' wd options j arg' Hj).
    fold opts. rewrite Hlen', Z.gtb_ltb. apply Z.ltb_lt. lia.
  - unfold isLengthViolation, tooLongMessage.
    rewrite 2!startsWith_append. apply startsWith_prefix.
  - eapply violation_invalidates; [apply sanitizeCommand_coherent|].
    apply (too_long_sanitizeCommand this command args' wd options j arg' Hj).
    fold opts. rewrite Hlen', Z.gtb_ltb. apply Z.ltb_lt. lia.
Qed.

Lemma argument_length_boundary_witness :
  let this := createStrictSanitizer in
  let opts := spread (defaultOptions this) no_overrides in
  let five := Re.repeat_string 20 "hello" in
  let r := sanitizeCommand this "claude" ["-p"; five] None no_overrides in
  let r' := sanitizeCommand this "claude" [five +:+ "!"] None no_overrides in
  Forall (λ v, isLengthViolation 1 v = false) (violations r) ∧
  tooLongMessage 0 (five +:+ "!") opts ∈ violations r' ∧
  isLengthViolation 0 (tooLongMessage 0 (five +:+ "!") opts) = true ∧
  isValid r' = false.
Proof.
  intros this opts five.
  apply (argument_length_boundary this "claude" None no_overrides
           ["-p"; five] 1 five [five +:+ "!"] 0 (five +:+ "!"));
    reflexivity.
Defined.

(** At the boundary of the Claude profile: one argument of exactly 2000
    characters gives a valid verdict, one of 2001 an invalid one. *)
Example claude_profile_boundary :
  isValid (sanitizeClaudeCommand createClaudeSanitizer "claude"
             [Re.repeat_string 400 "abcd "] None) = true ∧
  isValid (sanitizeClaudeCommand createClaudeSanitizer "claude"
             [Re.repeat_string 400 "abcd " +:+ "e"] None) = false.
Proof. split; by vm_compute. Qed.

End SanitizerFacts.

(** * Properties of the output streamer *)

Module StreamerFacts.
Import Streamer StreamerInv.

Ltac bind_step := cbn beta iota delta [mbind option_bind].

(** ** The emitter *)

Lemma emit_Some name pl s s' :
  emit name pl s = Some s' →
  s' = set_delivered (delivered s ++ map (λ h, (h, pl)) (handlers_of name s)) s.
Proof. unfold emit. case_match; [done|]. by intros [= <-]. Qed.

Lemma emit_not_error name pl s :
  name ≠ "error" →
  emit name pl s
  = Some (set_delivered (delivered s ++ map (λ h, (h, pl)) (handlers_of name s)) s).
Proof.
  intros Hne. unfold emit.
  destruct (String.eqb name "error") eqn:E; [|done].
  by apply String.eqb_eq in E.
Qed.

Lemma formatProcessEvent_not_error s eventType p :
  eventType ∈ ["output"; "stdout"; "stderr"; "exit"; "error"] →
  formatProcessEvent s eventType p ≠ "error".
Proof.
  intros H. unfold formatProcessEvent.
  repeat (apply elem_of_cons in H as [->|H]); try (by apply elem_of_nil in H);
    by destruct (eventNamingPattern s).
Qed.

Lemma type_name_chunk o : is_chunk o → type_name (type o) ≠ "error".
Proof. by intros [-> | ->]. Qed.

(** ** [stopStreaming] *)

Lemma active_has_spec p s : active_has p s = true ↔ p ∈ activeStreams s.
Proof. unfold active_has. apply bool_decide_eq_true. Qed.

Lemma isStreaming_spec p s : isStreaming p s = true ↔ p ∈ activeStreams s.
Proof.
  unfold isStreaming, active_get. rewrite <- active_has_spec.
  by destruct (active_has p s).
Qed.

Lemma isStreaming_false p s : isStreaming p s = false ↔ p ∉ activeStreams s.
Proof.
  rewrite <- isStreaming_spec. destruct (isStreaming p s); naive_solver.
Qed.

Lemma not_active_delete p s : p ∉ activeStreams (active_delete p s).
Proof.
  unfold active_delete; simpl. rewrite list_elem_of_filter. by intros [? _].
Qed.

Lemma stopStreaming_open p now s :
  p ∈ activeStreams s →
  stopStreaming p now s
  = Some (set_delivered
            (delivered s
             ++ map (λ h, (h, Lifecycle p now)) (handlers_of "stream-stopped" s))
            (active_delete p s)).
Proof.
  intros Hp. unfold stopStreaming.
  apply active_has_spec in Hp. rewrite Hp. simpl.
  by rewrite emit_not_error.
Qed.

Lemma stopStreaming_closed p now s :
  p ∉ activeStreams s → stopStreaming p now s = Some s.
Proof.
  intros Hp. unfold stopStreaming.
  destruct (active_has p s) eqn:E; [|done].
  by apply active_has_spec in E.
Qed.

Lemma stopStreaming_total p now s : is_Some (stopStreaming p now s).
Proof.
  destruct (decide (p ∈ activeStreams s)).
  - by rewrite stopStreaming_open.
  - by rewrite stopStreaming_closed.
Qed.

Lemma startStreaming_total p now s : is_Some (startStreaming p now s).
Proof.
  unfold startStreaming. destruct (active_has p s); [done|].
  by rewrite emit_not_error.
Qed.

Lemma stopStreaming_same p now s s' :
  stopStreaming p now s = Some s' →
  buffers s' = buffers s ∧ listeners s' = listeners s
  ∧ maxBufferSize s' = maxBufferSize s
  ∧ eventNamingPattern s' = eventNamingPattern s.
Proof.
  unfold stopStreaming. destruct (negb (active_has p s)); [by intros [= <-]|].
  intros H. by apply emit_Some in H as ->.
Qed.

(** C5, as the specification has it, fails: after [stopStreaming] the
    buffer of the process is still there and [getFullOutput] returns
    its text. *)
Lemma buffer_survives_stopStreaming :
  let chunk := {| processId := "p"; type := stdout; data := "hello";
                  timestamp := 1; exitCode := None |} in
  ∃ s1 s2,
    (run [StartStreaming "p" 0; StreamOutput chunk] (new (mkConfig None None))
     = Some s1)
    ∧ isStreaming "p" s1 = true
    ∧ stopStreaming "p" 2 s1 = Some s2
    ∧ isStreaming "p" s2 = false
    ∧ getFullOutput "p" s2 = "hello"
    ∧ getFullOutput "p" s2 ≠ "".
Proof. do 2 eexists. repeat split; try by vm_compute. Qed.

(** C5, amended.  For every process id with an open stream,
    [stopStreaming] closes the stream and notifies the listeners of
    ['stream-stopped'], and it leaves every buffer as it is: a
    subsequent [getFullOutput] for that id returns the same text as
    before the stream was stopped. *)
Theorem stopStreaming_closes_and_keeps_buffer
    (s : ClaudeOutputStreamer) (p : string) (now : Z) :
  p ∈ getActiveStreams s →
  ∃ s',
    stopStreaming p now s = Some s'
    ∧ isStreaming p s' = false
    ∧ (p ∉ getActiveStreams s')
    ∧ buffers s' = buffers s
    ∧ getFullOutput p s' = getFullOutput p s
    ∧ delivered s'
      = delivered s ++ deliveries ["stream-stopped"] (Lifecycle p now) s.
Proof.
  intros Hp. eexists. split; [by apply stopStreaming_open|].
  assert (p ∉ activeStreams (active_delete p s)) as Hn
    by apply not_active_delete.
  split; [by apply isStreaming_false|]. split; [done|].
  split; [done|]. split; [done|].
  unfold deliveries; simpl. by rewrite app_nil_r.
Qed.

Lemma stopStreaming_closes_and_keeps_buffer_witness :
  let chunk := {| processId := "p"; type := stdout; data := "hello";
                  timestamp := 1; exitCode := None |} in
  let s := default (new (mkConfig None None))
             (run [StartStreaming "p" 0; StreamOutput chunk]
                  (new (mkConfig None None))) in
  ∃ s',
    stopStreaming "p" 2 s = Some s'
    ∧ isStreaming "p" s' = false
    ∧ ("p" ∉ getActiveStreams s')
    ∧ buffers s' = buffers s
    ∧ getFullOutput "p" s' = getFullOutput "p" s
    ∧ delivered s'
      = delivered s ++ deliveries ["stream-stopped"] (Lifecycle "p" 2) s.
Proof.
  intros chunk s.
  apply (stopStreaming_closes_and_keeps_buffer s "p" 2).
  vm_compute. by left.
Defined.

(** ** Chunks are delivered in arrival order *)



(** ** After the exit event *)








Lemma addToBuffer_same q d s :
  activeStreams (addToBuffer q d s) = activeStreams s
  ∧ delivered (addToBuffer q d s) = delivered s
  ∧ listeners (addToBuffer q d s) = listeners s.
Proof. unfold addToBuffer. by destruct (buffers s !! q). Qed.










Lemma streamProcessExit_open p code now s :
  p ∈ activeStreams s →
  streamProcessExit p code now s
  = Some (set_delivered
            ((delivered s
              ++ deliveries ["exit"; formatProcessEvent s "exit" p]
                   (Event (exit_event p code now)) s)
             ++ deliveries ["stream-stopped"] (Lifecycle p now) s)
            (active_delete p s)).
Proof.
  intros Hp. unfold streamProcessExit.
  apply isStreaming_spec in Hp as Hs. unfold isStreaming in Hs. rewrite Hs.
  cbn [negb]. fold (exit_event p code now).
  rewrite (emit_not_error "exit") by done. bind_step.
  rewrite (emit_not_error (formatProcessEvent _ "exit" _))
    by (apply formatProcessEvent_not_error; set_solver). bind_step.
  rewrite stopStreaming_open by done. f_equal.
  unfold deliveries, active_delete, set_delivered, handlers_of, formatProcessEvent;
    simpl. by rewrite !app_nil_r, <- !app_assoc.
Qed.

(** ** What one subscriber sees *)







(** ** Ordering *)




(** The scenario of the specification: chunks [a], [b], [c], then exit
    code 0.  The listener of the output of [p] sees the three chunks in
    that order; the listener of the exit of [p] sees one exit event. *)
Example three_chunks_then_exit :
  let chunk d := {| processId := "p"; type := stdout; data := d;
                    timestamp := 1; exitCode := None |} in
  (delivered <$>
     run [StartStreaming "p" 0; On "output:p" 7%nat; On "exit:p" 8%nat;
          StreamOutput (chunk "a"); StreamOutput (chunk "b");
          StreamOutput (chunk "c"); StreamProcessExit "p" 0 4;
          StreamOutput (chunk "d")]
         (new (mkConfig None None)))
  = Some [ (7%nat, Event (chunk "a")); (7%nat, Event (chunk "b"));
           (7%nat, Event (chunk "c")); (8%nat, Event (exit_event "p" 0 4)) ].
Proof. by vm_compute. Qed.

Lemma streamProcessExit_total p code now s :
  is_Some (streamProcessExit p code now s).
Proof.
  destruct (decide (p ∈ activeStreams s)) as [Hp|Hp].
  - by rewrite streamProcessExit_open.
  - unfold streamProcessExit. apply isStreaming_false in Hp.
    unfold isStreaming in Hp. by rewrite Hp.
Qed.

(** ** Buffers *)

Lemma streamOutput_buffers o s :
  is_chunk o → processId o ∈ activeStreams s →
  ∃ s', streamOutput o s = Some s'
        ∧ buffers s' = buffers (addToBuffer (processId o) (data o) s)
        ∧ activeStreams s' = activeStreams s
        ∧ maxBufferSize s' = maxBufferSize s.
Proof.
  intros Ho Hp. unfold streamOutput.
  apply isStreaming_spec in Hp. unfold isStreaming in Hp. rewrite Hp.
  cbn [negb].
  set (s0 := addToBuffer (processId o) (data o) s).
  assert (activeStreams s0 = activeStreams s
          ∧ maxBufferSize s0 = maxBufferSize s) as (Ha & Hm).
  { unfold s0, addToBuffer. by destruct (buffers s !! processId o). }
  clearbody s0.
  assert (∀ t, type_name t ∈ ["output"; "stdout"; "stderr"; "exit"; "error"])
    as Ht by (intros []; set_solver).
  rewrite (emit_not_error "output") by done. bind_step.
  rewrite (emit_not_error (formatProcessEvent _ "output" _))
    by (apply formatProcessEvent_not_error; set_solver). bind_step.
  rewrite (emit_not_error (type_name _)) by by apply type_name_chunk. bind_step.
  rewrite (emit_not_error (formatProcessEvent _ (type_name _) _))
    by by apply formatProcessEvent_not_error.
  eexists. split; [done|]. by simpl.
Qed.

Lemma startStreaming_fresh p now s :
  p ∉ activeStreams s →
  ∃ s', startStreaming p now s = Some s'
        ∧ activeStreams s' = activeStreams s ++ [p]
        ∧ buffers s' = <[p := []]> (buffers s)
        ∧ maxBufferSize s' = maxBufferSize s.
Proof.
  intros Hp. unfold startStreaming, active_set.
  destruct (active_has p s) eqn:E; [by apply active_has_spec in E|].
  rewrite emit_not_error by done. by eexists.
Qed.

End StreamerFacts.

(** * Properties of the process manager *)

Module ManagerFacts.
Import Process Manager ManagerInv.

Ltac bind_step := cbn beta iota delta [mbind option_bind].

(** ** Texts *)

Lemma append_nil_r s : s +:+ "" = s.
Proof.
  induction s as [|c s IH]; [done|].
  change (String c (s +:+ "") = String c s). by rewrite IH.
Qed.

Lemma append_assoc s1 s2 s3 : (s1 +:+ s2) +:+ s3 = s1 +:+ s2 +:+ s3.
Proof.
  induction s1 as [|c s1 IH]; [done|].
  change (String c ((s1 +:+ s2) +:+ s3) = String c (s1 +:+ s2 +:+ s3)).
  by rewrite IH.
Qed.

(** Every element of a joined list is part of the text. *)
Lemma join_includes sep l v :
  v ∈ l → ∃ before after, Js.join sep l = before +:+ v +:+ after.
Proof.
  induction l as [|x [|y l] IH]; intros Hv.
  - by apply elem_of_nil in Hv.
  - apply list_elem_of_singleton in Hv as ->. exists "", "".
    by rewrite append_nil_r.
  - change (Js.join sep (x :: y :: l))
      with (x +:+ sep +:+ Js.join sep (y :: l)).
    apply elem_of_cons in Hv as [->|Hv].
    + by exists "", (sep +:+ Js.join sep (y :: l)).
    + destruct (IH Hv) as (before & after & ->).
      exists (x +:+ sep +:+ before), after. by rewrite !append_assoc.
Qed.

(** ** Rejection before any process exists *)

(** A call that throws leaves the manager as it was: no record, no
    child, no call to [spawn]. *)
Lemma executeCommand_throws_unchanged onOutput command now child_pid m m' message :
  executeCommand_from onOutput command now child_pid m = (m', Throws message) →
  m' = m.
Proof.
  unfold executeCommand_from. intros H.
  repeat case_match; by simplify_eq.
Qed.

Lemma executeCommand_shutting_down onOutput command now child_pid m :
  isShuttingDown m = true →
  executeCommand_from onOutput command now child_pid m = (m, Throws shutdownMessage).
Proof. intros H. unfold executeCommand_from. by rewrite H. Qed.

Lemma executeCommand_invalid onOutput command now child_pid m :
  isShuttingDown m = false →
  Sanitizer.isValid (verdict m command) = false →
  executeCommand_from onOutput command now child_pid m
  = (m, Throws (sanitizationMessage (Sanitizer.violations (verdict m command)))).
Proof.
  intros H Hv. unfold executeCommand_from. rewrite H.
  fold (verdict m command). by rewrite Hv.
Qed.

Lemma executeCommand_duplicate onOutput command now child_pid m :
  isShuttingDown m = false →
  Sanitizer.isValid (verdict m command) = true →
  is_Some (processes m !! Command.id command) →
  executeCommand_from onOutput command now child_pid m
  = (m, Throws (duplicateMessage (Command.id command))).
Proof.
  intros H Hv Hid. unfold executeCommand_from. rewrite H.
  fold (verdict m command). rewrite Hv. cbn [negb].
  by rewrite bool_decide_eq_true_2.
Qed.

Lemma executeCommand_spawns onOutput command now child_pid m :
  isShuttingDown m = false →
  Sanitizer.isValid (verdict m command) = true →
  processes m !! Command.id command = None →
  let k := List.length (invocations m) in
  ∃ m',
    executeCommand_from onOutput command now child_pid m = (m', Awaiting k)
    ∧ spawned m' = spawned m ++ [spawn_of m command]
    ∧ processes m' = <[Command.id command := k]> (processes m)
    ∧ childProcesses m' = <[Command.id command := k]> (childProcesses m)
    ∧ outputStreamer m' = outputStreamer m
    ∧ isShuttingDown m' = false
    ∧ invocations m'
      = invocations m
        ++ [ {| claudeProcess :=
                  {| id := Command.id command; command := command;
                     status := running; startTime := now; endTime := None;
                     pid := child_pid; exitCode := None; error := None |};
                output := ""; errorOutput := "";
                timeoutId := Some (Streamer.or_number (Command.timeout command)
                                     (commandTimeout (config m)));
                settled := None;
                child_killed := false; child_signals := [];
                child_stdin :=
                  match Command.input command with
                  | Some text => if Js.truthy text then Some text else None
                  | None => None
                  end;
                forceKillTimer := false;
                onOutput := onOutput; streamingResult := None |} ].
Proof.
  intros H Hv Hid k. unfold executeCommand_from. rewrite H.
  fold (verdict m command). rewrite Hv. cbn [negb].
  rewrite bool_decide_eq_false_2 by (rewrite Hid; by intros [? ?]).
  eexists. split; [done|]. by repeat split.
Qed.

Lemma valid_iff_no_violations m command :
  Sanitizer.isValid (verdict m command) = true
  ↔ Sanitizer.violations (verdict m command) = [].
Proof.
  unfold verdict, Sanitizer.sanitizeClaudeCommand.
  apply SanitizerFacts.sanitizeCommand_coherent_iff.
Qed.

Lemma executeStreamingCommand_throws command handler now child_pid m message :
  isShuttingDown m = false →
  (∀ s, executeCommand_from (Some handler) command now child_pid
          (set_outputStreamer s m)
        = (set_outputStreamer s m, Throws message)) →
  ∃ m',
    executeStreamingCommand command handler now child_pid m
      = Some (m', Throws message)
    ∧ spawned m' = spawned m ∧ processes m' = processes m
    ∧ childProcesses m' = childProcesses m ∧ invocations m' = invocations m.
Proof.
  intros Hs Hthrow. unfold executeStreamingCommand. rewrite Hs.
  destruct (StreamerFacts.startStreaming_total (Command.id command) now
              (outputStreamer m)) as [s1 ->]. bind_step.
  rewrite Hthrow. cbn [outputStreamer set_outputStreamer].
  match goal with
  | |- context [Streamer.stopStreaming ?p ?n ?s] =>
      destruct (StreamerFacts.stopStreaming_total p n s) as [s2 ->]
  end.
  bind_step. eexists. split; [done|]. by repeat split.
Qed.

(** C2, as the specification has it, fails: on a manager that is
    shutting down, the check of [isShuttingDown] comes before the
    sanitizer.  A command whose verdict has two violations is refused
    with the shutdown error, which carries none of them. *)
Lemma violations_hidden_by_shutdown :
  let bad := Command.mk "a" "claude" ["-p"; "x; rm -rf /"; "../etc"]
               None None None in
  ∃ m,
    run [Shutdown 0] (new no_config "/home/user") = Some m
    ∧ Sanitizer.violations (verdict m bad)
      = ["Shell metacharacters detected in argument 1: x; rm -rf /";
         "Path traversal detected in argument 2: ../etc"]
    ∧ executeCommand bad 1 (Some 41) m
      = (m, Throws "Claude Manager is shutting down").
Proof. eexists. split; [by vm_compute|]. split; by vm_compute. Qed.

(** C2, amended.  Let the verdict of command [bad] contain at least one
    violation, and let the verdict of command [ok] contain none
    (whatever its warnings are).  In every state of the manager,
    [executeCommand] and [executeStreamingCommand] of [bad] throw and
    leave the records, the children and the calls to [spawn] as they
    were.  On a manager that is not shutting down the exception is the
    sanitization error: its message is "Command failed sanitization: "
    followed by the violations, joined by ", ", so that every violation
    is part of the message.  On a manager that is shutting down it is
    the shutdown error.  And [ok] is not blocked by the sanitizer: in a
    manager that is not shutting down and does not track its id,
    [executeCommand] creates a running record and calls [spawn]
    once. *)
Theorem violations_block_execution
    (m : EnhancedClaudeManager) (bad ok : Command.ClaudeCommand)
    (handler : Streamer.Handler) (now : Z) (child_pid : option Z) :
  Sanitizer.violations (verdict m bad) ≠ [] →
  Sanitizer.violations (verdict m ok) = [] →
  (∃ message,
     executeCommand bad now child_pid m = (m, Throws message)
     ∧ (∃ m',
          executeStreamingCommand bad handler now child_pid m
            = Some (m', Throws message)
          ∧ spawned m' = spawned m ∧ processes m' = processes m
          ∧ childProcesses m' = childProcesses m
          ∧ invocations m' = invocations m)
     ∧ (isShuttingDown m = false →
        message = "Command failed sanitization: "
                  +:+ Js.join ", " (Sanitizer.violations (verdict m bad))
        ∧ ∀ violation, violation ∈ Sanitizer.violations (verdict m bad) →
            ∃ before after, message = before +:+ violation +:+ after)
     ∧ (isShuttingDown m = true → message = "Claude Manager is shutting down"))
  ∧ (isShuttingDown m = false → processes m !! Command.id ok = None →
     ∃ m',
       executeCommand ok now child_pid m
         = (m', Awaiting (List.length (invocations m)))
       ∧ spawned m' = spawned m ++ [spawn_of m ok]
       ∧ (status <$> getProcess (Command.id ok) m') = Some running).
Proof.
  intros Hbad Hok.
  assert (Sanitizer.isValid (verdict m bad) = false) as Hinvalid.
  { destruct (Sanitizer.isValid (verdict m bad)) eqn:E; [|done].
    by apply valid_iff_no_violations in E. }
  apply valid_iff_no_violations in Hok.
  destruct (isShuttingDown m) eqn:Hs.
  - split; [|done].
    exists "Claude Manager is shutting down".
    split; [by apply executeCommand_shutting_down|].
    split; [|by split].
    unfold executeStreamingCommand. rewrite Hs.
    eexists. split; [reflexivity|]. by repeat split.
  - split.
    + exists ("Command failed sanitization: "
              +:+ Js.join ", " (Sanitizer.violations (verdict m bad))).
      split; [by apply executeCommand_invalid|].
      split; [|split; [|done]].
      * destruct (executeStreamingCommand_throws bad handler now child_pid m
                    (sanitizationMessage (Sanitizer.violations (verdict m bad))) Hs)
          as (m' & H & H1 & H2 & H3 & H4).
        { intros s.
          exact (executeCommand_invalid (Some handler) bad now child_pid
                   (set_outputStreamer s m) Hs Hinvalid). }
        exists m'. split; [exact H|]. by repeat split.
      * intros _. split; [done|]. intros violation Hin.
        destruct (join_includes ", " _ _ Hin) as (before & after & ->).
        by exists ("Command failed sanitization: " +:+ before), after.
    + intros _ Hid.
      destruct (executeCommand_spawns None ok now child_pid m Hs Hok Hid)
        as (m' & H & Hsp & Hp & _ & _ & _ & Hi).
      eexists. split; [exact H|]. split; [done|].
      unfold getProcess. rewrite Hp, lookup_insert_eq. bind_step.
      rewrite Hi, lookup_app_r, Nat.sub_diag by done. done.
Qed.

Lemma violations_block_execution_witness :
  let m := new no_config "/home/user" in
  let bad := Command.mk "a" "claude" ["-p"; "x; rm -rf /"; "../etc"]
               None None None in
  let ok := Command.mk "b" "claude" ["--file=notes.txt"] None None None in
  Sanitizer.warnings (verdict m ok) ≠ []
  ∧ (∃ message,
       executeCommand bad 0 (Some 41) m = (m, Throws message)
       ∧ (∃ m',
            executeStreamingCommand bad 7%nat 0 (Some 41) m
              = Some (m', Throws message)
            ∧ spawned m' = spawned m ∧ processes m' = processes m
            ∧ childProcesses m' = childProcesses m
            ∧ invocations m' = invocations m)
       ∧ (isShuttingDown m = false →
          message = "Command failed sanitization: "
                    +:+ Js.join ", " (Sanitizer.violations (verdict m bad))
          ∧ ∀ violation, violation ∈ Sanitizer.violations (verdict m bad) →
              ∃ before after, message = before +:+ violation +:+ after)
       ∧ (isShuttingDown m = true → message = "Claude Manager is shutting down"))
  ∧ (isShuttingDown m = false → processes m !! Command.id ok = None →
     ∃ m',
       executeCommand ok 0 (Some 41) m
         = (m', Awaiting (List.length (invocations m)))
       ∧ spawned m' = spawned m ++ [spawn_of m ok]
       ∧ (status <$> getProcess (Command.id ok) m') = Some running).
Proof.
  intros m bad ok. split; [by vm_compute|].
  apply (violations_block_execution m bad ok 7%nat 0 (Some 41)); by vm_compute.
Defined.

(** The message of the sanitization error, for a command with two
    violations. *)
Example sanitization_error_lists_the_violations :
  let bad := Command.mk "a" "claude" ["-p"; "x; rm -rf /"; "../etc"]
               None None None in
  snd (executeCommand bad 0 (Some 41) (new no_config "/home/user"))
  = Throws ("Command failed sanitization: "
            +:+ "Shell metacharacters detected in argument 1: x; rm -rf /, "
            +:+ "Path traversal detected in argument 2: ../etc").
Proof. by vm_compute. Qed.

(** ** Duplicate ids *)

(** C6, as the specification has it, fails: the id of a record that has
    reached a terminal status is rejected as a duplicate. *)
Lemma terminal_id_rejected_as_duplicate :
  let command := Command.mk "a" "claude" ["--version"] None None None in
  ∃ m,
    run [ExecuteCommand command 0 (Some 41); StdoutData 0 "1.0" 1;
         ChildExit 0 (Some 0) None 2] (new no_config "/home/user") = Some m
    ∧ (status <$> getProcess "a" m) = Some completed
    ∧ result 0 m = Some (Resolved "1.0")
    ∧ executeCommand command 3 (Some 42) m
      = (m, Throws "Process with ID a already exists").
Proof. eexists. split; [by vm_compute|]. by vm_compute. Qed.

(** C6, amended.  [executeCommand] rejects with the duplicate-id error
    exactly when the manager is not shutting down, the command passes
    sanitization and the command's id is already tracked by the manager,
    whatever the status of the tracked record is; in particular, reusing
    the id of a record that has reached a terminal status is rejected as
    a duplicate. *)
Theorem duplicate_iff_tracked
    (m : EnhancedClaudeManager) (command : Command.ClaudeCommand)
    (now : Z) (child_pid : option Z) :
  (snd (executeCommand command now child_pid m)
     = Throws (duplicateMessage (Command.id command))
   ↔ isShuttingDown m = false
     ∧ Sanitizer.violations (verdict m command) = []
     ∧ is_Some (processes m !! Command.id command))
  ∧ (∀ p, isShuttingDown m = false →
          Sanitizer.violations (verdict m command) = [] →
          getProcess (Command.id command) m = Some p →
          terminal (status p) →
          executeCommand command now child_pid m
          = (m, Throws (duplicateMessage (Command.id command)))).
Proof.
  split.
  - rewrite <- valid_iff_no_violations. split.
    + unfold executeCommand, executeCommand_from.
      fold (verdict m command).
      destruct (isShuttingDown m); [done|].
      destruct (Sanitizer.isValid (verdict m command)); [|done].
      cbn [negb]. case_bool_decide; [done|]. simpl. done.
    + intros (Hs & Hv & Hid). unfold executeCommand.
      by rewrite executeCommand_duplicate.
  - intros p Hs Hv Hp _. apply executeCommand_duplicate; [done| |].
    + by apply valid_iff_no_violations.
    + unfold getProcess in Hp. by destruct (processes m !! Command.id command).
Qed.

Lemma duplicate_iff_tracked_witness :
  let command := Command.mk "a" "claude" ["--version"] None None None in
  let m := default (new no_config "/home/user")
             (run [ExecuteCommand command 0 (Some 41);
                   ChildExit 0 (Some 1) None 2] (new no_config "/home/user")) in
  (status <$> getProcess "a" m) = Some failed
  ∧ executeCommand command 3 (Some 42) m
    = (m, Throws (duplicateMessage (Command.id command))).
Proof.
  intros command m. split; [by vm_compute|].
  destruct (duplicate_iff_tracked m command 3 (Some 42)) as [_ H].
  apply (H (mk "a" command failed 0 (Some 2) (Some 41) (Some 1)
              (Some "Claude process exited with code 1: ")));
    by vm_compute.
Defined.

(** ** Status transitions *)

(** C1 fails on the code: a record that [killProcess] has marked
    [killed] is marked [failed], with exit code 1, when the exit of the
    child arrives afterwards and the [catch] block of [executeCommand]
    runs. *)
Lemma killed_record_becomes_failed :
  let command := Command.mk "a" "claude" ["-p"; "hello"] None None None in
  let start := [ExecuteCommand command 0 (Some 41); KillProcess "a" 1] in
  let m0 := new no_config "/home/user" in
  ∃ m1 m2,
    run start m0 = Some m1
    ∧ (status <$> getProcess "a" m1) = Some killed
    ∧ (exitCode <$> getProcess "a" m1) = Some (Some (-1))
    ∧ step (ChildExit 0 None (Some "SIGTERM") 2) m1 = Some m2
    ∧ (status <$> getProcess "a" m2) = Some failed
    ∧ (exitCode <$> getProcess "a" m2) = Some (Some 1).
Proof. eexists _, _. split; [by vm_compute|]. by vm_compute. Qed.

(** The same record is marked [completed] when the child, asked to
    terminate, exits with code 0. *)
Lemma killed_record_becomes_completed :
  let command := Command.mk "a" "claude" ["-p"; "hello"] None None None in
  (status <$>
     (run [ExecuteCommand command 0 (Some 41); KillProcess "a" 1;
           ChildExit 0 (Some 0) None 2] (new no_config "/home/user")
      ≫= getProcess "a"))
  = Some completed.
Proof. by vm_compute. Qed.

(** ** Settling *)

Lemma streamIfActive_same id f m m' :
  streamIfActive id f m = Some m' →
  invocations m' = invocations m ∧ processes m' = processes m
  ∧ childProcesses m' = childProcesses m ∧ spawned m' = spawned m
  ∧ isShuttingDown m' = isShuttingDown m.
Proof.
  unfold streamIfActive. destruct (Streamer.isStreaming _ _).
  - intros H. apply bind_Some in H as (s & _ & [= <-]). done.
  - by intros [= <-].
Qed.

Lemma streamIfActive_total id f m :
  (∀ s, is_Some (f s)) → is_Some (streamIfActive id f m).
Proof.
  intros Hf. unfold streamIfActive. destruct (Streamer.isStreaming _ _); [|done].
  by destruct (Hf (outputStreamer m)) as [s ->].
Qed.

Lemma settle_pending k o now m i :
  invocations m !! k = Some i → settled i = None →
  ∃ m',
    settle k o now m = Some m'
    ∧ record k m' = Some (finished o now (claudeProcess i))
    ∧ result k m' = Some o
    ∧ processes m' = processes m
    ∧ spawned m' = spawned m.
Proof.
  intros Hk Hs. unfold settle. rewrite Hk, Hs.
  assert (∀ g, (alter g k (invocations m)) !! k = Some (g i)) as Halter
    by (intros g; by rewrite list_lookup_alter_eq, Hk).
  destruct (onOutput i) as [handler|].
  - match goal with
    | |- context [Streamer.stopStreaming ?p ?n ?s] =>
        destruct (StreamerFacts.stopStreaming_total p n s) as [s2 ->]
    end.
    bind_step. eexists. split; [done|].
    unfold record, result, update; cbn [invocations set_invocations
      set_outputStreamer set_childProcesses].
    rewrite list_alter_alter_eq, Halter. by destruct o.
  - eexists. split; [done|].
    unfold record, result, update; cbn [invocations set_invocations
      set_childProcesses].
    rewrite Halter. by destruct o.
Qed.

Lemma settle_settled k o now m i o' :
  invocations m !! k = Some i → settled i = Some o' → settle k o now m = Some m.
Proof. intros Hk Hs. unfold settle. by rewrite Hk, Hs. Qed.

(** ** What a failure writes into the record *)

Lemma on_exit_pending k code signal now m i :
  invocations m !! k = Some i → settled i = None →
  let o := if bool_decide (code = Some 0) then Resolved (output i)
           else Rejected (exitErrorMessage code signal (errorOutput i)) in
  ∃ m',
    on_exit k code signal now m = Some m'
    ∧ record k m' = Some (finished o now (claudeProcess i))
    ∧ result k m' = Some o
    ∧ processes m' = processes m.
Proof.
  intros Hk Hs o. unfold on_exit. rewrite Hk.
  destruct (streamIfActive_total (id_of i)
              (Streamer.streamProcessExit (id_of i) (Streamer.or_number code 0) now)
              (update k (set_timeoutId None) m)) as [m1 Hm1].
  { intros s. apply StreamerFacts.streamProcessExit_total. }
  unfold id_of in Hm1. rewrite Hm1. bind_step.
  apply streamIfActive_same in Hm1 as (Hi & Hp & _).
  assert (invocations m1 !! k = Some (set_timeoutId None i)) as Hk1.
  { rewrite Hi. unfold update; simpl. by rewrite list_lookup_alter_eq, Hk. }
  destruct (settle_pending k o now m1 _ Hk1 Hs) as (m' & H & Hr & Hres & Hp' & _).
  exists m'. subst o. split; [by destruct (bool_decide _)|].
  split; [done|]. split; [done|]. by rewrite Hp', Hp.
Qed.

Lemma on_error_pending k message now m i m' :
  invocations m !! k = Some i → settled i = None →
  on_error k message now m = Some m' →
  record k m' = Some (finished (Rejected message) now (claudeProcess i))
  ∧ result k m' = Some (Rejected message)
  ∧ processes m' = processes m.
Proof.
  intros Hk Hs H. unfold on_error in H. rewrite Hk in H.
  apply bind_Some in H as (m1 & Hm1 & H).
  apply streamIfActive_same in Hm1 as (Hi & Hp & _).
  assert (invocations m1 !! k = Some (set_timeoutId None i)) as Hk1.
  { rewrite Hi. unfold update; simpl. by rewrite list_lookup_alter_eq, Hk. }
  destruct (settle_pending k (Rejected message) now m1 _ Hk1 Hs)
    as (m2 & H2 & Hr & Hres & Hp' & _).
  rewrite H2 in H. injection H as <-.
  split; [done|]. split; [done|]. by rewrite Hp', Hp.
Qed.

Lemma on_error_not_streaming k message now m i :
  invocations m !! k = Some i → settled i = None →
  Streamer.isStreaming (id_of i) (outputStreamer m) = false →
  is_Some (on_error k message now m).
Proof.
  intros Hk Hs Hst. unfold on_error. rewrite Hk.
  unfold streamIfActive. cbn [outputStreamer update set_invocations].
  unfold id_of in Hst. rewrite Hst. bind_step.
  assert (invocations (update k (set_timeoutId None) m) !! k
          = Some (set_timeoutId None i)) as Hk1.
  { unfold update; simpl. by rewrite list_lookup_alter_eq, Hk. }
  destruct (settle_pending k (Rejected message) now _ _ Hk1 Hs) as (m2 & -> & _).
  done.
Qed.

Lemma on_timeout_pending k now m i t :
  invocations m !! k = Some i → settled i = None → timeoutId i = Some t →
  ∃ m',
    on_timeout k now m = Some m'
    ∧ record k m'
      = Some (finished (Rejected (timeoutMessage t)) now (claudeProcess i))
    ∧ result k m' = Some (Rejected (timeoutMessage t))
    ∧ processes m' = processes m.
Proof.
  intros Hk Hs Ht. unfold on_timeout. rewrite Hk, Ht.
  assert (invocations (update k (λ i, kill "SIGTERM" (set_timeoutId None i)) m) !! k
          = Some (kill "SIGTERM" (set_timeoutId None i))) as Hk1.
  { unfold update; simpl. by rewrite list_lookup_alter_eq, Hk. }
  destruct (settle_pending k (Rejected (timeoutMessage t)) now _ _ Hk1 Hs)
    as (m2 & -> & Hr & Hres & Hp & _).
  by exists m2.
Qed.

Lemma killProcess_running processId now m k i :
  processes m !! processId = Some k →
  invocations m !! k = Some i →
  status (claudeProcess i) = running →
  ∃ m',
    killProcess processId now m = Some (m', true)
    ∧ getProcess processId m'
      = Some (set_error "Process killed by user"
                (set_exitCode (-1)
                   (set_endTime now (set_status killed (claudeProcess i))))).
Proof.
  intros Hp Hk Hst. unfold killProcess. rewrite Hp, Hk, Hst.
  rewrite bool_decide_eq_true_2 by done. cbn [negb].
  match goal with
  | |- context [Streamer.stopStreaming ?p ?n ?s] =>
      destruct (StreamerFacts.stopStreaming_total p n s) as [s2 ->]
  end.
  bind_step. eexists. split; [done|].
  unfold getProcess.
  cbn [processes set_outputStreamer update set_invocations invocations].
  destruct (childProcesses m !! processId) as [c|];
    cbn [processes set_childProcesses update set_invocations invocations];
    rewrite Hp; bind_step; rewrite list_lookup_alter_eq.
  - destruct (decide (c = k)) as [->|Hne].
    + by rewrite list_lookup_alter_eq, Hk.
    + by rewrite list_lookup_alter_ne, Hk.
  - by rewrite Hk.
Qed.

Lemma killProcess_false processId now m m' :
  killProcess processId now m = Some (m', false) → m' = m.
Proof.
  unfold killProcess. intros H.
  destruct (processes m !! processId) as [k|]; [|by simplify_eq].
  destruct (invocations m !! k) as [i|]; [|by simplify_eq].
  destruct (negb _); [by simplify_eq|].
  apply bind_Some in H as (s & _ & H). by simplify_eq.
Qed.

(** C10.  Take an invocation [k] whose promise has not settled and a
    record that is tracked and running.  Every way in which the
    execution can end in failure writes exit code 1 and status [failed]
    into the record of [k]: the exit of the child with any code other
    than 0 (a number [n], or none when a signal ended the child), an
    error of the child, and the expiry of the deadline; the code [n] of
    the child goes into the error text only.  [killProcess] writes exit
    code -1.  So the [exitCode] field never depends on the exit code of
    the child: it is the same for all nonzero codes. *)
Theorem failure_exit_code_is_one
    (m : EnhancedClaudeManager) (k : nat) (i : Invocation) (now : Z)
    (processId : string) (k' : nat) (i' : Invocation) :
  invocations m !! k = Some i → settled i = None →
  processes m !! processId = Some k' → invocations m !! k' = Some i' →
  status (claudeProcess i') = running →
  (∀ code signal, code ≠ Some 0 →
     ∃ m', on_exit k code signal now m = Some m'
           ∧ (status <$> record k m') = Some failed
           ∧ (exitCode <$> record k m') = Some (Some 1)
           ∧ (error <$> record k m')
             = Some (Some (exitErrorMessage code signal (errorOutput i))))
  ∧ (∀ n n' signal signal' m1 m2,
       n ≠ 0 → n' ≠ 0 →
       on_exit k (Some n) signal now m = Some m1 →
       on_exit k (Some n') signal' now m = Some m2 →
       (exitCode <$> record k m1) = (exitCode <$> record k m2))
  ∧ (∀ message m', on_error k message now m = Some m' →
       (status <$> record k m') = Some failed
       ∧ (exitCode <$> record k m') = Some (Some 1))
  ∧ (Streamer.isStreaming (id_of i) (outputStreamer m) = false →
       ∀ message, is_Some (on_error k message now m))
  ∧ (∀ t, timeoutId i = Some t →
       ∃ m', on_timeout k now m = Some m'
             ∧ (status <$> record k m') = Some failed
             ∧ (exitCode <$> record k m') = Some (Some 1))
  ∧ (∃ m', killProcess processId now m = Some (m', true)
           ∧ (status <$> getProcess processId m') = Some killed
           ∧ (exitCode <$> getProcess processId m') = Some (Some (-1))).
Proof.
  intros Hk Hs Hp Hk' Hst.
  assert (∀ code signal, code ≠ Some 0 →
     ∃ m', on_exit k code signal now m = Some m'
           ∧ record k m'
             = Some (finished (Rejected (exitErrorMessage code signal
                                           (errorOutput i)))
                       now (claudeProcess i))) as Hexit.
  { intros code signal Hcode.
    destruct (on_exit_pending k code signal now m i Hk Hs) as (m' & H & Hr & _).
    rewrite bool_decide_eq_false_2 in Hr by done. by exists m'. }
  split; [|split; [|split; [|split; [|split]]]].
  - intros code signal Hcode.
    destruct (Hexit code signal Hcode) as (m' & H & Hr).
    exists m'. by rewrite Hr.
  - intros n n' signal signal' m1 m2 Hn Hn' H1 H2.
    destruct (Hexit (Some n) signal) as (m1' & H1' & Hr1); [congruence|].
    destruct (Hexit (Some n') signal') as (m2' & H2' & Hr2); [congruence|].
    assert (m1' = m1) as -> by congruence.
    assert (m2' = m2) as -> by congruence.
    by rewrite Hr1, Hr2.
  - intros message m' H.
    destruct (on_error_pending k message now m i m' Hk Hs H) as (Hr & _).
    by rewrite Hr.
  - intros Hstream message. by apply (on_error_not_streaming k message now m i).
  - intros t Ht.
    destruct (on_timeout_pending k now m i t Hk Hs Ht) as (m' & H & Hr & _).
    exists m'. by rewrite Hr.
  - destruct (killProcess_running processId now m k' i' Hp Hk' Hst)
      as (m' & H & Hg).
    exists m'. by rewrite Hg.
Qed.

Lemma failure_exit_code_is_one_witness :
  let command := Command.mk "a" "claude" ["-p"; "hello"] None (Some 100) None in
  let m := fst (executeCommand command 0 (Some 41) (new no_config "/home/user")) in
  (∃ m', on_exit 0 (Some 2) None 5 m = Some m'
         ∧ (status <$> record 0 m') = Some failed
         ∧ (exitCode <$> record 0 m') = Some (Some 1)
         ∧ (error <$> record 0 m')
           = Some (Some "Claude process exited with code 2: "))
  ∧ (∃ m', on_timeout 0 5 m = Some m'
           ∧ (status <$> record 0 m') = Some failed
           ∧ (exitCode <$> record 0 m') = Some (Some 1))
  ∧ (∃ m', killProcess "a" 5 m = Some (m', true)
           ∧ (status <$> getProcess "a" m') = Some killed
           ∧ (exitCode <$> getProcess "a" m') = Some (Some (-1))).
Proof.
  intros command m.
  destruct (failure_exit_code_is_one m 0
              (default (mkInvocation
                          (mk "" command running 0 None None None None)
                          "" "" None None false [] None false None None)
                 (invocations m !! 0%nat))
              5 "a" 0
              (default (mkInvocation
                          (mk "" command running 0 None None None None)
                          "" "" None None false [] None false None None)
                 (invocations m !! 0%nat)))
    as (Hexit & _ & _ & _ & Htimeout & Hkill); try by vm_compute.
  split; [|split].
  - by apply (Hexit (Some 2) None).
  - by apply (Htimeout 100).
  - exact Hkill.
Defined.

(** ** Accumulated text and buffered text *)

Lemma join_empty_separator l : Js.join "" l = foldr String.append "" l.
Proof.
  induction l as [|x [|y l] IH]; [done| |].
  - simpl. by rewrite append_nil_r.
  - change (Js.join "" (x :: y :: l)) with (x +:+ "" +:+ Js.join "" (y :: l)).
    by rewrite IH.
Qed.

Lemma settle_streaming k value now m i handler :
  invocations m !! k = Some i → settled i = None → onOutput i = Some handler →
  let fullOutput := Streamer.getFullOutput (id_of i) (outputStreamer m) in
  ∃ m',
    settle k (Resolved value) now m = Some m'
    ∧ result k m' = Some (Resolved value)
    ∧ streamed k m'
      = Some (Resolved (if Js.truthy fullOutput then fullOutput else value)).
Proof.
  intros Hk Hs Hh fullOutput. unfold settle. rewrite Hk, Hs, Hh.
  match goal with
  | |- context [Streamer.stopStreaming ?p ?n ?s] =>
      destruct (StreamerFacts.stopStreaming_total p n s) as [s2 ->]
  end.
  bind_step. eexists. split; [done|].
  unfold result, streamed, update;
    cbn [invocations set_invocations set_outputStreamer set_childProcesses
         outputStreamer].
  by rewrite list_alter_alter_eq, list_lookup_alter_eq, Hk.
Qed.

Lemma on_exit_streaming k signal now m i handler b :
  invocations m !! k = Some i → settled i = None → onOutput i = Some handler →
  id_of i ∈ Streamer.activeStreams (outputStreamer m) →
  Streamer.buffers (outputStreamer m) !! id_of i = Some b →
  ∃ m',
    on_exit k (Some 0) signal now m = Some m'
    ∧ result k m' = Some (Resolved (output i))
    ∧ streamed k m'
      = Some (Resolved (if Js.truthy (Js.join "" b) then Js.join "" b
                        else output i)).
Proof.
  intros Hk Hs Hh Ha Hb. unfold on_exit, streamIfActive. rewrite Hk.
  cbn [outputStreamer update set_invocations].
  apply StreamerFacts.isStreaming_spec in Ha as Hst.
  unfold id_of in Hst, Ha. rewrite Hst.
  rewrite StreamerFacts.streamProcessExit_open by done. bind_step.
  rewrite bool_decide_eq_true_2 by done.
  match goal with
  | |- context [settle k ?o now ?m1] =>
      destruct (settle_streaming k (output i) now m1 (set_timeoutId None i) handler)
        as (m' & H & Hr & Hstr)
  end.
  { simpl. by rewrite list_lookup_alter_eq, Hk. }
  { done. }
  { done. }
  exists m'. split; [exact H|]. split; [exact Hr|].
  rewrite Hstr. unfold Streamer.getFullOutput, id_of in *. simpl.
  by rewrite Hb.
Qed.

Lemma executeStreamingCommand_spawns command handler now child_pid m :
  isShuttingDown m = false →
  Sanitizer.isValid (verdict m command) = true →
  processes m !! Command.id command = None →
  Command.id command ∉ Streamer.activeStreams (outputStreamer m) →
  let k := List.length (invocations m) in
  ∃ m' i,
    executeStreamingCommand command handler now child_pid m
      = Some (m', Awaiting k)
    ∧ invocations m' !! k = Some i
    ∧ id_of i = Command.id command
    ∧ output i = "" ∧ settled i = None ∧ onOutput i = Some handler
    ∧ Command.id command ∈ Streamer.activeStreams (outputStreamer m')
    ∧ Streamer.buffers (outputStreamer m') !! Command.id command = Some []
    ∧ Streamer.maxBufferSize (outputStreamer m')
      = Streamer.maxBufferSize (outputStreamer m).
Proof.
  intros Hs Hv Hid Hact k. unfold executeStreamingCommand. rewrite Hs.
  destruct (StreamerFacts.startStreaming_fresh (Command.id command) now
              (outputStreamer m) Hact) as (s1 & -> & Ha1 & Hb1 & Hm1).
  bind_step.
  match goal with
  | |- context [executeCommand_from ?h ?c ?n ?p ?m1] =>
      destruct (executeCommand_spawns h c n p m1) as (m' & -> & _ & _ & _ & Hst & _ & Hi);
        [done|done|done|]
  end.
  eexists m', _. split; [done|].
  rewrite Hi. cbn [invocations set_outputStreamer].
  rewrite lookup_app_r, Nat.sub_diag by done.
  split; [done|]. split; [done|]. split; [done|]. split; [done|]. split; [done|].
  rewrite Hst. cbn [outputStreamer set_outputStreamer Streamer.onProcessOutput
    Streamer.on Streamer.set_listeners Streamer.activeStreams Streamer.buffers
    Streamer.maxBufferSize].
  rewrite Ha1, Hb1, Hm1, lookup_insert_eq.
  split; [|done]. apply elem_of_app. right. by left.
Qed.

(** ** Streaming and synchronous results *)

(** C8, as the specification has it, fails: the buffer of the streamer
    receives the stderr chunks too, the synchronous accumulation only
    the stdout chunks.  (The amended claim is proved further down, with
    the runs of the manager.) *)
Lemma streamed_text_includes_stderr :
  let command := Command.mk "a" "claude" ["-p"; "hello"] None None None in
  let child k := [StderrData k "warning " 1; StdoutData k "ok" 2;
                  ChildExit k (Some 0) None 3] in
  let m := new no_config "/home/user" in
  (run (ExecuteStreamingCommand command 7%nat 0 (Some 41) :: child 0%nat) m
     ≫= streamed 0) = Some (Resolved "warning ok")
  ∧ (run (ExecuteCommand command 0 (Some 41) :: child 0%nat) m
       ≫= result 0) = Some (Resolved "ok").
Proof. split; by vm_compute. Qed.

(** ** Steps that keep the tracked ids *)

Lemma same_frame_refl m : same_frame m m.
Proof. by repeat split. Qed.

Lemma same_frame_trans m1 m2 m3 :
  same_frame m1 m2 → same_frame m2 m3 → same_frame m1 m3.
Proof. intros (?&?&?) (?&?&?). repeat split; congruence. Qed.

Lemma same_frame_update k f m :
  (∀ i, id_of (f i) = id_of i) → same_frame m (update k f m).
Proof.
  intros Hf. split; [done|]. split; [done|].
  unfold update; cbn [invocations set_invocations].
  generalize (invocations m). intros l. revert k.
  induction l as [|i l IH]; intros [|k]; simpl; [done|done| |].
  - by rewrite Hf.
  - f_equal. apply IH.
Qed.

Lemma same_frame_streamer s m : same_frame m (set_outputStreamer s m).
Proof. by repeat split. Qed.

Lemma same_frame_children c m : same_frame m (set_childProcesses c m).
Proof. by repeat split. Qed.

Lemma same_frame_lookup m m' k i' :
  same_frame m m' → invocations m' !! k = Some i' →
  ∃ i, invocations m !! k = Some i ∧ id_of i = id_of i'.
Proof.
  intros (_ & _ & Hids) Hk.
  assert (map id_of (invocations m') !! k = Some (id_of i')) as H
    by (by rewrite list_lookup_fmap, Hk).
  rewrite Hids, list_lookup_fmap in H.
  destruct (invocations m !! k) as [i|]; [|done].
  exists i. split; [done|]. by injection H.
Qed.

Lemma settle_frame k o now m m' :
  settle k o now m = Some m' → same_frame m m'.
Proof.
  unfold settle. intros H.
  destruct (invocations m !! k) as [i|];
    [|injection H as <-; apply same_frame_refl].
  destruct (settled i); [injection H as <-; apply same_frame_refl|].
  set (m1 := set_childProcesses _ (update k _ m)) in H.
  assert (same_frame m m1) as Hf1.
  { apply (same_frame_trans _ (update k
             (λ i0, set_settled (Some o)
                      (set_claudeProcess
                         (match o with
                          | Resolved _ =>
                              λ p, set_exitCode 0
                                     (set_endTime now (set_status completed p))
                          | Rejected message =>
                              λ p, set_exitCode 1
                                     (set_error message
                                        (set_endTime now (set_status failed p)))
                          end (claudeProcess i0)) i0)) m));
      [|apply same_frame_children].
    apply same_frame_update. intros i0. by destruct o. }
  destruct (onOutput i) as [handler|]; [|by injection H as <-].
  apply bind_Some in H as (s2 & Hstop & H). injection H as <-.
  apply (same_frame_trans _ m1); [done|].
  apply (same_frame_trans _ (set_outputStreamer s2 m1));
    [apply same_frame_streamer|by apply same_frame_update].
Qed.

Lemma streamIfActive_frame id f m m' :
  streamIfActive id f m = Some m' →
  same_frame m m'
  ∧ (outputStreamer m' = outputStreamer m
     ∨ f (outputStreamer m) = Some (outputStreamer m')).
Proof.
  unfold streamIfActive. destruct (Streamer.isStreaming _ _).
  - intros H. apply bind_Some in H as (s & Hs & [= <-]).
    split; [apply same_frame_streamer|by right].
  - intros [= <-]. split; [apply same_frame_refl|by left].
Qed.

Lemma killProcess_frame processId now m m' b :
  killProcess processId now m = Some (m', b) → same_frame m m'.
Proof.
  intros H. destruct b.
  2:{ apply killProcess_false in H as ->. apply same_frame_refl. }
  unfold killProcess in H.
  destruct (processes m !! processId) as [k|]; [|done].
  destruct (invocations m !! k) as [i|]; [|done].
  destruct (negb _); [done|].
  apply bind_Some in H as (s & Hstop & H). injection H as <-.
  set (m1 := match childProcesses m !! processId with
             | Some c => _ | None => m end) in *.
  assert (same_frame m m1) as Hf1.
  { unfold m1. destruct (childProcesses m !! processId) as [c|];
      [|apply same_frame_refl].
    eapply same_frame_trans; [|apply same_frame_children].
    by apply same_frame_update. }
  eapply same_frame_trans; [exact Hf1|].
  eapply same_frame_trans; [|apply same_frame_streamer].
  by apply same_frame_update.
Qed.

Lemma kill_all_frame ids now m m' :
  kill_all ids now m = Some m' → same_frame m m'.
Proof.
  revert m. induction ids as [|p ids IH]; intros m H; simpl in H.
  { injection H as <-. apply same_frame_refl. }
  apply bind_Some in H as ([m1 b] & H1 & H).
  eapply same_frame_trans; [by eapply killProcess_frame|by apply IH].
Qed.

Lemma executeCommand_from_cases onOutput command now child_pid m :
  (executeCommand_from onOutput command now child_pid m).1 = m
  ∨ (isShuttingDown m = false
     ∧ processes m !! Command.id command = None
     ∧ ∃ m' i,
         executeCommand_from onOutput command now child_pid m
           = (m', Awaiting (List.length (invocations m)))
         ∧ id_of i = Command.id command
         ∧ invocations m' = invocations m ++ [i]
         ∧ processes m'
           = <[Command.id command := List.length (invocations m)]> (processes m)
         ∧ isShuttingDown m' = false
         ∧ outputStreamer m' = outputStreamer m).
Proof.
  destruct (isShuttingDown m) eqn:Hs;
    [left; by rewrite executeCommand_shutting_down|].
  destruct (Sanitizer.isValid (verdict m command)) eqn:Hv;
    [|left; by rewrite executeCommand_invalid].
  destruct (processes m !! Command.id command) eqn:Hid;
    [left; by rewrite executeCommand_duplicate|].
  right. split; [done|]. split; [done|].
  destruct (executeCommand_spawns onOutput command now child_pid m Hs Hv Hid)
    as (m' & H & _ & Hp & _ & Hst & Hsd & Hi).
  eexists m', _. split; [exact H|]. split; [|by split]. done.
Qed.

End ManagerFacts.

(** * More properties of the sanitizer *)

Module SanitizerMore.
Import Sanitizer SanitizerInv SanitizerChecks SanitizerFacts.

(** ** The flag after each validator *)

Lemma isValid_when b f r :
  isValid (when b f r) = if b then isValid (f r) else isValid r.
Proof. by destruct b. Qed.

Lemma isValid_for_from {A} (ok : A → bool) body (xs : list A) :
  (∀ i x r, isValid (body i x r) = isValid r && ok x) →
  ∀ i r, isValid (for_from i xs body r) = isValid r && forallb ok xs.
Proof.
  intros Hbody. induction xs as [|x xs IH]; intros i r; simpl.
  - by rewrite andb_true_r.
  - by rewrite IH, Hbody, andb_assoc.
Qed.

Lemma isValid_for_from_same {A} body (xs : list A) :
  (∀ i x r, isValid (body i x r) = isValid r) →
  ∀ i r, isValid (for_from i xs body r) = isValid r.
Proof.
  intros Hbody. induction xs as [|x xs IH]; intros i r; simpl; [done|].
  by rewrite IH, Hbody.
Qed.

Ltac flags :=
  repeat (rewrite isValid_when; cbn [isValid set_isValid push_violation
                                      push_warning set_sanitizedCommand]);
  repeat match goal with
         | |- context [if negb ?b then _ else _] => destruct b; cbn [negb]
         | |- context [if ?b then _ else _] => destruct b
         end;
  cbn [negb andb orb isValid set_isValid push_violation push_warning
       set_sanitizedCommand];
  rewrite ?andb_true_r, ?andb_false_r; try reflexivity.

Lemma isValid_validateCommandLength command options r :
  isValid (validateCommandLength command options r)
  = isValid r
    && (negb (Nat.eqb (Js.length (Js.trim command)) 0)
        && negb (Z.of_nat (Js.length (Js.trim command)) >? maxCommandLength options)).
Proof.
  unfold validateCommandLength.
  destruct (Nat.eqb _ _); cbn [isValid set_isValid push_violation
                                 set_sanitizedCommand negb andb].
  - by rewrite andb_false_r.
  - flags.
Qed.

Lemma isValid_validateCommandName command options r :
  isValid (validateCommandName command options r)
  = isValid r
    && ((allowShellMetacharacters options
         || negb (Re.test shellMetaChars (Js.trim command)))
        && negb (Js.includes (Js.trim command) "..")
        && forallb (λ pattern, negb (accepts pattern (Js.trim command)))
             (customBlockedPatterns options)).
Proof.
  unfold validateCommandName, for_each.
  rewrite (isValid_for_from
             (λ pattern, negb (accepts pattern (Js.trim command)))).
  - rewrite !andb_assoc. f_equal. flags.
  - intros i x r'. flags.
Qed.

Lemma isValid_validateArgumentCount args options r :
  isValid (validateArgumentCount args options r)
  = isValid r && count_ok options args.
Proof. unfold validateArgumentCount, count_ok. flags. Qed.

Lemma isValid_validateArgument options i arg r :
  isValid (validateArgument options i arg r)
  = isValid r && argument_ok options arg.
Proof. unfold validateArgument, argument_ok. flags. Qed.

Lemma isValid_validateArguments args options r :
  isValid (validateArguments args options r)
  = isValid r && forallb (argument_ok options) args.
Proof.
  unfold validateArguments, for_index. apply isValid_for_from.
  intros. apply isValid_validateArgument.
Qed.

Lemma isValid_validateWorkingDirectory wd options r :
  isValid (validateWorkingDirectory wd options r)
  = isValid r && workingDirectory_ok options wd.
Proof.
  unfold validateWorkingDirectory, workingDirectory_ok.
  destruct wd as [wd|]; [|by rewrite andb_true_r].
  destruct (Js.truthy wd); cbn [negb orb]; [|by rewrite andb_true_r].
  destruct (allowFileSystemAccess options); cbn [negb andb].
  - flags.
  - cbn [isValid set_isValid]. by rewrite andb_false_r.
Qed.

Lemma isValid_validateClaudeArguments args r :
  isValid (validateClaudeArguments args r) = isValid r.
Proof.
  unfold validateClaudeArguments, for_each.
  rewrite !isValid_for_from_same; [done| |]; intros; flags.
Qed.

Lemma isValid_validateDangerousOperations command args wd r :
  isValid (validateDangerousOperations command args wd r)
  = isValid r && negb (dangerous command args wd).
Proof.
  unfold validateDangerousOperations, dangerous.
  destruct (Js.list_includes _ _); cbn [andb negb];
    [|by rewrite andb_true_r].
  flags.
Qed.

Lemma isValid_validateApiKeySafety args r :
  isValid (validateApiKeySafety args r) = isValid r && forallb key_ok args.
Proof.
  unfold validateApiKeySafety, for_index. apply isValid_for_from.
  intros i arg r'. unfold validateApiKeyArgument, key_ok. flags.
Qed.

Lemma isValid_validatePromptSafety args r :
  isValid (validatePromptSafety args r) = isValid r.
Proof.
  unfold validatePromptSafety, for_index. apply isValid_for_from_same.
  intros i arg r'. unfold validatePromptArgument, for_each.
  rewrite isValid_when.
  assert (∀ r0, isValid (for_from 0 injectionPatterns
            (λ _ pattern, when (Re.test pattern arg)
               (push_warning ("Potential prompt injection detected in argument "
                              +:+ Js.idx i))) r0) = isValid r0) as H.
  { intros r0. apply isValid_for_from_same. intros. flags. }
  destruct (hasExcessiveRepetition arg); cbn [isValid push_warning]; apply H.
Qed.

Lemma isValid_sanitizeCommand this command args wd options :
  isValid (sanitizeCommand this command args wd options)
  = accepted (spread (defaultOptions this) options) command args wd.
Proof.
  unfold sanitizeCommand, performClaudeSpecificValidations, accepted, command_ok.
  rewrite isValid_validatePromptSafety, isValid_validateApiKeySafety,
    isValid_validateDangerousOperations, isValid_when,
    isValid_validateClaudeArguments.
  assert (∀ r : SanitizationResult, (if String.eqb command "claude"
            then isValid r else isValid r) = isValid r) as ->
    by (intros; by destruct (String.eqb _ _)).
  rewrite isValid_validateWorkingDirectory, isValid_validateArguments,
    isValid_validateArgumentCount, isValid_validateCommandName,
    isValid_validateCommandLength.
  cbn [isValid andb]. by rewrite !andb_assoc.
Qed.

Lemma accepted_spec options command args wd :
  accepted options command args wd = true
  ↔ command_ok options command = true
    ∧ count_ok options args = true
    ∧ (∀ arg, arg ∈ args → argument_ok options arg = true ∧ key_ok arg = true)
    ∧ workingDirectory_ok options wd = true
    ∧ dangerous command args wd = false.
Proof.
  unfold accepted. rewrite !andb_true_iff, negb_true_iff, !forallb_forall.
  split.
  - intros (((((Hc & Hn) & Ha) & Hw) & Hd) & Hk). repeat split; try done.
    + by apply Ha, list_elem_of_In.
    + by apply Hk, list_elem_of_In.
  - intros (Hc & Hn & Ha & Hw & Hd). repeat split; try done.
    + intros x Hx. by apply Ha, list_elem_of_In.
    + intros x Hx. by apply Ha, list_elem_of_In.
Qed.

(** X1.  The verdict of [sanitizeCommand] is valid exactly when every
    check passes under the merged options: the command is not empty
    after trimming, within [maxCommandLength], free of shell
    metacharacters (unless allowed), of [..] and of blocked patterns;
    there are at most [maxArgumentCount] arguments; every argument passes
    the argument checks and the API-key checks; the working directory
    passes its check; and the call is no dangerous file operation.  No
    warning enters the condition. *)
Theorem verdict_valid_iff_checks_pass
    (this : ClaudeCommandSanitizer) (command : string) (args : list string)
    (wd : option string) (options : PartialOptions) :
  let o := spread (defaultOptions this) options in
  isValid (sanitizeCommand this command args wd options) = true
  ↔ command_ok o command = true
    ∧ count_ok o args = true
    ∧ (∀ arg, arg ∈ args → argument_ok o arg = true ∧ key_ok arg = true)
    ∧ workingDirectory_ok o wd = true
    ∧ dangerous command args wd = false.
Proof. intros o. rewrite isValid_sanitizeCommand. apply accepted_spec. Qed.

Lemma gtb_false_le a b c : (a >? b) = false → b ≤ c → (a >? c) = false.
Proof. rewrite !Z.gtb_ltb, !Z.ltb_ge. lia. Qed.

Lemma allow_or_mono (a1 a2 t : bool) :
  (a1 = true → a2 = true) → a1 || negb t = true → a2 || negb t = true.
Proof. destruct a1, a2, t; naive_solver. Qed.

Lemma accepted_mono o1 o2 command args wd :
  at_least_as_strict o1 o2 →
  accepted o1 command args wd = true → accepted o2 command args wd = true.
Proof.
  intros (Hfs & Hnet & Henv & Hsh & Hcl & Hal & Hac & Hpat).
  rewrite !accepted_spec.
  intros (Hc & Hn & Ha & Hw & Hd). repeat split; try done.
  - unfold command_ok in *.
    rewrite !andb_true_iff, !negb_true_iff, !forallb_forall in *.
    destruct Hc as ((((H0 & Hlen) & Hmeta) & Htrav) & Hbl).
    repeat split; try done.
    + by eapply gtb_false_le.
    + by eapply allow_or_mono.
    + intros pattern Hin. apply Hbl, list_elem_of_In, Hpat.
      by apply list_elem_of_In.
  - unfold count_ok in *. rewrite negb_true_iff in *. by eapply gtb_false_le.
  - destruct (Ha arg H) as [Harg _]. unfold argument_ok in *.
    rewrite !andb_true_iff, !negb_true_iff in *.
    destruct Harg as (((((Hlen & Hmeta) & Hurl) & Htrav) & Hev) & Hbin).
    repeat split; try done.
    + by eapply gtb_false_le.
    + by eapply allow_or_mono.
    + by eapply allow_or_mono.
    + by eapply allow_or_mono.
  - by destruct (Ha arg H).
  - unfold workingDirectory_ok in *. destruct wd as [d|]; [|done].
    destruct (Js.truthy d); [|done]. cbn [negb orb] in *.
    rewrite !andb_true_iff in *. destruct Hw as [Hw ?]. auto.
Qed.

(** X2.  Stricter options accept less.  When the merged options of one
    call are at least as strict as those of another (every permission of
    the first is a permission of the second, no limit of the first is
    above that of the second, every pattern the second blocks the first
    blocks), a command that the first call accepts is accepted by the
    second.  In particular whatever the strict sanitizer accepts, the
    Claude sanitizer accepts. *)
Theorem stricter_options_accept_less
    (this1 this2 : ClaudeCommandSanitizer) (command : string)
    (args : list string) (wd : option string)
    (options1 options2 : PartialOptions) :
  at_least_as_strict (spread (defaultOptions this1) options1)
                     (spread (defaultOptions this2) options2) →
  isValid (sanitizeCommand this1 command args wd options1) = true →
  isValid (sanitizeCommand this2 command args wd options2) = true.
Proof. rewrite !isValid_sanitizeCommand. apply accepted_mono. Qed.

Lemma strict_at_least_as_strict_as_claude :
  at_least_as_strict
    (spread (defaultOptions createStrictSanitizer) no_overrides)
    (spread (defaultOptions createClaudeSanitizer) no_overrides).
Proof. unfold at_least_as_strict; simpl. repeat split; try done; lia. Qed.

Lemma stricter_options_accept_less_witness :
  isValid (sanitizeCommand createClaudeSanitizer "claude" ["--version"] None
             no_overrides) = true.
Proof.
  apply (stricter_options_accept_less createStrictSanitizer
           createClaudeSanitizer "claude" ["--version"] None
           no_overrides no_overrides).
  - unfold at_least_as_strict; simpl. repeat split; try done; lia.
  - vm_compute. reflexivity.
Defined.

Lemma existsb_submseteq {A} (p : A → bool) (l1 l2 : list A) :
  l1 ⊆+ l2 → existsb p l1 = true → existsb p l2 = true.
Proof.
  intros Hsub. rewrite !existsb_exists. intros (x & Hx & Hp).
  exists x. split; [|done].
  apply list_elem_of_In. eapply elem_of_submseteq; [|done].
  by apply list_elem_of_In.
Qed.

Lemma dangerous_submseteq command args args' wd :
  args' ⊆+ args → dangerous command args wd = false →
  dangerous command args' wd = false.
Proof.
  intros Hsub. unfold dangerous, Js.some.
  destruct (Js.list_includes _ _); [|done]. cbn [andb].
  intros [H1 H2]%orb_false_iff.
  destruct (existsb _ args') eqn:E; [|done].
  by rewrite (existsb_submseteq _ _ _ Hsub E) in H1.
Qed.

(** X3.  Validity does not depend on the order of the arguments and
    survives the removal of arguments: when [args'] is a sub-multiset of
    [args] (the same arguments in another order, or some of them), a
    command accepted with [args] is accepted with [args']. *)
Theorem fewer_arguments_stay_valid
    (this : ClaudeCommandSanitizer) (command : string)
    (args args' : list string) (wd : option string)
    (options : PartialOptions) :
  args' ⊆+ args →
  isValid (sanitizeCommand this command args wd options) = true →
  isValid (sanitizeCommand this command args' wd options) = true.
Proof.
  intros Hsub. rewrite !isValid_sanitizeCommand, !accepted_spec.
  intros (Hc & Hn & Ha & Hw & Hd).
  split; [done|]. split; [|split; [|split; [done|]]].
  - unfold count_ok in *. rewrite negb_true_iff, Z.gtb_ltb, Z.ltb_ge in *.
    apply submseteq_length in Hsub. lia.
  - intros arg Harg. apply Ha. by eapply elem_of_submseteq.
  - by eapply dangerous_submseteq.
Qed.

Lemma fewer_arguments_stay_valid_witness :
  isValid (sanitizeCommand createClaudeSanitizer "claude"
             ["hello"; "-p"] None no_overrides) = true.
Proof.
  apply (fewer_arguments_stay_valid createClaudeSanitizer "claude"
           ["--verbose"; "-p"; "hello"] ["hello"; "-p"] None no_overrides).
  - apply submseteq_cons. apply Permutation_submseteq, perm_swap.
  - vm_compute. reflexivity.
Defined.

(** ** What the result does not depend on *)

Lemma sanitizeCommand_same_policy this1 this2 command args wd options1 options2 :
  same_policy (spread (defaultOptions this1) options1)
              (spread (defaultOptions this2) options2) →
  sanitizeCommand this1 command args wd options1
  = sanitizeCommand this2 command args wd options2.
Proof.
  unfold sanitizeCommand.
  generalize (spread (defaultOptions this1) options1)
             (spread (defaultOptions this2) options2).
  intros [fs1 net1 env1 sh1 cl1 al1 ac1 allowed1 blocked1]
         [fs2 net2 env2 sh2 cl2 al2 ac2 allowed2 blocked2].
  unfold same_policy. cbn [allowFileSystemAccess allowNetworkAccess
    allowEnvironmentVariables allowShellMetacharacters maxCommandLength
    maxArgumentLength maxArgumentCount customBlockedPatterns].
  intros (-> & -> & -> & -> & -> & -> & -> & ->).
  reflexivity.
Qed.

(** X4.  [customAllowedPatterns] has no effect: two calls of
    [sanitizeCommand] whose merged options differ at most in
    [customAllowedPatterns] return the same result object, violations
    and warnings included. *)
Theorem allowed_patterns_are_ignored
    (this1 this2 : ClaudeCommandSanitizer) (command : string)
    (args : list string) (wd : option string)
    (options1 options2 : PartialOptions) :
  same_policy (spread (defaultOptions this1) options1)
              (spread (defaultOptions this2) options2) →
  sanitizeCommand this1 command args wd options1
  = sanitizeCommand this2 command args wd options2.
Proof. apply sanitizeCommand_same_policy. Qed.

Lemma allowed_patterns_are_ignored_witness :
  let everything := mkRegExp ".*" (λ _, true) in
  let allowing :=
    mkPartial None None None None None None None (Some [everything]) None in
  sanitizeCommand createStrictSanitizer "rm" ["-rf"; "$HOME"] None allowing
  = sanitizeCommand createStrictSanitizer "rm" ["-rf"; "$HOME"] None no_overrides.
Proof.
  intros everything allowing.
  apply (allowed_patterns_are_ignored createStrictSanitizer
           createStrictSanitizer "rm" ["-rf"; "$HOME"] None
           allowing no_overrides).
  unfold same_policy; simpl. repeat split; reflexivity.
Defined.

(** X5.  [sanitizeClaudeCommand] overrides every option except the
    pattern lists, so the profile of the sanitizer it is called on does
    not matter: two sanitizers with the same [customBlockedPatterns]
    return the same result.  The strict sanitizer is, through this entry
    point, no stricter than the Claude sanitizer. *)
Theorem claude_entry_point_ignores_profile
    (this1 this2 : ClaudeCommandSanitizer) (command : string)
    (args : list string) (wd : option string) :
  customBlockedPatterns (defaultOptions this1)
  = customBlockedPatterns (defaultOptions this2) →
  sanitizeClaudeCommand this1 command args wd
  = sanitizeClaudeCommand this2 command args wd.
Proof.
  intros H. unfold sanitizeClaudeCommand. apply sanitizeCommand_same_policy.
  unfold same_policy; simpl. repeat split; try reflexivity. exact H.
Qed.

Lemma claude_entry_point_ignores_profile_witness :
  sanitizeClaudeCommand createStrictSanitizer "claude"
    ["-p"; "see https://example.org"] (Some "/tmp")
  = sanitizeClaudeCommand createClaudeSanitizer "claude"
      ["-p"; "see https://example.org"] (Some "/tmp").
Proof.
  apply (claude_entry_point_ignores_profile createStrictSanitizer
           createClaudeSanitizer "claude"
           ["-p"; "see https://example.org"] (Some "/tmp")).
  reflexivity.
Defined.

(** ** What the validators leave alone *)

Ltac push_step H :=
  repeat first
    [ apply preserves_when
    | apply preserves_for_from; intros ? ?; cbv beta
    | intros ? ?; apply (push_stable_violation _ H); assumption
    | intros ? ?; apply (push_stable_warning _ H); assumption
    | progress (intros; cbv beta) ].

Section Pushes.
Variable P : SanitizationResult → Prop.
Hypothesis HP : push_stable P.

Lemma pushes_validateCommandName command options :
  preserves P (validateCommandName command options).
Proof.
  intros r Hr. unfold validateCommandName, for_each.
  apply preserves_for_from; [push_step HP|].
  apply preserves_when; [push_step HP|].
  apply preserves_when; [push_step HP|done].
Qed.

Lemma pushes_validateArgumentCount args options :
  preserves P (validateArgumentCount args options).
Proof. unfold validateArgumentCount. push_step HP. Qed.

Lemma pushes_validateArguments args options :
  preserves P (validateArguments args options).
Proof.
  unfold validateArguments, for_index. apply preserves_for_from.
  intros i arg r Hr. unfold validateArgument.
  do 6 (apply preserves_when; [push_step HP|]). done.
Qed.

Lemma pushes_validateWorkingDirectory wd options :
  preserves P (validateWorkingDirectory wd options).
Proof.
  intros r Hr. unfold validateWorkingDirectory.
  destruct wd as [wd|]; [|done].
  destruct (negb (Js.truthy wd)); [done|].
  destruct (negb (allowFileSystemAccess options)).
  - by apply (push_stable_violation _ HP).
  - do 2 (apply preserves_when; [push_step HP|]). done.
Qed.

Lemma pushes_performClaudeSpecificValidations command args wd :
  preserves P (performClaudeSpecificValidations command args wd).
Proof.
  intros r Hr.
  unfold performClaudeSpecificValidations, validatePromptSafety,
    validateApiKeySafety, for_index.
  apply preserves_for_from.
  { intros j arg r' Hr'. unfold validatePromptArgument, for_each.
    apply preserves_when; [push_step HP|].
    apply preserves_for_from; [push_step HP|done]. }
  apply preserves_for_from.
  { intros j arg r' Hr'. unfold validateApiKeyArgument.
    do 3 (apply preserves_when; [push_step HP|]). done. }
  unfold validateDangerousOperations.
  assert (P (when (String.eqb command "claude")
               (validateClaudeArguments args) r)) as Hr'.
  { revert r Hr. apply preserves_when. intros r Hr.
    unfold validateClaudeArguments, for_each.
    do 2 (apply preserves_for_from; [push_step HP|]). done. }
  destruct (Js.list_includes _ _); [|done].
  apply preserves_when; [push_step HP|done].
Qed.
End Pushes.

Lemma echoes_push_stable c a w : push_stable (echoes c a w).
Proof. by split. Qed.

Lemma sanitizeCommand_echoes this command args wd options :
  echoes (Some (if Nat.eqb (Js.length (Js.trim command)) 0 then command
                else Js.trim command))
         (Some args) wd
         (sanitizeCommand this command args wd options).
Proof.
  unfold sanitizeCommand.
  set (c := Some (if Nat.eqb (Js.length (Js.trim command)) 0 then command
                  else Js.trim command)).
  pose proof (echoes_push_stable c (Some args) wd) as HP.
  apply pushes_performClaudeSpecificValidations,
    pushes_validateWorkingDirectory, pushes_validateArguments,
    pushes_validateArgumentCount, pushes_validateCommandName; try done.
  unfold validateCommandLength, c.
  destruct (Nat.eqb _ _); [done|].
  unfold when. by destruct (_ >? _).
Qed.

(** X6.  The sanitizer rejects, it does not rewrite: in every result
    [sanitizedArgs] is the argument list and
    [sanitizedWorkingDirectory] the working directory that were passed
    in, and [sanitizedCommand] is the command with the white space
    around it removed (the command itself when nothing else is left). *)
Theorem sanitized_fields_echo_the_input
    (this : ClaudeCommandSanitizer) (command : string) (args : list string)
    (wd : option string) (options : PartialOptions) :
  let r := sanitizeCommand this command args wd options in
  sanitizedCommand r
  = Some (if Nat.eqb (Js.length (Js.trim command)) 0 then command
          else Js.trim command)
  ∧ sanitizedArgs r = Some args
  ∧ sanitizedWorkingDirectory r = wd.
Proof. intros r. exact (sanitizeCommand_echoes this command args wd options). Qed.

Lemma when_true f r : when true f r = f r.
Proof. done. Qed.

(** X7.  An empty command is rejected whatever the options are: when
    nothing is left of the command after trimming, the verdict is
    invalid and carries the violation "Empty command not allowed". *)
Theorem empty_command_rejected
    (this : ClaudeCommandSanitizer) (command : string) (args : list string)
    (wd : option string) (options : PartialOptions) :
  Js.trim command = "" →
  let r := sanitizeCommand this command args wd options in
  isValid r = false ∧ "Empty command not allowed" ∈ violations r.
Proof.
  intros Hempty r.
  assert (has_violation "Empty command not allowed" r) as H.
  { subst r. unfold sanitizeCommand.
    pose proof (has_violation_stable "Empty command not allowed") as HP.
    apply stable_performClaudeSpecificValidations,
      stable_validateWorkingDirectory, stable_validateArguments,
      stable_validateArgumentCount, stable_validateCommandName; try done.
    unfold validateCommandLength. rewrite Hempty. cbn [Js.length String.length Nat.eqb].
    apply has_violation_pushed. }
  split; [|exact H].
  eapply violation_invalidates; [apply sanitizeCommand_coherent|exact H].
Qed.

Lemma empty_command_rejected_witness :
  let r := sanitizeCommand createClaudeSanitizer "   " ["--version"] None
             no_overrides in
  isValid r = false ∧ "Empty command not allowed" ∈ violations r.
Proof.
  apply (empty_command_rejected createClaudeSanitizer "   " ["--version"]
           None no_overrides).
  reflexivity.
Defined.

Lemma traversal_argument_violation this command args wd options i arg :
  args !! i = Some arg → Js.includes arg ".." = true →
  has_violation ("Path traversal detected in argument " +:+ Js.idx i
                 +:+ ": " +:+ arg)
    (sanitizeCommand this command args wd options).
Proof.
  intros Hi Htrav. unfold sanitizeCommand.
  set (opts := spread (defaultOptions this) options).
  set (msg := "Path traversal detected in argument " +:+ Js.idx i
              +:+ ": " +:+ arg).
  pose proof (has_violation_stable msg) as HP.
  apply stable_performClaudeSpecificValidations,
    stable_validateWorkingDirectory; try done.
  unfold validateArguments.
  apply (for_index_establishes _ args _ i arg Hi).
  - intros. by apply stable_validateArgument.
  - intros r. unfold validateArgument.
    do 2 (apply preserves_when; [stable_step HP|]).
    rewrite Htrav, when_true. apply has_violation_pushed.
Qed.

(** X8.  Path traversal is rejected under every option set.  When the
    trimmed command, some argument or the working directory contains
    [..], the verdict is invalid; and for each argument that contains
    [..] the violation list names its position and quotes it. *)
Theorem path_traversal_rejected
    (this : ClaudeCommandSanitizer) (command : string) (args : list string)
    (wd : option string) (options : PartialOptions) :
  Js.includes (Js.trim command) ".." = true
  ∨ (∃ arg, arg ∈ args ∧ Js.includes arg ".." = true)
  ∨ (∃ d, wd = Some d ∧ Js.includes d ".." = true) →
  let r := sanitizeCommand this command args wd options in
  isValid r = false
  ∧ (∀ i arg, args !! i = Some arg → Js.includes arg ".." = true →
       ("Path traversal detected in argument " +:+ Js.idx i +:+ ": " +:+ arg)
       ∈ violations r).
Proof.
  intros H r. split.
  - apply not_true_is_false. subst r.
    rewrite isValid_sanitizeCommand, accepted_spec.
    intros (Hc & Hn & Ha & Hw & Hd).
    destruct H as [H|[(arg & Hin & H)|(d & -> & H)]].
    + unfold command_ok in Hc. rewrite !andb_true_iff, !negb_true_iff in Hc.
      destruct Hc as ((_ & Hc) & _). congruence.
    + destruct (Ha arg Hin) as [Harg _]. unfold argument_ok in Harg.
      rewrite !andb_true_iff, !negb_true_iff in Harg.
      destruct Harg as (((_ & Harg) & _) & _). congruence.
    + unfold workingDirectory_ok in Hw.
      assert (Js.truthy d = true) as Ht by (by destruct d).
      rewrite Ht, H in Hw. cbn [negb orb] in Hw.
      by rewrite andb_false_r in Hw.
  - intros i arg Hi Htrav.
    by apply traversal_argument_violation.
Qed.

Lemma path_traversal_rejected_witness :
  let r := sanitizeCommand createClaudeSanitizer "claude"
             ["--file"; "../../etc/passwd"] None no_overrides in
  isValid r = false
  ∧ (∀ i arg, ["--file"; "../../etc/passwd"] !! i = Some arg →
       Js.includes arg ".." = true →
       ("Path traversal detected in argument " +:+ Js.idx i +:+ ": " +:+ arg)
       ∈ violations r).
Proof.
  apply (path_traversal_rejected createClaudeSanitizer "claude"
           ["--file"; "../../etc/passwd"] None no_overrides).
  right; left. exists "../../etc/passwd". split; [|reflexivity].
  right. left.
Defined.

(** X9.  An Anthropic API key on the command line is rejected under
    every option set: when the argument at position [i] contains
    [sk-ant-], the verdict is invalid and carries the violation
    "Argument i contains an exposed API key". *)
Theorem exposed_api_key_rejected
    (this : ClaudeCommandSanitizer) (command : string) (args : list string)
    (wd : option string) (options : PartialOptions) (i : nat) (arg : string) :
  args !! i = Some arg →
  Js.includes arg "sk-ant-" = true →
  let r := sanitizeCommand this command args wd options in
  isValid r = false
  ∧ ("Argument " +:+ Js.idx i +:+ " contains an exposed API key") ∈ violations r.
Proof.
  intros Hi Hkey r.
  set (msg := "Argument " +:+ Js.idx i +:+ " contains an exposed API key").
  assert (has_violation msg r) as H.
  { subst r. unfold sanitizeCommand, performClaudeSpecificValidations.
    pose proof (has_violation_stable msg) as HP.
    apply stable_validatePromptSafety; [done|].
    unfold validateApiKeySafety.
    apply (for_index_establishes _ args _ i arg Hi).
    - intros j y. unfold validateApiKeyArgument. intros r Hr.
      do 3 (apply preserves_when; [stable_step HP|]). done.
    - intros r. unfold validateApiKeyArgument.
      do 2 (apply preserves_when; [stable_step HP|]).
      rewrite Hkey. cbn [orb]. rewrite when_true. apply has_violation_pushed. }
  split; [|exact H].
  eapply violation_invalidates; [apply sanitizeCommand_coherent|exact H].
Qed.

Lemma exposed_api_key_rejected_witness :
  let r := sanitizeCommand createClaudeSanitizer "claude"
             ["--api-key"; "sk-ant-0123"] None no_overrides in
  isValid r = false
  ∧ ("Argument " +:+ Js.idx 1 +:+ " contains an exposed API key") ∈ violations r.
Proof.
  apply (exposed_api_key_rejected createClaudeSanitizer "claude"
           ["--api-key"; "sk-ant-0123"] None no_overrides 1 "sk-ant-0123");
    reflexivity.
Defined.

(** ** Character classes, character by character *)

Lemma matches_prefix_Fail s : Re.matches_prefix Re.Fail s = false.
Proof. induction s as [|c s IH]; [done|]. exact IH. Qed.

Lemma test_Set p s : Re.test (Re.Set_ p) s = existsb p (chars s).
Proof.
  induction s as [|c s IH]; [done|].
  cbn [Re.test Re.matches_prefix Re.nullable Re.deriv chars
       list_ascii_of_string existsb].
  fold (chars s). rewrite <- IH.
  destruct (p c); [by destruct s|]. by rewrite matches_prefix_Fail.
Qed.

Lemma includes_char set c :
  Js.includes set (String c "") = true ↔ c ∈ chars set.
Proof.
  induction set as [|a set IH].
  - split; [done|]. intros H. by apply elem_of_nil in H.
  - cbn [Js.includes Js.startsWith chars list_ascii_of_string].
    fold (chars set). rewrite elem_of_cons, <- IH.
    destruct (Ascii.eqb c a) eqn:E.
    + apply Ascii.eqb_eq in E as ->.
      destruct set; split; auto.
    + apply Ascii.eqb_neq in E. split; [auto|]. by intros [?|?].
Qed.

Lemma test_one_of_false set arg :
  Re.test (Re.one_of set) arg = false →
  ∀ c, c ∈ chars set → c ∉ chars arg.
Proof.
  unfold Re.one_of. rewrite test_Set. intros H c Hc Harg.
  assert (existsb (λ c0, Js.includes set (String c0 "")) (chars arg) = true)
    as H'; [|congruence].
  apply existsb_exists. exists c. split; [by apply list_elem_of_In|].
  by apply includes_char.
Qed.

Lemma test_Set_false p arg :
  Re.test (Re.Set_ p) arg = false → ∀ c, c ∈ chars arg → p c = false.
Proof.
  rewrite test_Set. intros H c Hc. apply not_true_is_false. intros Hp.
  assert (existsb p (chars arg) = true) as H'; [|congruence].
  apply existsb_exists. exists c. split; [by apply list_elem_of_In|done].
Qed.

End SanitizerMore.

(** * More properties of the output streamer *)

Module StreamerMore.
Import Streamer StreamerInv StreamerChecks StreamerFacts.

(** ** The buffer *)

Lemma last_chunks_all n l :
  Z.of_nat (List.length l) ≤ Z.max 0 n → last_chunks n l = l.
Proof.
  intros H. unfold last_chunks.
  destruct (decide (0 ≤ n)).
  - replace (Z.to_nat _) with 0%nat by lia. done.
  - assert (List.length l = 0%nat) as Hl by lia.
    destruct l; [by rewrite drop_nil|done].
Qed.

Lemma last_chunks_length n l :
  Z.of_nat (List.length (last_chunks n l)) ≤ Z.max 0 n.
Proof. unfold last_chunks. rewrite length_drop. lia. Qed.

Lemma last_chunks_snoc n l d :
  last_chunks n (last_chunks n l ++ [d]) = last_chunks n (l ++ [d]).
Proof.
  unfold last_chunks. rewrite !length_app, !length_drop. simpl.
  set (L := List.length l).
  destruct (decide (Z.of_nat L ≤ n)).
  { replace (Z.to_nat (Z.of_nat L - n)) with 0%nat by lia.
    rewrite drop_0, Nat.sub_0_r. done. }
  destruct (decide (n < 0)).
  { rewrite !drop_ge; [done| |];
      rewrite ?length_app, ?length_drop; simpl; lia. }
  destruct (decide (n = 0)) as [->|].
  { rewrite !drop_ge; [done| |];
      rewrite ?length_app, ?length_drop; simpl; lia. }
  rewrite !drop_app_le by (rewrite ?length_drop; lia).
  rewrite drop_drop. do 2 f_equal. lia.
Qed.

Lemma addToBuffer_lookup p d s b :
  buffers s !! p = Some b →
  buffers (addToBuffer p d s)
  = <[p := last_chunks (maxBufferSize s) (b ++ [d])]> (buffers s).
Proof.
  intros Hb. unfold addToBuffer, last_chunks. rewrite Hb. cbn [buffers set_buffers].
  f_equal. destruct (_ >? _) eqn:E; [done|].
  rewrite Z.gtb_ltb, Z.ltb_ge in E.
  replace (Z.to_nat _) with 0%nat by lia. done.
Qed.

Lemma addToBuffer_missing p d s :
  buffers s !! p = None → addToBuffer p d s = s.
Proof. intros Hb. unfold addToBuffer. by rewrite Hb. Qed.

Lemma addToBuffer_maxBufferSize p d s :
  maxBufferSize (addToBuffer p d s) = maxBufferSize s.
Proof. unfold addToBuffer. by destruct (buffers s !! p). Qed.

Lemma addToBuffer_bounded p d s : bounded s → bounded (addToBuffer p d s).
Proof.
  intros Hs. destruct (buffers s !! p) as [b|] eqn:Hb.
  - intros q b'. rewrite addToBuffer_maxBufferSize, (addToBuffer_lookup _ _ _ b Hb).
    destruct (decide (q = p)) as [->|Hne].
    + rewrite lookup_insert_eq. intros [= <-]. apply last_chunks_length.
    + rewrite lookup_insert_ne by done. apply Hs.
  - by rewrite addToBuffer_missing.
Qed.

Lemma emit_maxBufferSize name pl s s' :
  emit name pl s = Some s' →
  maxBufferSize s' = maxBufferSize s ∧ buffers s' = buffers s.
Proof. intros H. by apply emit_Some in H as ->. Qed.

Lemma emit_bounded name pl s s' : emit name pl s = Some s' → bounded s → bounded s'.
Proof.
  intros H Hs p b. destruct (emit_maxBufferSize _ _ _ _ H) as [-> ->]. apply Hs.
Qed.

Lemma insert_empty_bounded p s :
  bounded s → bounded (set_buffers (<[p := []]> (buffers s)) s).
Proof.
  intros Hs q b. cbn [buffers maxBufferSize set_buffers].
  destruct (decide (q = p)) as [->|Hne].
  - rewrite lookup_insert_eq. intros [= <-]. simpl. lia.
  - rewrite lookup_insert_ne by done. apply Hs.
Qed.

Lemma active_set_bounded p s : bounded s → bounded (active_set p s).
Proof. intros Hs. unfold active_set. by destruct (active_has p s). Qed.

Lemma stopStreaming_bounded p now s s' :
  stopStreaming p now s = Some s' → bounded s → bounded s'.
Proof.
  intros H Hs q b. destruct (stopStreaming_same _ _ _ _ H) as (-> & _ & -> & _).
  apply Hs.
Qed.

Lemma stop_all_bounded ids now s s' :
  stop_all ids now s = Some s' → bounded s → bounded s'.
Proof.
  revert s. induction ids as [|p ids IH]; intros s H Hs; simpl in H.
  - by injection H as <-.
  - apply bind_Some in H as (s1 & H1 & H).
    eapply IH; [done|]. by eapply stopStreaming_bounded.
Qed.

Lemma call_bounded c s s' : call c s = Some s' → bounded s → bounded s'.
Proof.
  destruct c as [p now|o|p msg now|p code now|p now|p|name h|name h|now];
    simpl; intros H Hs.
  - unfold startStreaming in H. destruct (active_has p s); [by injection H as <-|].
    eapply emit_bounded; [done|].
    by apply (insert_empty_bounded p (active_set p s)), active_set_bounded.
  - unfold streamOutput in H. destruct (negb _); [by injection H as <-|].
    apply bind_Some in H as (s1 & H1 & H).
    apply bind_Some in H as (s2 & H2 & H).
    apply bind_Some in H as (s3 & H3 & H).
    repeat (eapply emit_bounded; [done|]). by apply addToBuffer_bounded.
  - unfold streamError in H. destruct (negb _); [by injection H as <-|].
    apply bind_Some in H as (s1 & H1 & H).
    repeat (eapply emit_bounded; [done|]). by apply addToBuffer_bounded.
  - unfold streamProcessExit in H. destruct (negb _); [by injection H as <-|].
    apply bind_Some in H as (s1 & H1 & H).
    apply bind_Some in H as (s2 & H2 & H).
    eapply stopStreaming_bounded; [done|].
    by repeat (eapply emit_bounded; [done|]).
  - by eapply stopStreaming_bounded.
  - injection H as <-. by apply insert_empty_bounded.
  - by injection H as <-.
  - by injection H as <-.
  - unfold shutdown in H. apply bind_Some in H as (s1 & H1 & H).
    injection H as <-. intros q b.
    cbn [buffers removeAllListeners set_listeners set_buffers].
    by rewrite lookup_empty.
Qed.

Lemma stop_all_same ids now s s' :
  stop_all ids now s = Some s' →
  buffers s' = buffers s ∧ listeners s' = listeners s
  ∧ maxBufferSize s' = maxBufferSize s
  ∧ eventNamingPattern s' = eventNamingPattern s.
Proof.
  revert s. induction ids as [|p ids IH]; intros s H; simpl in H.
  - by injection H as <-.
  - apply bind_Some in H as (s1 & H1 & H).
    destruct (IH _ H) as (-> & -> & -> & ->).
    by eapply stopStreaming_same.
Qed.

Lemma call_maxBufferSize c s s' :
  call c s = Some s' → maxBufferSize s' = maxBufferSize s.
Proof.
  destruct c as [p now|o|p msg now|p code now|p now|p|name h|name h|now];
    simpl; intros H.
  - unfold startStreaming in H.
    destruct (active_has p s) eqn:E; [by injection H as <-|].
    apply emit_maxBufferSize in H as [-> _].
    unfold active_set. by rewrite E.
  - unfold streamOutput in H. destruct (negb _); [by injection H as <-|].
    apply bind_Some in H as (s1 & H1 & H).
    apply bind_Some in H as (s2 & H2 & H).
    apply bind_Some in H as (s3 & H3 & H).
    apply emit_maxBufferSize in H as [-> _].
    apply emit_maxBufferSize in H3 as [-> _].
    apply emit_maxBufferSize in H2 as [-> _].
    apply emit_maxBufferSize in H1 as [-> _].
    apply addToBuffer_maxBufferSize.
  - unfold streamError in H. destruct (negb _); [by injection H as <-|].
    apply bind_Some in H as (s1 & H1 & H).
    apply emit_maxBufferSize in H as [-> _].
    apply emit_maxBufferSize in H1 as [-> _].
    apply addToBuffer_maxBufferSize.
  - unfold streamProcessExit in H. destruct (negb _); [by injection H as <-|].
    apply bind_Some in H as (s1 & H1 & H).
    apply bind_Some in H as (s2 & H2 & H).
    apply stopStreaming_same in H as (_ & _ & -> & _).
    apply emit_maxBufferSize in H2 as [-> _].
    by apply emit_maxBufferSize in H1 as [-> _].
  - by apply stopStreaming_same in H as (_ & _ & -> & _).
  - by injection H as <-.
  - by injection H as <-.
  - by injection H as <-.
  - unfold shutdown in H. apply bind_Some in H as (s1 & H1 & H).
    injection H as <-. cbn [maxBufferSize removeAllListeners set_listeners set_buffers].
    by apply stop_all_same in H1 as (_ & _ & -> & _).
Qed.

Lemma run_bounded cs s s' :
  run cs s = Some s' → bounded s →
  bounded s' ∧ maxBufferSize s' = maxBufferSize s.
Proof.
  revert s. induction cs as [|c cs IH]; intros s H Hs; simpl in H.
  - by injection H as <-.
  - apply bind_Some in H as (s1 & H1 & H).
    destruct (IH s1 H) as [Hb Hm]; [by eapply call_bounded|].
    split; [done|]. rewrite Hm. by eapply call_maxBufferSize.
Qed.

(** X10.  The buffer of a process never holds more chunks than
    [maxBufferSize].  In every state that calls of the streamer's methods
    lead to from a new streamer, the buffer of every process has at most
    [maxBufferSize] chunks (none, when the configured size is negative),
    and [maxBufferSize] is the configured value, 1000 when the
    configuration gives none or zero. *)
Theorem buffer_never_exceeds_maxBufferSize
    (config : OutputStreamerConfig) (cs : list Call)
    (s : ClaudeOutputStreamer) (p : string) :
  run cs (new config) = Some s →
  Z.of_nat (List.length (getBuffer p s)) ≤ Z.max 0 (maxBufferSize s)
  ∧ maxBufferSize s = or_number (cfg_maxBufferSize config) 1000.
Proof.
  intros H. destruct (run_bounded _ _ _ H) as [Hb Hm].
  { intros q b. unfold new; simpl. by rewrite lookup_empty. }
  split; [|done]. unfold getBuffer.
  destruct (buffers s !! p) as [b|] eqn:E; simpl; [by eapply Hb|lia].
Qed.

Lemma buffer_never_exceeds_maxBufferSize_witness :
  let chunk d := {| processId := "p"; type := stdout; data := d;
                    timestamp := 1; exitCode := None |} in
  let s := default (new (mkConfig (Some 2) None))
             (run [StartStreaming "p" 0; StreamOutput (chunk "a");
                   StreamOutput (chunk "b"); StreamOutput (chunk "c")]
                  (new (mkConfig (Some 2) None))) in
  Z.of_nat (List.length (getBuffer "p" s)) ≤ Z.max 0 (maxBufferSize s)
  ∧ maxBufferSize s = or_number (cfg_maxBufferSize (mkConfig (Some 2) None)) 1000.
Proof.
  intros chunk s.
  apply (buffer_never_exceeds_maxBufferSize (mkConfig (Some 2) None)
           [StartStreaming "p" 0; StreamOutput (chunk "a");
            StreamOutput (chunk "b"); StreamOutput (chunk "c")] s "p").
  vm_compute. reflexivity.
Defined.

Lemma last_chunks_app n l l' :
  last_chunks n (last_chunks n l ++ l') = last_chunks n (l ++ l').
Proof.
  revert l. induction l' as [|x l' IH]; intros l.
  - rewrite !app_nil_r. apply last_chunks_all, last_chunks_length.
  - rewrite !(cons_middle x), !app_assoc.
    by rewrite <- IH, last_chunks_snoc, IH.
Qed.

Lemma getFullOutput_getBuffer p s :
  getFullOutput p s = Js.join "" (getBuffer p s).
Proof. unfold getFullOutput, getBuffer. by destruct (buffers s !! p). Qed.

(** X11.  When the buffer is full the oldest chunks go.  After the
    chunks [os] of process [p] were streamed on an open stream whose
    buffer was [b], the buffer holds the last [maxBufferSize] chunks of
    [b] followed by [os], in arrival order, and [getFullOutput] is
    their concatenation. *)
Theorem buffer_keeps_the_latest_chunks
    (s : ClaudeOutputStreamer) (p : string) (b : list string)
    (os : list ClaudeOutput) :
  p ∈ getActiveStreams s →
  buffers s !! p = Some b →
  Z.of_nat (List.length b) ≤ Z.max 0 (maxBufferSize s) →
  Forall (λ o, is_chunk o ∧ processId o = p) os →
  ∃ s',
    run (map StreamOutput os) s = Some s'
    ∧ getBuffer p s' = last_chunks (maxBufferSize s) (b ++ map data os)
    ∧ getFullOutput p s'
      = Js.join "" (last_chunks (maxBufferSize s) (b ++ map data os)).
Proof.
  intros Hp Hb Hlen Hos.
  cut (∃ s', run (map StreamOutput os) s = Some s'
             ∧ getBuffer p s' = last_chunks (maxBufferSize s) (b ++ map data os)).
  { intros (s' & Hrun & Hbuf). exists s'. split; [done|]. split; [done|].
    by rewrite getFullOutput_getBuffer, Hbuf. }
  revert s b Hp Hb Hlen.
  induction os as [|o os IH]; intros s b Hp Hb Hlen.
  - exists s. split; [done|]. unfold getBuffer. rewrite Hb, app_nil_r. simpl.
    symmetry. by apply last_chunks_all.
  - apply Forall_cons in Hos as [[Ho Hid] Hos].
    destruct (streamOutput_buffers o s Ho) as (s1 & H1 & Hb1 & Ha1 & Hm1).
    { by rewrite Hid. }
    rewrite Hid, (addToBuffer_lookup _ _ _ b Hb) in Hb1.
    destruct (IH Hos s1 (last_chunks (maxBufferSize s) (b ++ [data o])))
      as (s' & Hrun & Hbuf).
    + unfold getActiveStreams. by rewrite Ha1.
    + by rewrite Hb1, lookup_insert_eq.
    + rewrite Hm1. apply last_chunks_length.
    + exists s'. split.
      * simpl. rewrite H1. exact Hrun.
      * rewrite Hbuf, Hm1, last_chunks_app.
        by rewrite <- app_assoc.
Qed.

Lemma buffer_keeps_the_latest_chunks_witness :
  let chunk d := {| processId := "p"; type := stdout; data := d;
                    timestamp := 1; exitCode := None |} in
  let s := default (new (mkConfig (Some 2) None))
             (run [StartStreaming "p" 0] (new (mkConfig (Some 2) None))) in
  ∃ s',
    run (map StreamOutput [chunk "a"; chunk "b"; chunk "c"]) s = Some s'
    ∧ getBuffer "p" s' = ["b"; "c"]
    ∧ getFullOutput "p" s' = "bc".
Proof.
  intros chunk s.
  apply (buffer_keeps_the_latest_chunks s "p" []
           [chunk "a"; chunk "b"; chunk "c"]).
  - vm_compute. left.
  - vm_compute. reflexivity.
  - vm_compute. discriminate.
  - repeat constructor.
Defined.

(** ** Opening and closing *)

(** X12.  [startStreaming] does nothing on an open stream: buffer and
    listeners stay and no notification is sent.  On a closed stream it
    opens the stream, replaces the buffer of the process by an empty
    one, so that output kept from an earlier stream of the same id is
    gone, leaves the buffers of the other processes alone, and notifies
    the [stream-started] listeners. *)
Theorem startStreaming_resets_a_closed_stream_only
    (s : ClaudeOutputStreamer) (p : string) (now : Z) :
  ∃ s',
    startStreaming p now s = Some s'
    ∧ (p ∈ getActiveStreams s → s' = s)
    ∧ (p ∉ getActiveStreams s →
         isStreaming p s' = true
         ∧ getBuffer p s' = []
         ∧ getFullOutput p s' = ""
         ∧ (∀ q, q ≠ p → getBuffer q s' = getBuffer q s)
         ∧ delivered s'
           = delivered s ++ deliveries ["stream-started"] (Lifecycle p now) s).
Proof.
  unfold startStreaming, getActiveStreams.
  destruct (active_has p s) eqn:E.
  - exists s. split; [done|]. split; [done|].
    intros Hn. by apply active_has_spec in E.
  - rewrite emit_not_error by done. eexists. split; [done|].
    split; [intros Hp; apply active_has_spec in Hp; congruence|].
    intros _. unfold active_set. rewrite E.
    split; [|split; [|split; [|split]]].
    + apply isStreaming_spec. simpl. apply elem_of_app. right. by left.
    + unfold getBuffer; simpl. by rewrite lookup_insert_eq.
    + unfold getFullOutput; simpl. by rewrite lookup_insert_eq.
    + intros q Hq. unfold getBuffer; simpl. by rewrite lookup_insert_ne.
    + unfold deliveries, handlers_of; simpl. by rewrite app_nil_r.
Qed.

Lemma stopStreaming_active p now s s' q :
  stopStreaming p now s = Some s' →
  q ∈ activeStreams s' ↔ q ∈ activeStreams s ∧ q ≠ p.
Proof.
  intros H. destruct (decide (p ∈ activeStreams s)) as [Hp|Hp].
  - rewrite stopStreaming_open in H by done. injection H as <-.
    unfold active_delete; simpl. by rewrite list_elem_of_filter, (comm and).
  - rewrite stopStreaming_closed in H by done. injection H as <-.
    split; [|by intros []]. intros Hq. split; [done|]. by intros ->.
Qed.

Lemma stop_all_active ids now s s' q :
  stop_all ids now s = Some s' →
  q ∈ activeStreams s' ↔ q ∈ activeStreams s ∧ q ∉ ids.
Proof.
  revert s. induction ids as [|p ids IH]; intros s H; simpl in H.
  - injection H as <-. split; [|by intros []]. intros Hq. split; [done|].
    apply not_elem_of_nil.
  - apply bind_Some in H as (s1 & H1 & H).
    rewrite (IH _ H), (stopStreaming_active _ _ _ _ _ H1), not_elem_of_cons.
    split; [intros [[? ?] ?]|intros [? [? ?]]]; done.
Qed.

Lemma stop_all_total ids now s : is_Some (stop_all ids now s).
Proof.
  revert s. induction ids as [|p ids IH]; intros s; simpl; [done|].
  destruct (stopStreaming_total p now s) as [s1 ->]. apply IH.
Qed.

Lemma shutdown_total now s : is_Some (shutdown now s).
Proof.
  unfold shutdown. by destruct (stop_all_total (activeStreams s) now s) as [s1 ->].
Qed.

Lemma shutdown_leaves_an_empty_streamer_aux s now :
  ∃ s', shutdown now s = Some s' ∧ getActiveStreams s' = [].
Proof.
  unfold shutdown.
  destruct (stop_all_total (activeStreams s) now s) as [s1 H1]. rewrite H1.
  eexists. split; [done|].
  destruct (activeStreams s1) as [|q l] eqn:E; [done|].
  assert (q ∈ activeStreams s1) as Hq by (rewrite E; by left).
  apply (stop_all_active _ _ _ _ _ H1) in Hq as [? ?]. done.
Qed.

(** X13.  [shutdown] always returns and leaves an empty streamer: no
    stream is open, every buffer is gone, so that [getFullOutput] is
    the empty string for every id, and no listener is registered. *)
Theorem shutdown_leaves_an_empty_streamer
    (s : ClaudeOutputStreamer) (now : Z) :
  ∃ s',
    shutdown now s = Some s'
    ∧ getActiveStreams s' = []
    ∧ (∀ p, isStreaming p s' = false
            ∧ getBuffer p s' = [] ∧ getFullOutput p s' = "")
    ∧ listeners s' = []
    ∧ (∀ name, handlers_of name s' = []).
Proof.
  unfold shutdown.
  destruct (stop_all_total (activeStreams s) now s) as [s1 H1]. rewrite H1.
  eexists. split; [done|].
  assert (activeStreams s1 = []) as Hnone.
  { destruct (activeStreams s1) as [|q l] eqn:E; [done|].
    assert (q ∈ activeStreams s1) as Hq by (rewrite E; by left).
    apply (stop_all_active _ _ _ _ _ H1) in Hq as [? ?]. done. }
  split; [done|]. split; [|done].
  intros p. split; [|split].
  - apply isStreaming_false. cbn. rewrite Hnone. apply not_elem_of_nil.
  - unfold getBuffer; simpl. by rewrite lookup_empty.
  - unfold getFullOutput; simpl. by rewrite lookup_empty.
Qed.

(** ** Errors and exits *)

Lemma emit_error_throws pl s :
  handlers_of "error" s = [] → emit "error" pl s = None.
Proof. intros H. unfold emit. rewrite H. done. Qed.

Lemma emit_error_handled pl s :
  handlers_of "error" s ≠ [] →
  emit "error" pl s
  = Some (set_delivered (delivered s ++ map (λ h, (h, pl)) (handlers_of "error" s)) s).
Proof.
  intros H. unfold emit. rewrite bool_decide_eq_false_2 by done. done.
Qed.

Lemma streamError_needs_an_error_listener_aux s p message now :
  (p ∉ activeStreams s → streamError p message now s = Some s)
  ∧ (p ∈ activeStreams s → handlers_of "error" s = [] →
       streamError p message now s = None).
Proof.
  unfold streamError. split.
  - intros Hp. apply isStreaming_false in Hp. unfold isStreaming in Hp.
    by rewrite Hp.
  - intros Hp Hnone. apply isStreaming_spec in Hp. unfold isStreaming in Hp.
    rewrite Hp. cbn [negb]. rewrite emit_error_throws; [done|].
    unfold handlers_of in *. by rewrite (proj2 (proj2 (addToBuffer_same _ _ _))).
Qed.

(** X14.  [streamError] needs a listener of the [error] event.  On an
    open stream without such a listener the emitter throws and the call
    does not return; with one, the call returns after the error event
    went to the [error] listeners and then to the listeners of the
    process, and the error text has joined the buffer of the process.
    On a closed stream the call does nothing. *)
Theorem streamError_needs_an_error_listener
    (s : ClaudeOutputStreamer) (p message : string) (now : Z) :
  (p ∉ getActiveStreams s → streamError p message now s = Some s)
  ∧ (p ∈ getActiveStreams s → handlers_of "error" s = [] →
       streamError p message now s = None)
  ∧ (p ∈ getActiveStreams s → handlers_of "error" s ≠ [] →
       ∃ s',
         streamError p message now s = Some s'
         ∧ delivered s'
           = delivered s
             ++ deliveries ["error"; formatProcessEvent s "error" p]
                  (Event (error_event p message now)) s
         ∧ buffers s' = buffers (addToBuffer p message s)
         ∧ isStreaming p s' = true).
Proof.
  unfold getActiveStreams, streamError.
  split; [|split].
  - intros Hp. apply isStreaming_false in Hp. unfold isStreaming in Hp.
    by rewrite Hp.
  - intros Hp Hnone. apply isStreaming_spec in Hp. unfold isStreaming in Hp.
    rewrite Hp. cbn [negb]. rewrite emit_error_throws; [done|].
    unfold handlers_of in *. by rewrite (proj2 (proj2 (addToBuffer_same _ _ _))).
  - intros Hp Hsome. pose proof Hp as Hp'.
    apply isStreaming_spec in Hp. unfold isStreaming in Hp.
    rewrite Hp. cbn [negb].
    destruct (addToBuffer_same p message s) as (Ha & Hd & Hl).
    rewrite emit_error_handled
      by (unfold handlers_of in *; by rewrite Hl).
    bind_step.
    rewrite emit_not_error
      by (apply formatProcessEvent_not_error; set_solver).
    eexists. split; [done|]. cbn [delivered set_delivered buffers].
    split; [|split; [done|]].
    + assert (eventNamingPattern (addToBuffer p message s)
              = eventNamingPattern s) as He
        by (unfold addToBuffer; by destruct (buffers s !! p)).
      unfold deliveries, handlers_of, formatProcessEvent, error_event; simpl.
      by rewrite Hd, Hl, He, app_nil_r, <- app_assoc.
    + apply isStreaming_spec. simpl. by rewrite Ha.
Qed.

(** X15.  The exit message is no output.  [streamProcessExit] always
    returns, and it leaves every buffer as it was: the text "Claude
    process exited with code n" goes to the listeners only, and
    [getFullOutput] is the same before and after for every id. *)
Theorem exit_message_is_not_buffered
    (s : ClaudeOutputStreamer) (p : string) (code now : Z) :
  ∃ s',
    streamProcessExit p code now s = Some s'
    ∧ buffers s' = buffers s
    ∧ (∀ q, getFullOutput q s' = getFullOutput q s)
    ∧ isStreaming p s' = false.
Proof.
  destruct (decide (p ∈ activeStreams s)) as [Hp|Hp].
  - rewrite streamProcessExit_open by done. eexists. split; [done|].
    split; [done|]. split; [done|].
    apply isStreaming_false. apply not_active_delete.
  - exists s. unfold streamProcessExit.
    pose proof Hp as Hp'. apply isStreaming_false in Hp'.
    unfold isStreaming in Hp'. rewrite Hp'. split; [done|].
    split; [done|]. split; [done|]. by apply isStreaming_false.
Qed.

(** ** Subscriptions *)

Lemma remove_first_head x l : remove_first x (x :: l) = l.
Proof. simpl. by rewrite decide_True. Qed.

Lemma elem_of_rev {A} (x : A) l : x ∈ rev l ↔ x ∈ l.
Proof. rewrite !list_elem_of_In. symmetry. apply in_rev. Qed.

Lemma remove_first_subset x l y : y ∈ remove_first x l → y ∈ l.
Proof.
  induction l as [|z l IH]; simpl; [done|].
  destruct (decide (x = z)) as [->|Hne].
  - intros Hin. by right.
  - intros [->|Hin]%elem_of_cons; [by left|right; auto].
Qed.

Lemma off_on name h s : off name h (on name h s) = s.
Proof.
  unfold off, on, set_listeners. destruct s as [a b m e l d].
  cbn [listeners activeStreams buffers maxBufferSize eventNamingPattern delivered].
  rewrite rev_app_distr. change (rev [(name, h)] ++ rev l) with ((name, h) :: rev l).
  by rewrite remove_first_head, rev_involutive.
Qed.

(** X16.  Subscribing and unsubscribing undo each other.  For each of
    the four pairs of convenience methods, registering a handler and
    then removing it leaves the streamer exactly as it was, whatever
    else is registered, the same handler under the same event
    included. *)
Theorem unsubscribe_undoes_subscribe
    (s : ClaudeOutputStreamer) (p : string) (h : Handler) :
  offOutput h (onOutput h s) = s
  ∧ offProcessOutput p h (onProcessOutput p h s) = s
  ∧ offProcessError p h (onProcessError p h s) = s
  ∧ offProcessExit p h (onProcessExit p h s) = s.
Proof.
  unfold offOutput, onOutput, offProcessOutput, onProcessOutput,
    offProcessError, onProcessError, offProcessExit, onProcessExit.
  repeat split;
    try (replace (formatProcessEvent (on _ h s)) with (formatProcessEvent s)
           by done);
    apply off_on.
Qed.

(** ** A listener of one process *)

Lemma hears_only_refl h p s : hears_only h p s s.
Proof.
  exists []. split; [by rewrite app_nil_r|]. intros pl H.
  by apply elem_of_nil in H.
Qed.

Lemma hears_only_same h p s s' :
  delivered s' = delivered s → hears_only h p s s'.
Proof.
  intros Hd. exists []. split; [by rewrite Hd, app_nil_r|]. intros pl H.
  by apply elem_of_nil in H.
Qed.

Lemma hears_only_trans h p s1 s2 s3 :
  hears_only h p s1 s2 → hears_only h p s2 s3 → hears_only h p s1 s3.
Proof.
  intros (e1 & H1 & A1) (e2 & H2 & A2). exists (e1 ++ e2). split.
  - by rewrite H2, H1, app_assoc.
  - intros pl [H|H]%elem_of_app; auto.
Qed.

Lemma only_output_of_same h p s s' :
  listeners s' = listeners s → eventNamingPattern s' = eventNamingPattern s →
  only_output_of h p s → only_output_of h p s'.
Proof.
  intros Hl He H name. unfold formatProcessEvent. rewrite Hl, He. apply H.
Qed.

Lemma emit_hears_only h p name pl s s' :
  only_output_of h p s →
  (name = formatProcessEvent s "output" p → about p pl) →
  emit name pl s = Some s' →
  hears_only h p s s' ∧ only_output_of h p s'.
Proof.
  intros Hh Hname H. apply emit_Some in H as ->. split.
  - eexists. split; [done|]. intros pl' Hin.
    apply list_elem_of_fmap in Hin as (h' & [= <- <-] & Hin).
    apply Hname, Hh. unfold handlers_of in Hin.
    apply list_elem_of_fmap in Hin as ([name' h''] & -> & Hin).
    apply list_elem_of_filter in Hin as [Hn Hin]. simpl in Hn. by subst.
  - by apply (only_output_of_same h p s).
Qed.

Lemma output_name_of_process s t q p :
  t ∈ ["output"; "stdout"; "stderr"; "exit"; "error"] →
  formatProcessEvent s t q = formatProcessEvent s "output" p →
  t = "output" ∧ q = p.
Proof.
  intros Ht. unfold formatProcessEvent.
  repeat (apply elem_of_cons in Ht as [->|Ht]);
    try (by apply elem_of_nil in Ht);
    destruct (eventNamingPattern s); intros H; try done;
    (split; [done|]); by do 2 apply String.app_inj in H.
Qed.

Lemma general_name_not_of_process s name p :
  name ∈ ["output"; "stdout"; "stderr"; "exit"; "error";
          "stream-started"; "stream-stopped"] →
  name ≠ formatProcessEvent s "output" p.
Proof.
  intros Ht. unfold formatProcessEvent.
  repeat (apply elem_of_cons in Ht as [->|Ht]);
    try (by apply elem_of_nil in Ht);
    by destruct (eventNamingPattern s).
Qed.

Lemma type_name_general t :
  type_name t ∈ ["output"; "stdout"; "stderr"; "exit"; "error"].
Proof. destruct t; [do 1 right|do 2 right|do 3 right|do 4 right]; left. Qed.

Lemma type_name_not_of_process s t p :
  type_name t ≠ formatProcessEvent s "output" p.
Proof. unfold formatProcessEvent. by destruct t, (eventNamingPattern s). Qed.

Lemma stopStreaming_hears_only h p q now s s' :
  only_output_of h p s → stopStreaming q now s = Some s' →
  hears_only h p s s' ∧ only_output_of h p s'.
Proof.
  intros Hh H. unfold stopStreaming in H.
  destruct (negb _).
  { injection H as <-. split; [apply hears_only_refl|done]. }
  destruct (emit_hears_only h p _ _ _ _
              (only_output_of_same h p s (active_delete q s) eq_refl eq_refl Hh)
              (λ E, False_rect _
                 (general_name_not_of_process _ "stream-stopped" p
                    ltac:(set_solver) E)) H) as [(e & He & Ha) Ho].
  split; [|done]. exists e. by split.
Qed.

Lemma stop_all_hears_only h p ids now s s' :
  only_output_of h p s → stop_all ids now s = Some s' →
  hears_only h p s s' ∧ only_output_of h p s'.
Proof.
  revert s. induction ids as [|q ids IH]; intros s Hh H; simpl in H.
  { injection H as <-. split; [apply hears_only_refl|done]. }
  apply bind_Some in H as (s1 & H1 & H).
  destruct (stopStreaming_hears_only h p q now s s1 Hh H1) as [A1 O1].
  destruct (IH s1 O1 H) as [A2 O2].
  split; [by eapply hears_only_trans|done].
Qed.

Lemma addToBuffer_hears_only h p q d s :
  only_output_of h p s →
  hears_only h p s (addToBuffer q d s) ∧ only_output_of h p (addToBuffer q d s).
Proof.
  intros Hh. destruct (addToBuffer_same q d s) as (_ & Hd & Hl). split.
  - exists []. split; [by rewrite Hd, app_nil_r|].
    intros pl H. by apply elem_of_nil in H.
  - apply (only_output_of_same h p s); [done| |done].
    unfold addToBuffer. by destruct (buffers s !! q).
Qed.

Lemma call_hears_only h p c s s' :
  only_output_of h p s → ¬ registers h c → call c s = Some s' →
  hears_only h p s s' ∧ only_output_of h p s'.
Proof.
  intros Hh Hc H.
  destruct c as [q now|o|q msg now|q code now|q now|q|name h'|name h'|now];
    simpl in H, Hc.
  - unfold startStreaming in H. destruct (active_has q s) eqn:E.
    { injection H as <-. split; [apply hears_only_refl|done]. }
    eapply (emit_hears_only h p) in H as [(e & He & Ha) Ho].
    + split; [|exact Ho]. exists e. split; [|done].
      rewrite He. unfold active_set. by rewrite E.
    + apply (only_output_of_same h p s); [| |exact Hh];
        unfold active_set; by rewrite E.
    + intros E'. by apply general_name_not_of_process in E'; [|set_solver].
  - unfold streamOutput in H. destruct (negb _).
    { injection H as <-. split; [apply hears_only_refl|done]. }
    destruct (addToBuffer_hears_only h p (processId o) (data o) s Hh) as [A0 O0].
    apply bind_Some in H as (s1 & H1 & H).
    apply bind_Some in H as (s2 & H2 & H).
    apply bind_Some in H as (s3 & H3 & H).
    eapply (emit_hears_only h p) in H1 as [A1 O1]; [|exact O0|].
    2:{ intros E'. by apply general_name_not_of_process in E'; [|set_solver]. }
    eapply (emit_hears_only h p) in H2 as [A2 O2]; [|exact O1|].
    2:{ intros E'. apply output_name_of_process in E' as [_ E']; [|set_solver].
        eexists. split; [done|]. exact E'. }
    eapply (emit_hears_only h p) in H3 as [A3 O3]; [|exact O2|].
    2:{ intros E'. by apply type_name_not_of_process in E'. }
    eapply (emit_hears_only h p) in H as [A4 O4]; [|exact O3|].
    2:{ intros E'.
        apply output_name_of_process in E' as [_ E'];
          [|apply type_name_general].
        eexists. split; [done|]. exact E'. }
    split; [|done].
    eapply hears_only_trans; [exact A0|].
    eapply hears_only_trans; [exact A1|].
    eapply hears_only_trans; [exact A2|].
    eapply hears_only_trans; [exact A3|exact A4].
  - unfold streamError in H. destruct (negb _).
    { injection H as <-. split; [apply hears_only_refl|done]. }
    destruct (addToBuffer_hears_only h p q msg s Hh) as [A0 O0].
    apply bind_Some in H as (s1 & H1 & H).
    eapply (emit_hears_only h p) in H1 as [A1 O1]; [|exact O0|].
    2:{ intros E'. by apply general_name_not_of_process in E'; [|set_solver]. }
    eapply (emit_hears_only h p) in H as [A2 O2]; [|exact O1|].
    2:{ intros E'. by apply output_name_of_process in E' as [E' _];
          [|set_solver]. }
    split; [|done].
    eapply hears_only_trans; [exact A0|].
    eapply hears_only_trans; [exact A1|exact A2].
  - unfold streamProcessExit in H. destruct (negb _).
    { injection H as <-. split; [apply hears_only_refl|done]. }
    apply bind_Some in H as (s1 & H1 & H).
    apply bind_Some in H as (s2 & H2 & H).
    eapply (emit_hears_only h p) in H1 as [A1 O1]; [|exact Hh|].
    2:{ intros E'. by apply general_name_not_of_process in E'; [|set_solver]. }
    eapply (emit_hears_only h p) in H2 as [A2 O2]; [|exact O1|].
    2:{ intros E'. by apply output_name_of_process in E' as [E' _];
          [|set_solver]. }
    destruct (stopStreaming_hears_only h p q now s2 s' O2 H) as [A3 O3].
    split; [|done].
    eapply hears_only_trans; [exact A1|].
    eapply hears_only_trans; [exact A2|exact A3].
  - by apply (stopStreaming_hears_only h p q now).
  - injection H as <-. split; [by apply hears_only_same|done].
  - injection H as <-. split; [by apply hears_only_same|].
    intros name0 Hin. unfold on in Hin; simpl in Hin.
    apply elem_of_app in Hin as [Hin|Hin]; [by apply Hh|].
    apply list_elem_of_singleton in Hin. by injection Hin as -> ->.
  - injection H as <-. split; [by apply hears_only_same|].
    intros name0 Hin. apply Hh. unfold off in Hin; simpl in Hin.
    apply (proj1 (elem_of_rev _ _)) in Hin. apply remove_first_subset in Hin.
    by apply (proj1 (elem_of_rev _ _)) in Hin.
  - unfold shutdown in H. apply bind_Some in H as (s1 & H1 & H).
    injection H as <-.
    destruct (stop_all_hears_only h p _ now s s1 Hh H1) as [A1 O1].
    split; [exact A1|]. intros name Hin. simpl in Hin.
    by apply elem_of_nil in Hin.
Qed.

Lemma run_hears_only h p cs s s' :
  only_output_of h p s → Forall (λ c, ¬ registers h c) cs →
  run cs s = Some s' →
  hears_only h p s s' ∧ only_output_of h p s'.
Proof.
  revert s. induction cs as [|c cs IH]; intros s Hh Hcs H; simpl in H.
  { injection H as <-. split; [apply hears_only_refl|done]. }
  apply Forall_cons in Hcs as [Hc Hcs].
  apply bind_Some in H as (s1 & H1 & H).
  destruct (call_hears_only h p c s s1 Hh Hc H1) as [A1 O1].
  destruct (IH s1 O1 Hcs H) as [A2 O2].
  split; [by eapply hears_only_trans|done].
Qed.

(** X17.  A listener of one process hears that process only.  Take a
    handler that is registered under the output event of process [p]
    and under no other name, as [onProcessOutput] registers it.
    Whatever calls of the streamer's methods follow, as long as none
    registers the handler again, everything the handler receives is a
    stream event of [p]: no event of another process and no life-cycle
    notification reaches it. *)
Theorem process_listener_hears_its_process_only
    (s : ClaudeOutputStreamer) (h : Handler) (p : string)
    (cs : list Call) (s' : ClaudeOutputStreamer) :
  only_output_of h p s →
  Forall (λ c, ¬ registers h c) cs →
  run cs s = Some s' →
  ∃ extra,
    delivered s' = delivered s ++ extra
    ∧ ∀ pl, (h, pl) ∈ extra → ∃ e, pl = Event e ∧ processId e = p.
Proof.
  intros Hh Hcs H. by destruct (run_hears_only h p cs s s' Hh Hcs H) as [A _].
Qed.

Lemma process_listener_hears_its_process_only_witness :
  let chunk p d := {| processId := p; type := stdout; data := d;
                      timestamp := 1; exitCode := None |} in
  let s := default (new (mkConfig None None))
             (run [StartStreaming "p" 0; StartStreaming "q" 0;
                   On "output:p" 7%nat; On "output:q" 8%nat;
                   On "stream-stopped" 9%nat]
                  (new (mkConfig None None))) in
  let cs := [StreamOutput (chunk "q" "other"); StreamOutput (chunk "p" "mine");
             StreamProcessExit "q" 0 2; StreamProcessExit "p" 0 3] in
  let s' := default s (run cs s) in
  ∃ extra,
    delivered s' = delivered s ++ extra
    ∧ ∀ pl, (7%nat, pl) ∈ extra → ∃ e, pl = Event e ∧ processId e = "p".
Proof.
  intros chunk s cs s'.
  apply (process_listener_hears_its_process_only s 7%nat "p" cs s').
  - intros name Hin. vm_compute in Hin.
    repeat (apply elem_of_cons in Hin as [Hin|Hin];
            [try discriminate Hin; by injection Hin as ->|]).
    by apply elem_of_nil in Hin.
  - repeat constructor; by intros ?.
  - vm_compute. reflexivity.
Defined.

(** ** Streamers without a listener for errors *)

Lemma deaf_handlers s : deaf s ↔ handlers_of "error" s = [].
Proof.
  unfold deaf, handlers_of. split.
  - intros H. destruct (filter _ (listeners s)) as [|[name h] l] eqn:E; [done|].
    assert ((name, h) ∈ filter (λ l, l.1 = "error") (listeners s)) as Hin
      by (rewrite E; by left).
    apply list_elem_of_filter in Hin as [Hn Hin]. simpl in Hn. subst.
    by apply H in Hin.
  - intros H h Hin.
    assert (h ∈ map snd (filter (λ l, l.1 = "error") (listeners s))) as Hh.
    { apply list_elem_of_fmap. exists ("error", h). split; [done|].
      by apply list_elem_of_filter. }
    rewrite H in Hh. by apply elem_of_nil in Hh.
Qed.

Lemma no_new_listener_deaf s s' : no_new_listener s s' → deaf s → deaf s'.
Proof. intros Hn Hd h Hin. by apply (Hd h), Hn. Qed.

Lemma no_new_listener_refl s : no_new_listener s s.
Proof. by intros x. Qed.

Lemma no_new_listener_same s s' :
  listeners s' = listeners s → no_new_listener s s'.
Proof. intros E x. by rewrite E. Qed.

Lemma no_new_listener_trans s1 s2 s3 :
  no_new_listener s1 s2 → no_new_listener s2 s3 → no_new_listener s1 s3.
Proof. intros H1 H2 x Hx. by apply H1, H2. Qed.

Lemma emit_listeners name pl s s' :
  emit name pl s = Some s' → listeners s' = listeners s.
Proof. intros H. by apply emit_Some in H as ->. Qed.

Lemma call_no_new_listener c s s' :
  call c s = Some s' → (∀ name h, c ≠ On name h) → no_new_listener s s'.
Proof.
  destruct c as [p now|o|p msg now|p code now|p now|p|name h|name h|now];
    simpl; intros H Hc.
  - unfold startStreaming in H. destruct (active_has p s) eqn:E;
      [injection H as <-; apply no_new_listener_refl|].
    apply no_new_listener_same. apply emit_listeners in H as ->.
    unfold active_set. by rewrite E.
  - unfold streamOutput in H. destruct (negb _); [injection H as <-; apply no_new_listener_refl|].
    apply bind_Some in H as (s1 & H1 & H).
    apply bind_Some in H as (s2 & H2 & H).
    apply bind_Some in H as (s3 & H3 & H).
    apply no_new_listener_same.
    apply emit_listeners in H as ->. apply emit_listeners in H3 as ->.
    apply emit_listeners in H2 as ->. apply emit_listeners in H1 as ->.
    apply addToBuffer_same.
  - unfold streamError in H. destruct (negb _); [injection H as <-; apply no_new_listener_refl|].
    apply bind_Some in H as (s1 & H1 & H).
    apply no_new_listener_same.
    apply emit_listeners in H as ->. apply emit_listeners in H1 as ->.
    apply addToBuffer_same.
  - unfold streamProcessExit in H. destruct (negb _); [injection H as <-; apply no_new_listener_refl|].
    apply bind_Some in H as (s1 & H1 & H).
    apply bind_Some in H as (s2 & H2 & H).
    apply no_new_listener_same.
    apply stopStreaming_same in H as (_ & -> & _).
    apply emit_listeners in H2 as ->. by apply emit_listeners in H1 as ->.
  - apply no_new_listener_same. by apply stopStreaming_same in H as (_ & -> & _).
  - injection H as <-. by apply no_new_listener_same.
  - by destruct (Hc name h).
  - injection H as <-. intros x Hx. unfold off in Hx; simpl in Hx.
    apply (proj1 (elem_of_rev _ _)) in Hx. apply remove_first_subset in Hx.
    by apply (proj1 (elem_of_rev _ _)) in Hx.
  - unfold shutdown in H. apply bind_Some in H as (s1 & H1 & H).
    injection H as <-. intros x Hx. simpl in Hx. by apply elem_of_nil in Hx.
Qed.

Lemma on_deaf name h s : name ≠ "error" → deaf s → deaf (on name h s).
Proof.
  intros Hne Hd h' Hin. unfold on in Hin; simpl in Hin.
  apply elem_of_app in Hin as [Hin|Hin]; [by apply (Hd h')|].
  apply list_elem_of_singleton in Hin. by injection Hin as <- _.
Qed.

End StreamerMore.

(** * The streamer under the calls of the manager *)

Module StreamerCallFacts.
Import Streamer StreamerInv StreamerChecks StreamerCalls StreamerFacts StreamerMore.

Lemma calls_app cs1 cs2 s : run (cs1 ++ cs2) s = run cs1 s ≫= run cs2.
Proof.
  revert s. induction cs1 as [|c cs1 IH]; intros s; [done|].
  cbn [app run]. destruct (call c s) as [s1|]; [|done]. apply IH.
Qed.

Lemma call_eventNamingPattern c s s' :
  call c s = Some s' → eventNamingPattern s' = eventNamingPattern s.
Proof.
  destruct c as [p now|o|p msg now|p code now|p now|p|name h|name h|now];
    simpl; intros H.
  - unfold startStreaming in H.
    destruct (active_has p s) eqn:E; [by injection H as <-|].
    apply emit_Some in H as ->. unfold active_set. by rewrite E.
  - unfold streamOutput in H. destruct (negb _); [by injection H as <-|].
    apply bind_Some in H as (s1 & H1 & H).
    apply bind_Some in H as (s2 & H2 & H).
    apply bind_Some in H as (s3 & H3 & H).
    apply emit_Some in H as ->. apply emit_Some in H3 as ->.
    apply emit_Some in H2 as ->. apply emit_Some in H1 as ->.
    unfold addToBuffer. simpl. by destruct (buffers s !! processId o).
  - unfold streamError in H. destruct (negb _); [by injection H as <-|].
    apply bind_Some in H as (s1 & H1 & H).
    apply emit_Some in H as ->. apply emit_Some in H1 as ->.
    unfold addToBuffer. simpl. by destruct (buffers s !! p).
  - unfold streamProcessExit in H. destruct (negb _); [by injection H as <-|].
    apply bind_Some in H as (s1 & H1 & H).
    apply bind_Some in H as (s2 & H2 & H).
    apply stopStreaming_same in H as (_ & _ & _ & ->).
    apply emit_Some in H2 as ->. by apply emit_Some in H1 as ->.
  - by apply stopStreaming_same in H as (_ & _ & _ & ->).
  - by injection H as <-.
  - by injection H as <-.
  - by injection H as <-.
  - unfold shutdown in H. apply bind_Some in H as (s1 & H1 & H).
    injection H as <-. simpl. by apply stop_all_same in H1 as (_ & _ & _ & ->).
Qed.

Lemma run_eventNamingPattern cs s s' :
  run cs s = Some s' → eventNamingPattern s' = eventNamingPattern s.
Proof.
  revert s. induction cs as [|c cs IH]; intros s H; simpl in H.
  { by injection H as <-. }
  apply bind_Some in H as (s1 & H1 & H).
  rewrite (IH _ H). by apply (call_eventNamingPattern c).
Qed.

Lemma made_for_same s0 s1 q c :
  eventNamingPattern s1 = eventNamingPattern s0 →
  made_for s0 q c → made_for s1 q c.
Proof. intros He. destruct c; simpl; unfold formatProcessEvent; by rewrite ?He. Qed.

(** ** A stream that the calls for another process leave alone *)

Lemma untouched_refl p s : untouched p s s.
Proof. by repeat split. Qed.

Lemma untouched_trans p s1 s2 s3 :
  untouched p s1 s2 → untouched p s2 s3 → untouched p s1 s3.
Proof.
  intros (A1 & B1 & C1) (A2 & B2 & C2).
  split; [auto|]. split; congruence.
Qed.

Lemma emit_untouched p name pl s s' : emit name pl s = Some s' → untouched p s s'.
Proof. intros H. apply emit_Some in H as ->. by repeat split. Qed.

Lemma addToBuffer_untouched p q d s : q ≠ p → untouched p s (addToBuffer q d s).
Proof.
  intros Hne. unfold addToBuffer.
  destruct (buffers s !! q); [|apply untouched_refl].
  split; [done|]. split; [|done]. simpl. by rewrite lookup_insert_ne.
Qed.

Lemma stopStreaming_untouched p q now s s' :
  q ≠ p → stopStreaming q now s = Some s' → untouched p s s'.
Proof.
  intros Hne H. split.
  - intros Hp. apply (stopStreaming_active _ _ _ _ _ H). split; [done|congruence].
  - by apply stopStreaming_same in H as (-> & _ & -> & _).
Qed.

Lemma call_untouched s0 p q c s s' :
  q ≠ p → made_for s0 q c → call c s = Some s' → untouched p s s'.
Proof.
  intros Hne Hc H.
  destruct c as [r now|o|r msg now|r code now|r now|r|name h|name h|now];
    simpl in Hc, H; try done; try subst r.
  - unfold startStreaming in H.
    destruct (active_has q s) eqn:E; [injection H as <-; apply untouched_refl|].
    apply emit_Some in H as ->. unfold active_set. rewrite E.
    split; [|split; [|done]]; simpl.
    + intros Hp. apply elem_of_app. by left.
    + by rewrite lookup_insert_ne.
  - destruct Hc as [<- _]. unfold streamOutput in H.
    destruct (negb _); [injection H as <-; apply untouched_refl|].
    apply bind_Some in H as (s1 & H1 & H).
    apply bind_Some in H as (s2 & H2 & H).
    apply bind_Some in H as (s3 & H3 & H).
    eapply untouched_trans; [by apply addToBuffer_untouched|].
    eapply untouched_trans; [by eapply emit_untouched|].
    eapply untouched_trans; [by eapply emit_untouched|].
    eapply untouched_trans; by eapply emit_untouched.
  - unfold streamError in H.
    destruct (negb _); [injection H as <-; apply untouched_refl|].
    apply bind_Some in H as (s1 & H1 & H).
    eapply untouched_trans; [by apply addToBuffer_untouched|].
    eapply untouched_trans; by eapply emit_untouched.
  - unfold streamProcessExit in H.
    destruct (negb _); [injection H as <-; apply untouched_refl|].
    apply bind_Some in H as (s1 & H1 & H).
    apply bind_Some in H as (s2 & H2 & H).
    eapply untouched_trans; [by eapply emit_untouched|].
    eapply untouched_trans; [by eapply emit_untouched|].
    by eapply stopStreaming_untouched.
  - by eapply stopStreaming_untouched.
  - injection H as <-. by repeat split.
  - injection H as <-. by repeat split.
Qed.

Lemma run_untouched s0 p cs s s' :
  Forall (λ c, ∃ q, q ≠ p ∧ made_for s0 q c) cs →
  run cs s = Some s' → untouched p s s'.
Proof.
  intros Hcs. revert s.
  induction Hcs as [|c cs (q & Hne & Hc) Hcs IH]; intros s H; simpl in H.
  { injection H as <-. apply untouched_refl. }
  apply bind_Some in H as (s1 & H1 & H).
  eapply untouched_trans; [by eapply call_untouched|by apply IH].
Qed.

(** A chunk of a process whose stream is open joins its buffer, which
    keeps the latest [maxBufferSize] chunks. *)
Lemma streamOutput_open o s b :
  is_chunk o → processId o ∈ activeStreams s →
  buffers s !! processId o = Some b →
  ∃ s', streamOutput o s = Some s'
        ∧ processId o ∈ activeStreams s'
        ∧ buffers s' !! processId o
          = Some (last_chunks (maxBufferSize s) (b ++ [data o]))
        ∧ maxBufferSize s' = maxBufferSize s.
Proof.
  intros Ho Hp Hb.
  destruct (streamOutput_buffers o s Ho Hp) as (s' & H & Hbuf & Hact & Hmax).
  exists s'. split; [done|]. split; [by rewrite Hact|]. split; [|done].
  by rewrite Hbuf, (addToBuffer_lookup _ _ _ b Hb), lookup_insert_eq.
Qed.

(** ** Calls that open no stream *)

Lemma closes_only_refl s : closes_only s s.
Proof. by intros ??. Qed.

Lemma closes_only_trans s1 s2 s3 :
  closes_only s1 s2 → closes_only s2 s3 → closes_only s1 s3.
Proof. intros H1 H2 p Hp. by apply H1, H2. Qed.

Lemma call_closes_only c s s' :
  (∀ p now, c ≠ StartStreaming p now) → call c s = Some s' → closes_only s s'.
Proof.
  intros Hc H q.
  destruct c as [p now|o|p msg now|p code now|p now|p|name h|name h|now];
    simpl in H.
  - by destruct (Hc p now).
  - unfold streamOutput in H. destruct (negb _); [by injection H as <-|].
    apply bind_Some in H as (s1 & H1 & H).
    apply bind_Some in H as (s2 & H2 & H).
    apply bind_Some in H as (s3 & H3 & H).
    apply emit_Some in H as ->. apply emit_Some in H3 as ->.
    apply emit_Some in H2 as ->. apply emit_Some in H1 as ->.
    simpl. by rewrite (proj1 (addToBuffer_same _ _ _)).
  - unfold streamError in H. destruct (negb _); [by injection H as <-|].
    apply bind_Some in H as (s1 & H1 & H).
    apply emit_Some in H as ->. apply emit_Some in H1 as ->.
    simpl. by rewrite (proj1 (addToBuffer_same _ _ _)).
  - unfold streamProcessExit in H. destruct (negb _); [by injection H as <-|].
    apply bind_Some in H as (s1 & H1 & H).
    apply bind_Some in H as (s2 & H2 & H).
    rewrite (stopStreaming_active _ _ _ _ _ H).
    apply emit_Some in H2 as ->. apply emit_Some in H1 as ->. by intros [? _].
  - rewrite (stopStreaming_active _ _ _ _ _ H). by intros [? _].
  - by injection H as <-.
  - by injection H as <-.
  - by injection H as <-.
  - destruct (shutdown_leaves_an_empty_streamer_aux s now) as (s2 & H2 & Hnone).
    rewrite H in H2. injection H2 as <-. unfold getActiveStreams in Hnone.
    rewrite Hnone. by intros ?%elem_of_nil.
Qed.

Lemma run_closes_only cs s s' :
  Forall (λ c, ∀ p now, c ≠ StartStreaming p now) cs →
  run cs s = Some s' → closes_only s s'.
Proof.
  intros Hcs. revert s.
  induction Hcs as [|c cs Hc Hcs IH]; intros s H; simpl in H.
  { injection H as <-. apply closes_only_refl. }
  apply bind_Some in H as (s1 & H1 & H).
  eapply closes_only_trans; [by eapply call_closes_only|by apply IH].
Qed.

(** ** What the listeners of the manager hear *)

Lemma hears_chunks_only_same s s' :
  listeners s' = listeners s → eventNamingPattern s' = eventNamingPattern s →
  delivered s' = delivered s → hears_chunks_only s → hears_chunks_only s'.
Proof.
  intros Hl He Hd [H1 H2]. split.
  - intros name h. unfold formatProcessEvent. rewrite Hl, He. apply H1.
  - intros h pl. rewrite Hd. apply H2.
Qed.

Lemma emit_hears_chunks_only name pl s s' :
  hears_chunks_only s →
  (∀ p, name = formatProcessEvent s "output" p → ∃ e, pl = Event e ∧ is_chunk e) →
  emit name pl s = Some s' → hears_chunks_only s'.
Proof.
  intros [H1 H2] Hname H. apply emit_Some in H as ->. split; [exact H1|].
  intros h pl' Hin. simpl in Hin. apply elem_of_app in Hin as [Hin|Hin]; [eauto|].
  apply list_elem_of_fmap in Hin as (h' & [= <- <-] & Hin).
  unfold handlers_of in Hin.
  apply list_elem_of_fmap in Hin as ([name' h''] & -> & Hin).
  apply list_elem_of_filter in Hin as [Hn Hin]. simpl in Hn. subst name'.
  destruct (H1 _ _ Hin) as [p Hp]. by apply (Hname p).
Qed.

Lemma stopStreaming_hears_chunks_only p now s s' :
  hears_chunks_only s → stopStreaming p now s = Some s' → hears_chunks_only s'.
Proof.
  intros Hs H. unfold stopStreaming in H.
  destruct (negb _); [by injection H as <-|].
  eapply emit_hears_chunks_only; [| |exact H].
  - by apply (hears_chunks_only_same s).
  - intros q E. by apply general_name_not_of_process in E; [|set_solver].
Qed.

Lemma stop_all_hears_chunks_only ids now s s' :
  hears_chunks_only s → stop_all ids now s = Some s' → hears_chunks_only s'.
Proof.
  revert s. induction ids as [|q ids IH]; intros s Hs H; simpl in H.
  { by injection H as <-. }
  apply bind_Some in H as (s1 & H1 & H).
  apply (IH s1); [|done]. by eapply stopStreaming_hears_chunks_only.
Qed.

Lemma addToBuffer_hears_chunks_only q d s :
  hears_chunks_only s → hears_chunks_only (addToBuffer q d s).
Proof.
  destruct (addToBuffer_same q d s) as (_ & Hd & Hl).
  apply hears_chunks_only_same; [done| |done].
  unfold addToBuffer. by destruct (buffers s !! q).
Qed.

Lemma call_hears_chunks_only s0 c s s' :
  eventNamingPattern s0 = eventNamingPattern s →
  made_by_manager s0 c → hears_chunks_only s → call c s = Some s' →
  hears_chunks_only s'.
Proof.
  intros He Hc Hs H.
  destruct c as [q now|o|q msg now|q code now|q now|q|name h|name h|now];
    simpl in H.
  - unfold startStreaming in H. destruct (active_has q s) eqn:E;
      [by injection H as <-|].
    eapply emit_hears_chunks_only; [| |exact H].
    + apply (hears_chunks_only_same s); [..|done]; unfold active_set; by rewrite E.
    + intros p E'. by apply general_name_not_of_process in E'; [|set_solver].
  - assert (is_chunk o) as Ho
      by (destruct Hc as [[q [_ Ho]]|[now [=]]]; exact Ho).
    unfold streamOutput in H. destruct (negb _); [by injection H as <-|].
    apply bind_Some in H as (s1 & H1 & H).
    apply bind_Some in H as (s2 & H2 & H).
    apply bind_Some in H as (s3 & H3 & H).
    assert (∃ e, Event {| processId := processId o; type := type o;
                          data := data o; timestamp := timestamp o;
                          exitCode := exitCode o |} = Event e ∧ is_chunk e)
      as Hpl by (eexists; split; [done|exact Ho]).
    eapply emit_hears_chunks_only in H1;
      [|by apply addToBuffer_hears_chunks_only|done].
    eapply emit_hears_chunks_only in H2; [|done|done].
    eapply emit_hears_chunks_only in H3; [|done|done].
    eapply emit_hears_chunks_only in H; [done|done|done].
  - unfold streamError in H. destruct (negb _); [by injection H as <-|].
    apply bind_Some in H as (s1 & H1 & H).
    eapply emit_hears_chunks_only in H1;
      [|by apply addToBuffer_hears_chunks_only|].
    2:{ intros p E'. by apply general_name_not_of_process in E'; [|set_solver]. }
    eapply emit_hears_chunks_only in H; [done|done|].
    intros p E'. by apply output_name_of_process in E' as [E' _]; [|set_solver].
  - unfold streamProcessExit in H. destruct (negb _); [by injection H as <-|].
    apply bind_Some in H as (s1 & H1 & H).
    apply bind_Some in H as (s2 & H2 & H).
    eapply emit_hears_chunks_only in H1; [|done|].
    2:{ intros p E'. by apply general_name_not_of_process in E'; [|set_solver]. }
    eapply emit_hears_chunks_only in H2; [|done|].
    2:{ intros p E'. by apply output_name_of_process in E' as [E' _];
          [|set_solver]. }
    by eapply stopStreaming_hears_chunks_only.
  - by eapply stopStreaming_hears_chunks_only.
  - by destruct Hc as [[? []]|[? [=]]].
  - injection H as <-. destruct Hs as [H1 H2]. split; [|exact H2].
    intros name0 h0 Hin. unfold on in Hin; simpl in Hin.
    apply elem_of_app in Hin as [Hin|Hin]; [by apply (H1 _ h0)|].
    apply list_elem_of_singleton in Hin. injection Hin as -> ->.
    destruct Hc as [[q Hq]|[now [=]]]. simpl in Hq. exists q.
    rewrite Hq. unfold formatProcessEvent. simpl. by rewrite He.
  - injection H as <-. destruct Hs as [H1 H2]. split; [|exact H2].
    intros name0 h0 Hin. apply H1 with h0. unfold off in Hin; simpl in Hin.
    apply (proj1 (elem_of_rev _ _)) in Hin. apply remove_first_subset in Hin.
    by apply (proj1 (elem_of_rev _ _)) in Hin.
  - unfold shutdown in H. apply bind_Some in H as (s1 & H1 & H).
    injection H as <-.
    destruct (stop_all_hears_chunks_only _ now s s1 Hs H1) as [_ H2].
    split; [|exact H2]. intros name h Hin. simpl in Hin.
    by apply elem_of_nil in Hin.
Qed.

Lemma run_hears_chunks_only s0 cs s s' :
  eventNamingPattern s0 = eventNamingPattern s →
  Forall (made_by_manager s0) cs → hears_chunks_only s → run cs s = Some s' →
  hears_chunks_only s'.
Proof.
  intros He Hcs. revert s He.
  induction Hcs as [|c cs Hc Hcs IH]; intros s He Hs H; simpl in H.
  { by injection H as <-. }
  apply bind_Some in H as (s1 & H1 & H).
  apply (IH s1); [|by eapply call_hears_chunks_only|done].
  by rewrite (call_eventNamingPattern _ _ _ H1).
Qed.

End StreamerCallFacts.

(** * More properties of the manager *)

Module ManagerMore.
Import Process Manager ManagerInv ManagerChecks ManagerFacts.

(** ** What reaches [spawn] *)

Lemma valid_verdict_clean m command :
  Sanitizer.isValid (verdict m command) = true →
  clean_spawn (spawn_of m command).
Proof.
  unfold verdict, Sanitizer.sanitizeClaudeCommand.
  rewrite SanitizerMore.isValid_sanitizeCommand, SanitizerMore.accepted_spec.
  intros (Hc & Hn & Ha & _ & _).
  unfold SanitizerChecks.command_ok in Hc.
  rewrite !andb_true_iff, !negb_true_iff in Hc.
  destruct Hc as ((((Hne & Hlen) & Hmeta) & Htrav) & _).
  unfold clean_spawn, spawn_of; cbn [spawn_command spawn_args].
  split; [|split; [|split; [|split; [done|split]]]].
  - intros E. rewrite E in Hne. done.
  - cbn in Hlen. rewrite Z.gtb_ltb, Z.ltb_ge in Hlen. exact Hlen.
  - cbn in Hmeta. rewrite negb_true_iff in Hmeta.
    by apply SanitizerMore.test_one_of_false.
  - unfold SanitizerChecks.count_ok in Hn. cbn in Hn.
    rewrite negb_true_iff, Z.gtb_ltb, Z.ltb_ge in Hn. exact Hn.
  - apply Forall_forall. intros arg Harg.
    destruct (Ha arg Harg) as [Hok Hkey].
    unfold SanitizerChecks.argument_ok in Hok.
    rewrite !andb_true_iff, !negb_true_iff in Hok.
    destruct Hok as (((((Hl & Hshell) & _) & Htr) & _) & Hbin).
    unfold SanitizerChecks.key_ok in Hkey.
    rewrite !andb_true_iff, !negb_true_iff, orb_false_iff in Hkey.
    destruct Hkey as [[Hk _] _].
    split; [|split; [|split; [|split]]]; try done.
    + cbn in Hl. rewrite Z.gtb_ltb, Z.ltb_ge in Hl. exact Hl.
    + cbn in Hshell. rewrite negb_true_iff in Hshell.
      by apply SanitizerMore.test_one_of_false.
    + by apply (SanitizerMore.test_Set_false _ arg).
Qed.

(** ** Steps and frozen invocations *)

Lemma same_record_frozen i i' : same_record i i' → frozen i → frozen i'.
Proof. intros [Hc Hs] [? ?]. unfold frozen. by rewrite Hc, Hs. Qed.

Lemma grows_refl m : grows m m.
Proof. intros k i Hk _. by exists i. Qed.

Lemma grows_trans m1 m2 m3 : grows m1 m2 → grows m2 m3 → grows m1 m3.
Proof.
  intros H1 H2 k i Hk Hf.
  destruct (H1 k i Hk Hf) as (i2 & Hk2 & R2).
  destruct (H2 k i2 Hk2 (same_record_frozen _ _ R2 Hf)) as (i3 & Hk3 & R3).
  exists i3. split; [done|]. destruct R2 as [? ?], R3 as [? ?].
  split; congruence.
Qed.

Lemma grows_same m m' : invocations m' = invocations m → grows m m'.
Proof. intros E k i Hk _. exists i. by rewrite E. Qed.

Lemma grows_update_fields j f m :
  (∀ x, claudeProcess (f x) = claudeProcess x ∧ settled (f x) = settled x) →
  grows m (update j f m).
Proof.
  intros Hf k i Hk _. cbn [update invocations set_invocations].
  rewrite list_lookup_alter. destruct (decide (j = k)) as [->|Hne].
  - rewrite Hk. eexists. split; [done|]. apply Hf.
  - by exists i.
Qed.

Lemma grows_update_guard j f m x :
  invocations m !! j = Some x → ¬ frozen x → grows m (update j f m).
Proof.
  intros Hj Hx k i Hk Hi. cbn [update invocations set_invocations].
  rewrite list_lookup_alter. destruct (decide (j = k)) as [->|Hne].
  - rewrite Hj in Hk. injection Hk as ->. done.
  - by exists i.
Qed.

Lemma grows_append i m :
  grows m (set_invocations (invocations m ++ [i]) m).
Proof.
  intros k x Hk _. exists x. split; [|done].
  cbn [invocations set_invocations]. by apply lookup_app_l_Some.
Qed.

Lemma inert_refl m : inert m m.
Proof. split; [done|apply grows_refl]. Qed.

Lemma inert_trans m1 m2 m3 : inert m1 m2 → inert m2 m3 → inert m1 m3.
Proof.
  intros [S1 G1] [S2 G2]. split; [congruence|by eapply grows_trans].
Qed.

Lemma inert_same m m' :
  spawned m' = spawned m → invocations m' = invocations m → inert m m'.
Proof. intros ? ?. split; [done|by apply grows_same]. Qed.

Lemma inert_update_fields j f m :
  (∀ x, claudeProcess (f x) = claudeProcess x ∧ settled (f x) = settled x) →
  inert m (update j f m).
Proof. intros Hf. split; [done|by apply grows_update_fields]. Qed.

Lemma inert_update_guard j f m x :
  invocations m !! j = Some x → ¬ frozen x → inert m (update j f m).
Proof. intros Hj Hx. split; [done|by eapply grows_update_guard]. Qed.

Lemma streamIfActive_inert id f m m' :
  streamIfActive id f m = Some m' → inert m m'.
Proof.
  intros H. destruct (streamIfActive_same _ _ _ _ H) as (Hi & _ & _ & Hs & _).
  by apply inert_same.
Qed.

Lemma settle_inert k o now m m' : settle k o now m = Some m' → inert m m'.
Proof.
  unfold settle. intros H.
  destruct (invocations m !! k) as [i|] eqn:Hk;
    [|injection H as <-; apply inert_refl].
  destruct (settled i) eqn:Hs; [injection H as <-; apply inert_refl|].
  match type of H with
  | context [set_childProcesses ?c (update k ?f m)] =>
      set (m1 := set_childProcesses c (update k f m)) in H;
      assert (inert m m1) as H1
  end.
  { eapply inert_trans; [|by apply inert_same].
    apply (inert_update_guard k _ m i Hk). intros [Hsome _].
    rewrite Hs in Hsome. by destruct Hsome. }
  destruct (onOutput i) as [handler|]; [|by injection H as <-].
  apply bind_Some in H as (s2 & Hstop & H). injection H as <-.
  eapply inert_trans; [exact H1|].
  eapply inert_trans; [|by apply inert_update_fields].
  by apply inert_same.
Qed.

Lemma killProcess_inert processId now m m' b :
  killProcess processId now m = Some (m', b) → inert m m'.
Proof.
  intros H. destruct b.
  2:{ apply killProcess_false in H as ->. apply inert_refl. }
  unfold killProcess in H.
  destruct (processes m !! processId) as [k|]; [|done].
  destruct (invocations m !! k) as [i|] eqn:Hk; [|done].
  destruct (bool_decide (status (claudeProcess i) = running)) eqn:Hrun;
    [|done]. cbn [negb] in H.
  apply bool_decide_eq_true in Hrun.
  apply bind_Some in H as (s & Hstop & H). injection H as <-.
  set (m1 := match childProcesses m !! processId with
             | Some c => _ | None => m end) in *.
  assert (inert m m1 ∧ ∃ i1, invocations m1 !! k = Some i1
                             ∧ claudeProcess i1 = claudeProcess i) as [H1 Hk1].
  { unfold m1. destruct (childProcesses m !! processId) as [c|].
    - split.
      + eapply inert_trans; [|by apply inert_same].
        by apply inert_update_fields.
      + cbn [update invocations set_invocations set_childProcesses].
        rewrite list_lookup_alter. destruct (decide (c = k)) as [->|Hne].
        * rewrite Hk. by eexists.
        * by exists i.
    - split; [apply inert_refl|by exists i]. }
  destruct Hk1 as (i1 & Hk1 & Hc1).
  eapply inert_trans; [exact H1|].
  eapply inert_trans; [|by apply inert_same].
  apply (inert_update_guard k _ m1 i1 Hk1). intros [_ Hst].
  by rewrite Hc1 in Hst.
Qed.

Lemma kill_all_inert ids now m m' : kill_all ids now m = Some m' → inert m m'.
Proof.
  revert m. induction ids as [|p ids IH]; intros m H; simpl in H.
  { injection H as <-. apply inert_refl. }
  apply bind_Some in H as ([m1 b] & H1 & H).
  eapply inert_trans; [by eapply killProcess_inert|by apply IH].
Qed.

Lemma shutdown_inert now m m' : shutdown now m = Some m' → inert m m'.
Proof.
  unfold shutdown. intros H.
  destruct (isShuttingDown m); [injection H as <-; apply inert_refl|].
  apply bind_Some in H as (m1 & Hkill & H).
  apply bind_Some in H as (s & Hshut & H). injection H as <-.
  apply (inert_trans _ (set_isShuttingDown true m)); [by apply inert_same|].
  apply (inert_trans _ m1); [by eapply kill_all_inert|by apply inert_same].
Qed.

Lemma on_stdout_data_inert k data now m m' :
  on_stdout_data k data now m = Some m' → inert m m'.
Proof.
  unfold on_stdout_data. intros H.
  destruct (invocations m !! k) as [i|]; [|injection H as <-; apply inert_refl].
  eapply inert_trans; [|by eapply streamIfActive_inert].
  by apply inert_update_fields.
Qed.

Lemma on_stderr_data_inert k data now m m' :
  on_stderr_data k data now m = Some m' → inert m m'.
Proof.
  unfold on_stderr_data. intros H.
  destruct (invocations m !! k) as [i|]; [|injection H as <-; apply inert_refl].
  eapply inert_trans; [|by eapply streamIfActive_inert].
  by apply inert_update_fields.
Qed.

Lemma on_exit_inert k code signal now m m' :
  on_exit k code signal now m = Some m' → inert m m'.
Proof.
  unfold on_exit. intros H.
  destruct (invocations m !! k) as [i|]; [|injection H as <-; apply inert_refl].
  apply bind_Some in H as (m1 & Hstream & H).
  eapply inert_trans; [by apply (inert_update_fields k (set_timeoutId None))|].
  eapply inert_trans; [by eapply streamIfActive_inert|].
  destruct (bool_decide _); by eapply settle_inert.
Qed.

Lemma on_error_inert k message now m m' :
  on_error k message now m = Some m' → inert m m'.
Proof.
  unfold on_error. intros H.
  destruct (invocations m !! k) as [i|]; [|injection H as <-; apply inert_refl].
  apply bind_Some in H as (m1 & Hstream & H).
  eapply inert_trans; [by apply (inert_update_fields k (set_timeoutId None))|].
  eapply inert_trans; [by eapply streamIfActive_inert|].
  by eapply settle_inert.
Qed.

Lemma on_timeout_inert k now m m' : on_timeout k now m = Some m' → inert m m'.
Proof.
  unfold on_timeout. intros H.
  destruct (invocations m !! k) as [i|]; [|injection H as <-; apply inert_refl].
  destruct (timeoutId i); [|injection H as <-; apply inert_refl].
  eapply inert_trans; [|by eapply settle_inert].
  by apply inert_update_fields.
Qed.

Lemma on_forceKill_inert k m : inert m (on_forceKill k m).
Proof.
  unfold on_forceKill.
  destruct (invocations m !! k) as [i|]; [|apply inert_refl].
  destruct (forceKillTimer i); [|apply inert_refl].
  apply inert_update_fields. intros x. simpl. by destruct (negb _).
Qed.

(** A call of [executeCommand]: nothing happens, or the command is
    valid and [spawn] is called for it. *)
Lemma executeCommand_from_spawn onOutput command now child_pid m :
  let m' := (executeCommand_from onOutput command now child_pid m).1 in
  grows m m'
  ∧ (spawned m' = spawned m
     ∨ (Sanitizer.isValid (verdict m command) = true
        ∧ spawned m' = spawned m ++ [spawn_of m command])).
Proof.
  intros m'. subst m'.
  destruct (isShuttingDown m) eqn:Hs.
  { rewrite executeCommand_shutting_down by done.
    split; [apply grows_refl|by left]. }
  destruct (Sanitizer.isValid (verdict m command)) eqn:Hv.
  2:{ rewrite executeCommand_invalid by done.
      split; [apply grows_refl|by left]. }
  destruct (processes m !! Command.id command) eqn:Hid.
  { rewrite executeCommand_duplicate by done.
    split; [apply grows_refl|by left]. }
  destruct (executeCommand_spawns onOutput command now child_pid m Hs Hv Hid)
    as (m' & H & Hsp & _ & _ & _ & _ & Hi).
  rewrite H. cbn [fst]. split; [|by right].
  intros k x Hk _. exists x. split; [|done].
  rewrite Hi. by apply lookup_app_l_Some.
Qed.

Lemma executeStreamingCommand_spawn command handler now child_pid m m' r :
  executeStreamingCommand command handler now child_pid m = Some (m', r) →
  grows m m'
  ∧ (spawned m' = spawned m
     ∨ (Sanitizer.isValid (verdict m command) = true
        ∧ spawned m' = spawned m ++ [spawn_of m command])).
Proof.
  unfold executeStreamingCommand. intros H.
  destruct (isShuttingDown m).
  { injection H as <- <-. split; [apply grows_refl|by left]. }
  apply bind_Some in H as (s & Hstart & H).
  set (m1 := set_outputStreamer _ m) in H.
  destruct (executeCommand_from_spawn (Some handler) command now child_pid m1)
    as [G S].
  destruct (executeCommand_from _ _ _ _ m1) as [m2 [message|k]].
  - apply bind_Some in H as (s2 & Hstop & H). injection H as <- <-.
    split.
    + eapply grows_trans; [exact G|]. by apply grows_same.
    + exact S.
  - injection H as <- <-. split; [exact G|exact S].
Qed.

Lemma step_spawn l m m' :
  step l m = Some m' →
  grows m m'
  ∧ (spawned m' = spawned m
     ∨ ∃ command, Sanitizer.isValid (verdict m command) = true
                  ∧ spawned m' = spawned m ++ [spawn_of m command]).
Proof.
  intros H.
  assert (∀ m0, inert m m0 → m0 = m' →
            grows m m'
            ∧ (spawned m' = spawned m
               ∨ ∃ command, Sanitizer.isValid (verdict m command) = true
                            ∧ spawned m' = spawned m ++ [spawn_of m command]))
    as Hinert.
  { intros m0 [S G] <-. split; [done|by left]. }
  destruct l as [c now child_pid|c handler now child_pid|p now|now|k d now
                |k d now|k code signal now|k message now|k now|k]; simpl in H.
  - injection H as <-.
    destruct (executeCommand_from_spawn None c now child_pid m) as [G [S|S]].
    + split; [done|by left].
    + split; [done|]. right. by exists c.
  - apply fmap_Some in H as ([m2 r] & H & ->).
    destruct (executeStreamingCommand_spawn _ _ _ _ _ _ _ H) as [G [S|S]].
    + split; [done|by left].
    + split; [done|]. right. by exists c.
  - apply fmap_Some in H as ([m2 b] & H & ->).
    by eapply Hinert; [eapply killProcess_inert|].
  - by eapply Hinert; [eapply shutdown_inert|].
  - by eapply Hinert; [eapply on_stdout_data_inert|].
  - by eapply Hinert; [eapply on_stderr_data_inert|].
  - by eapply Hinert; [eapply on_exit_inert|].
  - by eapply Hinert; [eapply on_error_inert|].
  - by eapply Hinert; [eapply on_timeout_inert|].
  - injection H as <-. by eapply Hinert; [eapply on_forceKill_inert|].
Qed.

Lemma run_clean ls m m' :
  run ls m = Some m' →
  Forall clean_spawn (spawned m) → Forall clean_spawn (spawned m').
Proof.
  revert m. induction ls as [|l ls IH]; intros m H Hm; simpl in H.
  { by injection H as <-. }
  apply bind_Some in H as (m1 & H1 & H).
  apply (IH m1 H).
  destruct (step_spawn l m m1 H1) as [_ [->|(c & Hv & ->)]]; [done|].
  apply Forall_app. split; [done|].
  constructor; [|done]. by apply valid_verdict_clean.
Qed.

(** X18.  Nothing unsanitized reaches [spawn].  In every run of a
    manager, whatever calls and events it is made of, every call to
    [spawn] was made for a command that, after trimming, is not empty,
    has at most 100 characters, no shell metacharacter and no [..];
    with at most 50 arguments,
    each of at most 2000 characters, without shell metacharacter,
    without control character, without [..] and without [sk-ant-]. *)
Theorem spawned_commands_are_clean
    (config : PartialConfig) (cwd : string) (ls : list Label)
    (m : EnhancedClaudeManager) :
  run ls (new config cwd) = Some m →
  Forall clean_spawn (spawned m).
Proof. intros H. by apply (run_clean ls _ _ H). Qed.

Lemma run_grows ls m m' : run ls m = Some m' → grows m m'.
Proof.
  revert m. induction ls as [|l ls IH]; intros m H; simpl in H.
  { injection H as <-. apply grows_refl. }
  apply bind_Some in H as (m1 & H1 & H).
  eapply grows_trans; [|by apply IH].
  by destruct (step_spawn l m m1 H1).
Qed.

(** X19.  A settled record is final.  Once the promise of an execution
    has settled and its record has left the status [running], no later
    call or event changes the record or the outcome: not a late exit or
    error event of the child, not the deadline, not [killProcess], not
    [shutdown], and not an execution that reuses the id. *)
Theorem settled_record_is_final
    (m : EnhancedClaudeManager) (k : nat) (i : Invocation) (o : Outcome)
    (ls : list Label) (m' : EnhancedClaudeManager) :
  invocations m !! k = Some i →
  settled i = Some o →
  status (claudeProcess i) ≠ running →
  run ls m = Some m' →
  record k m' = Some (claudeProcess i) ∧ result k m' = Some o.
Proof.
  intros Hk Hs Hst H.
  destruct (run_grows ls m m' H k i Hk) as (i' & Hk' & Hc & Hs').
  { split; [by rewrite Hs|done]. }
  unfold record, result. rewrite Hk'. simpl. by rewrite Hc, Hs', Hs.
Qed.

Lemma spawned_commands_are_clean_witness :
  let good := Command.mk "a" "claude" ["-p"; "hello"] None None None in
  let bad := Command.mk "b" "claude" ["-p"; "hello; rm -rf ~"] None None None in
  let m := default (new no_config "/home/user")
             (run [ExecuteCommand good 0 (Some 41);
                   ExecuteCommand bad 1 (Some 42);
                   ExecuteStreamingCommand bad 7%nat 2 (Some 43);
                   ChildExit 0 (Some 0) None 3]
                  (new no_config "/home/user")) in
  Forall clean_spawn (spawned m).
Proof.
  intros good bad m.
  apply (spawned_commands_are_clean no_config "/home/user"
           [ExecuteCommand good 0 (Some 41);
            ExecuteCommand bad 1 (Some 42);
            ExecuteStreamingCommand bad 7%nat 2 (Some 43);
            ChildExit 0 (Some 0) None 3] m).
  vm_compute. reflexivity.
Defined.

Lemma settled_record_is_final_witness :
  let command := Command.mk "a" "claude" ["--version"] None None None in
  let m := default (new no_config "/home/user")
             (run [ExecuteCommand command 0 (Some 41); StdoutData 0 "1.0" 1;
                   ChildExit 0 (Some 0) None 2] (new no_config "/home/user")) in
  let later := [ChildExit 0 (Some 1) None 3; ChildError 0 "late" 4;
                TimeoutFires 0 5; KillProcess "a" 6; Shutdown 7] in
  let m' := default m (run later m) in
  (status <$> record 0 m') = Some completed
  ∧ result 0 m' = Some (Resolved "1.0").
Proof.
  intros command m later m'.
  assert (∃ i, invocations m !! 0%nat = Some i
               ∧ settled i = Some (Resolved "1.0")
               ∧ status (claudeProcess i) = completed) as (i & Hi & Hs & Hst).
  { vm_compute. eexists. repeat split. }
  destruct (settled_record_is_final m 0 i (Resolved "1.0") later m' Hi Hs)
    as [Hr Ho].
  - by rewrite Hst.
  - vm_compute. reflexivity.
  - split; [|exact Ho]. rewrite Hr. simpl. by rewrite Hst.
Defined.

(** ** Killing *)

Lemma killProcess_total processId now m : is_Some (killProcess processId now m).
Proof.
  unfold killProcess.
  destruct (processes m !! processId) as [k|]; [|done].
  destruct (invocations m !! k) as [i|]; [|done].
  destruct (negb _); [done|].
  match goal with
  | |- context [Streamer.stopStreaming ?p ?n ?s] =>
      destruct (StreamerFacts.stopStreaming_total p n s) as [s' ->]
  end.
  done.
Qed.

Lemma kill_all_total ids now m : is_Some (kill_all ids now m).
Proof.
  revert m. induction ids as [|p ids IH]; intros m; simpl; [done|].
  destruct (killProcess_total p now m) as [[m1 b] ->]. apply IH.
Qed.

(** X20.  A process is killed once.  Whatever a call of [killProcess]
    returned, a second call for the same id returns [false] and changes
    nothing: the record keeps the end time of the first call, no further
    signal is sent and no further timer is armed. *)
Theorem second_kill_returns_false
    (m : EnhancedClaudeManager) (processId : string) (now : Z)
    (m1 : EnhancedClaudeManager) (b : bool) (now' : Z) :
  killProcess processId now m = Some (m1, b) →
  killProcess processId now' m1 = Some (m1, false).
Proof.
  intros H. destruct b.
  - pose proof H as H0. unfold killProcess in H0.
    destruct (processes m !! processId) as [k|] eqn:Hp; [|done].
    destruct (invocations m !! k) as [i|] eqn:Hk; [|done].
    destruct (bool_decide (status (claudeProcess i) = running)) eqn:Hrun;
      [|done].
    apply bool_decide_eq_true in Hrun.
    destruct (killProcess_running processId now m k i Hp Hk Hrun)
      as (m2 & H2 & Hget).
    rewrite H in H2. injection H2 as <-.
    unfold getProcess in Hget.
    apply bind_Some in Hget as (k1 & Hp1 & Hget).
    apply fmap_Some in Hget as (i1 & Hk1 & Hc1).
    unfold killProcess. rewrite Hp1, Hk1, <- Hc1. done.
  - pose proof (killProcess_false _ _ _ _ H) as ->.
    unfold killProcess in H |- *.
    destruct (processes m !! processId) as [k|]; [|done].
    destruct (invocations m !! k) as [i|]; [|done].
    destruct (negb _); [done|].
    apply bind_Some in H as (s & _ & H). done.
Qed.

Lemma second_kill_returns_false_witness :
  let command := Command.mk "a" "claude" ["-p"; "hello"] None None None in
  let m := fst (executeCommand command 0 (Some 41) (new no_config "/home/user")) in
  let m1 := default m (fst <$> killProcess "a" 1 m) in
  killProcess "a" 2 m1 = Some (m1, false).
Proof.
  intros command m m1.
  apply (second_kill_returns_false m "a" 1 m1 true 2).
  vm_compute. reflexivity.
Defined.

(** ** Shutting down *)

Lemma tracked_none m : processes m = ∅ → tracked m = [].
Proof.
  intros Hp. unfold tracked.
  induction (seq 0 (List.length (invocations m))) as [|k l IH]; [done|].
  rewrite filter_cons, IH. unfold is_tracked.
  destruct (invocations m !! k); [|done].
  rewrite Hp, lookup_empty. by rewrite bool_decide_eq_false_2.
Qed.

(** X21.  After [shutdown] nothing is left and nothing starts.  On a
    manager that is not yet shutting down, [shutdown] returns; after it
    the manager is not ready, tracks no process and has none active, no
    stream is open, and no child was spawned by it.  Every later
    [executeCommand] throws "Claude Manager is shutting down" and
    changes nothing, and a second [shutdown] does nothing. *)
Theorem shutdown_stops_everything
    (m : EnhancedClaudeManager) (now : Z) :
  isShuttingDown m = false →
  ∃ m',
    shutdown now m = Some m'
    ∧ isReady m' = false
    ∧ (∀ processId, getProcess processId m' = None)
    ∧ getActiveProcesses m' = []
    ∧ Streamer.getActiveStreams (outputStreamer m') = []
    ∧ spawned m' = spawned m
    ∧ (∀ command now' child_pid,
         executeCommand command now' child_pid m' = (m', Throws shutdownMessage))
    ∧ (∀ command handler now' child_pid,
         executeStreamingCommand command handler now' child_pid m'
         = Some (m', Throws shutdownMessage))
    ∧ (∀ now', shutdown now' m' = Some m').
Proof.
  intros Hs. unfold shutdown at 1. rewrite Hs.
  destruct (kill_all_total
              (map id (getActiveProcesses (set_isShuttingDown true m))) now
              (set_isShuttingDown true m)) as [m1 H1].
  rewrite H1. bind_step.
  destruct (StreamerMore.shutdown_leaves_an_empty_streamer_aux
              (outputStreamer m1) now) as (s & Hshut & Hnone).
  rewrite Hshut. bind_step. eexists. split; [done|].
  destruct (kill_all_frame _ _ _ _ H1) as (_ & Hsd & _).
  destruct (kill_all_inert _ _ _ _ H1) as [Hsp _].
  cbn [isShuttingDown set_isShuttingDown] in Hsd.
  split; [|split; [|split; [|split; [|split; [|split; [|split]]]]]].
  - unfold isReady; simpl. by rewrite Hsd.
  - intros processId. unfold getProcess; simpl. by rewrite lookup_empty.
  - unfold getActiveProcesses. by rewrite tracked_none.
  - exact Hnone.
  - simpl. by rewrite Hsp.
  - intros command now' child_pid. unfold executeCommand.
    by apply executeCommand_shutting_down.
  - intros command handler now' child_pid. unfold executeStreamingCommand.
    simpl. by rewrite Hsd.
  - intros now'. unfold shutdown; simpl. by rewrite Hsd.
Qed.

Lemma shutdown_stops_everything_witness :
  let command := Command.mk "a" "claude" ["-p"; "hello"] None None None in
  let m := fst (executeCommand command 0 (Some 41) (new no_config "/home/user")) in
  ∃ m',
    shutdown 9 m = Some m'
    ∧ isReady m' = false
    ∧ (∀ processId, getProcess processId m' = None)
    ∧ getActiveProcesses m' = []
    ∧ Streamer.getActiveStreams (outputStreamer m') = []
    ∧ spawned m' = spawned m
    ∧ (∀ command now' child_pid,
         executeCommand command now' child_pid m' = (m', Throws shutdownMessage))
    ∧ (∀ command handler now' child_pid,
         executeStreamingCommand command handler now' child_pid m'
         = Some (m', Throws shutdownMessage))
    ∧ (∀ now', shutdown now' m' = Some m').
Proof.
  intros command m. apply (shutdown_stops_everything m 9). reflexivity.
Defined.

(** ** The deadline *)

Lemma update_signals j f m k :
  (∀ x, child_signals (f x) = child_signals x ∧ timeoutId (f x) = timeoutId x) →
  signals k (update j f m) = signals k m ∧ timer k (update j f m) = timer k m.
Proof.
  intros Hf. unfold signals, timer. cbn [update invocations set_invocations].
  rewrite list_lookup_alter. destruct (decide (j = k)) as [->|Hne]; [|done].
  destruct (invocations m !! k) as [x|]; [|done]. simpl.
  by destruct (Hf x) as [-> ->].
Qed.

Lemma settle_signals k o now m m' j :
  settle k o now m = Some m' →
  signals j m' = signals j m ∧ timer j m' = timer j m.
Proof.
  unfold settle. intros H.
  destruct (invocations m !! k) as [i|] eqn:Hk; [|by injection H as <-].
  destruct (settled i) eqn:Hs; [by injection H as <-|].
  match type of H with
  | context [set_childProcesses ?c (update k ?f m)] =>
      set (m1 := set_childProcesses c (update k f m)) in H;
      assert (signals j m1 = signals j m ∧ timer j m1 = timer j m) as [S1 T1]
        by (apply (update_signals k f m j); by intros x)
  end.
  destruct (onOutput i) as [handler|]; [|by injection H as <-].
  apply bind_Some in H as (s2 & Hstop & H). injection H as <-.
  rewrite <- S1, <- T1.
  apply (update_signals k _ (set_outputStreamer s2 m1) j). by intros x.
Qed.

(** X22.  The deadline.  A command that passes the checks is run with
    a deadline: its own [timeout], or the [commandTimeout] of the
    configuration when the command gives none or zero.  When the
    deadline passes before the child ends, the child is sent SIGTERM,
    the promise is rejected with "Command timed out after Nms", the
    record becomes [failed], and the timer does not fire again. *)
Theorem deadline_rejects_and_terminates
    (m : EnhancedClaudeManager) (command : Command.ClaudeCommand)
    (now : Z) (child_pid : option Z) (now' : Z) :
  isShuttingDown m = false →
  Sanitizer.isValid (verdict m command) = true →
  processes m !! Command.id command = None →
  let k := List.length (invocations m) in
  ∃ m1 m2,
    executeCommand command now child_pid m = (m1, Awaiting k)
    ∧ timer k m1 = Some (Some (deadline m command))
    ∧ on_timeout k now' m1 = Some m2
    ∧ result k m2 = Some (Rejected (timeoutMessage (deadline m command)))
    ∧ (status <$> record k m2) = Some failed
    ∧ signals k m2 = Some ["SIGTERM"]
    ∧ timer k m2 = Some None
    ∧ (∀ now'', on_timeout k now'' m2 = Some m2).
Proof.
  intros Hs Hv Hid k.
  destruct (executeCommand_spawns None command now child_pid m Hs Hv Hid)
    as (m1 & H & _ & _ & _ & _ & _ & Hi).
  fold k in H. exists m1.
  match type of Hi with
  | _ = _ ++ [?x] => set (i := x) in Hi
  end.
  assert (invocations m1 !! k = Some i) as Hk.
  { rewrite Hi. by apply list_lookup_middle. }
  destruct (on_timeout_pending k now' m1 i (deadline m command) Hk eq_refl eq_refl)
    as (m2 & H2 & Hrec & Hres & _).
  exists m2. split; [exact H|].
  split; [unfold timer; by rewrite Hk|].
  split; [exact H2|]. split; [exact Hres|].
  split; [by rewrite Hrec|].
  pose proof H2 as H2'. unfold on_timeout in H2'. rewrite Hk in H2'.
  cbn [timeoutId i] in H2'.
  destruct (settle_signals _ _ _ _ _ k H2') as [S T].
  assert (signals k m2 = Some ["SIGTERM"] ∧ timer k m2 = Some None) as [S' T'].
  { rewrite S, T. unfold signals, timer.
    cbn [update invocations set_invocations].
    rewrite list_lookup_alter, decide_True by done. by rewrite Hk. }
  split; [exact S'|]. split; [exact T'|].
  intros now''. unfold on_timeout.
  unfold timer in T'. destruct (invocations m2 !! k) as [i2|]; [|done].
  simpl in T'. injection T' as T'. by rewrite T'.
Qed.

Lemma deadline_rejects_and_terminates_witness :
  let command := Command.mk "a" "claude" ["-p"; "hello"] None (Some 0) None in
  let m := new no_config "/home/user" in
  ∃ m1 m2,
    executeCommand command 0 (Some 41) m = (m1, Awaiting 0%nat)
    ∧ timer 0 m1 = Some (Some 30000)
    ∧ on_timeout 0 30000 m1 = Some m2
    ∧ result 0 m2 = Some (Rejected "Command timed out after 30000ms")
    ∧ (status <$> record 0 m2) = Some failed
    ∧ signals 0 m2 = Some ["SIGTERM"]
    ∧ timer 0 m2 = Some None
    ∧ (∀ now'', on_timeout 0 now'' m2 = Some m2).
Proof.
  intros command m.
  apply (deadline_rejects_and_terminates m command 0 (Some 41) 30000);
    vm_compute; reflexivity.
Defined.

(** ** A streaming call that is rejected at once *)

Lemma startStreaming_listeners p now s s' :
  Streamer.startStreaming p now s = Some s' →
  Streamer.listeners s' = Streamer.listeners s
  ∧ Streamer.eventNamingPattern s' = Streamer.eventNamingPattern s
  ∧ (p ∉ Streamer.activeStreams s → Streamer.buffers s' !! p = Some []).
Proof.
  unfold Streamer.startStreaming. intros H.
  destruct (Streamer.active_has p s) eqn:E.
  - injection H as <-. split; [done|]. split; [done|]. intros Hn.
    by apply StreamerFacts.active_has_spec in E.
  - apply StreamerFacts.emit_Some in H as ->.
    unfold Streamer.active_set. rewrite E. simpl.
    split; [done|]. split; [done|]. intros _. by rewrite lookup_insert_eq.
Qed.

(** X23.  A streaming call that is rejected at once closes the stream
    of its id.  When [executeStreamingCommand] throws although the
    manager is not shutting down (the command fails the checks, or its
    id is tracked already), the stream of the command's id is closed
    when the call returns, also when it was open before the call for a
    running command with the same id; the listeners are as before the
    call; and when the stream was closed before the call, the buffer
    kept for the id has been emptied. *)
Theorem rejected_streaming_call_closes_the_stream
    (m : EnhancedClaudeManager) (command : Command.ClaudeCommand)
    (handler : Streamer.Handler) (now : Z) (child_pid : option Z)
    (m' : EnhancedClaudeManager) (message : string) :
  isShuttingDown m = false →
  executeStreamingCommand command handler now child_pid m
    = Some (m', Throws message) →
  Streamer.isStreaming (Command.id command) (outputStreamer m') = false
  ∧ Streamer.listeners (outputStreamer m')
    = Streamer.listeners (outputStreamer m)
  ∧ (Streamer.isStreaming (Command.id command) (outputStreamer m) = false →
     Streamer.getFullOutput (Command.id command) (outputStreamer m') = "")
  ∧ spawned m' = spawned m ∧ invocations m' = invocations m.
Proof.
  intros Hs H. unfold executeStreamingCommand in H. rewrite Hs in H.
  apply bind_Some in H as (s1 & Hstart & H).
  set (m1 := set_outputStreamer _ m) in H.
  destruct (executeCommand_from (Some handler) command now child_pid m1)
    as [m2 [msg|k]] eqn:Hexec; [|done].
  apply executeCommand_throws_unchanged in Hexec as ->.
  apply bind_Some in H as (s2 & Hstop & H). injection H as <- <-.
  cbn [outputStreamer m1 set_outputStreamer] in Hstop.
  unfold Streamer.offProcessOutput, Streamer.onProcessOutput in Hstop.
  replace (Streamer.formatProcessEvent
             (Streamer.on (Streamer.formatProcessEvent s1 "output"
                             (Command.id command)) handler s1))
    with (Streamer.formatProcessEvent s1) in Hstop by done.
  rewrite StreamerMore.off_on in Hstop.
  destruct (startStreaming_listeners _ _ _ _ Hstart) as (Hl & _ & Hbuf).
  destruct (StreamerFacts.stopStreaming_same _ _ _ _ Hstop) as (Hb2 & Hl2 & _).
  cbn [outputStreamer set_outputStreamer spawned invocations m1].
  split; [|split; [|split; [|done]]].
  - apply StreamerFacts.isStreaming_false. intros Hin.
    by apply (StreamerMore.stopStreaming_active _ _ _ _ _ Hstop) in Hin as [_ ?].
  - by rewrite Hl2.
  - intros Hclosed. apply StreamerFacts.isStreaming_false in Hclosed.
    unfold Streamer.getFullOutput. by rewrite Hb2, (Hbuf Hclosed).
Qed.

Lemma rejected_streaming_call_closes_the_stream_witness :
  let command := Command.mk "a" "claude" ["-p"; "hello"] None None None in
  let m := default (new no_config "/home/user")
             (run [ExecuteStreamingCommand command 7%nat 0 (Some 41)]
                  (new no_config "/home/user")) in
  let m' := default m (fst <$> executeStreamingCommand command 8%nat 1 (Some 42) m) in
  Streamer.isStreaming "a" (outputStreamer m) = true
  ∧ Streamer.isStreaming (Command.id command) (outputStreamer m') = false
  ∧ Streamer.listeners (outputStreamer m')
    = Streamer.listeners (outputStreamer m)
  ∧ (Streamer.isStreaming (Command.id command) (outputStreamer m) = false →
     Streamer.getFullOutput (Command.id command) (outputStreamer m') = "")
  ∧ spawned m' = spawned m ∧ invocations m' = invocations m.
Proof.
  intros command m m'. split; [by vm_compute|].
  apply (rejected_streaming_call_closes_the_stream m command 8%nat 1 (Some 42)
           m' "Process with ID a already exists");
    vm_compute; reflexivity.
Defined.

(** After a duplicate streaming call was rejected, the output of the
    running command with that id is no longer streamed: its handler
    receives the first chunk and not the second. *)
Example duplicate_call_silences_the_running_stream :
  let command := Command.mk "a" "claude" ["-p"; "hello"] None None None in
  (Streamer.delivered ∘ outputStreamer <$>
     run [ExecuteStreamingCommand command 7%nat 0 (Some 41);
          StdoutData 0 "first" 1;
          ExecuteStreamingCommand command 8%nat 2 (Some 42);
          StdoutData 0 "second" 3]
         (new no_config "/home/user"))
  = Some [(7%nat, Streamer.Event
             {| Streamer.processId := "a"; Streamer.type := Streamer.stdout;
                Streamer.data := "first"; Streamer.timestamp := 1;
                Streamer.exitCode := None |})].
Proof. by vm_compute. Qed.

(** ** An error of the child while its output is streamed *)

Lemma deaf_call c s s' :
  Streamer.call c s = Some s' → (∀ name h, c ≠ Streamer.On name h) →
  StreamerChecks.deaf s → StreamerChecks.deaf s'.
Proof.
  intros H Hc. apply StreamerMore.no_new_listener_deaf.
  by apply (StreamerMore.call_no_new_listener c).
Qed.

Lemma deaf_onProcessOutput id h s :
  StreamerChecks.deaf s → StreamerChecks.deaf (Streamer.onProcessOutput id h s).
Proof.
  apply StreamerMore.on_deaf.
  apply StreamerFacts.formatProcessEvent_not_error. by left.
Qed.

Lemma deaf_offProcessOutput id h s :
  StreamerChecks.deaf s → StreamerChecks.deaf (Streamer.offProcessOutput id h s).
Proof.
  apply (deaf_call (Streamer.Off (Streamer.formatProcessEvent s "output" id) h));
    done.
Qed.

Lemma deaf_stopStreaming p now s s' :
  Streamer.stopStreaming p now s = Some s' →
  StreamerChecks.deaf s → StreamerChecks.deaf s'.
Proof. intros H. by apply (deaf_call (Streamer.StopStreaming p now)). Qed.

Lemma deaf_streamIfActive id c m m' :
  streamIfActive id (Streamer.call c) m = Some m' →
  (∀ name h, c ≠ Streamer.On name h) →
  StreamerChecks.deaf (outputStreamer m) → StreamerChecks.deaf (outputStreamer m').
Proof.
  intros H Hc Hd. destruct (streamIfActive_frame _ _ _ _ H) as [_ [->|Hcall]];
    [done|]. by apply (deaf_call c _ _ Hcall).
Qed.

Lemma deaf_settle k o now m m' :
  settle k o now m = Some m' →
  StreamerChecks.deaf (outputStreamer m) → StreamerChecks.deaf (outputStreamer m').
Proof.
  unfold settle. intros H Hd.
  destruct (invocations m !! k) as [i|]; [|by injection H as <-].
  destruct (settled i); [by injection H as <-|].
  destruct (onOutput i) as [handler|]; [|by injection H as <-].
  apply bind_Some in H as (s2 & Hstop & H). injection H as <-.
  cbn [outputStreamer update set_invocations set_outputStreamer
       set_childProcesses] in *.
  eapply deaf_stopStreaming; [exact Hstop|]. by apply deaf_offProcessOutput.
Qed.

Lemma deaf_killProcess processId now m m' b :
  killProcess processId now m = Some (m', b) →
  StreamerChecks.deaf (outputStreamer m) → StreamerChecks.deaf (outputStreamer m').
Proof.
  intros H Hd. destruct b.
  2:{ by apply killProcess_false in H as ->. }
  unfold killProcess in H.
  destruct (processes m !! processId) as [k|]; [|done].
  destruct (invocations m !! k) as [i|]; [|done].
  destruct (negb _); [done|].
  apply bind_Some in H as (s & Hstop & H). injection H as <-.
  cbn [outputStreamer set_outputStreamer].
  eapply deaf_stopStreaming; [exact Hstop|].
  cbn [outputStreamer update set_invocations].
  by destruct (childProcesses m !! processId).
Qed.

Lemma deaf_kill_all ids now m m' :
  kill_all ids now m = Some m' →
  StreamerChecks.deaf (outputStreamer m) → StreamerChecks.deaf (outputStreamer m').
Proof.
  revert m. induction ids as [|p ids IH]; intros m H Hd; simpl in H.
  { by injection H as <-. }
  apply bind_Some in H as ([m1 b] & H1 & H).
  apply (IH m1 H). by eapply deaf_killProcess.
Qed.

Lemma deaf_step l m m' :
  step l m = Some m' →
  StreamerChecks.deaf (outputStreamer m) → StreamerChecks.deaf (outputStreamer m').
Proof.
  intros H Hd.
  destruct l as [c now child_pid|c handler now child_pid|p now|now|k d now
                |k d now|k code signal now|k message now|k now|k]; simpl in H.
  - injection H as <-. unfold executeCommand.
    destruct (executeCommand_from_cases None c now child_pid m)
      as [->|(_ & _ & m2 & i & Hcall & _ & _ & _ & _ & Hst)]; [done|].
    rewrite Hcall. cbn [fst]. by rewrite Hst.
  - apply fmap_Some in H as ([m2 r] & H & ->). cbn [fst].
    unfold executeStreamingCommand in H.
    destruct (isShuttingDown m); [by injection H as <- <-|].
    apply bind_Some in H as (s & Hstart & H).
    assert (StreamerChecks.deaf (Streamer.onProcessOutput (Command.id c) handler s))
      as Hd1.
    { apply deaf_onProcessOutput.
      by apply (deaf_call (Streamer.StartStreaming (Command.id c) now) _ _ Hstart). }
    set (m1 := set_outputStreamer _ m) in H.
    destruct (executeCommand_from_cases (Some handler) c now child_pid m1)
      as [Hsame|(_ & _ & m3 & i & Hcall & _ & _ & _ & _ & Hst)].
    + destruct (executeCommand_from _ _ _ _ m1) as [m3 [message|k]];
        cbn [fst] in Hsame; subst m3.
      * apply bind_Some in H as (s2 & Hstop & H). injection H as <- <-.
        cbn [outputStreamer set_outputStreamer m1] in *.
        eapply deaf_stopStreaming; [exact Hstop|].
        by apply deaf_offProcessOutput.
      * by injection H as <- <-.
    + rewrite Hcall in H. injection H as <- <-. by rewrite Hst.
  - apply fmap_Some in H as ([m2 b] & H & ->). by eapply deaf_killProcess.
  - unfold shutdown in H. destruct (isShuttingDown m); [by injection H as <-|].
    apply bind_Some in H as (m1 & Hkill & H).
    apply bind_Some in H as (s & Hshut & H). injection H as <-.
    cbn [outputStreamer set_outputStreamer set_processes set_childProcesses].
    apply (deaf_call (Streamer.Shutdown now) _ _ Hshut); [done|].
    by apply (deaf_kill_all _ _ _ _ Hkill).
  - unfold on_stdout_data in H.
    destruct (invocations m !! k) as [i|]; [|by injection H as <-].
    match type of H with
    | streamIfActive ?id (Streamer.streamOutput ?o) ?m0 = _ =>
        by apply (deaf_streamIfActive id (Streamer.StreamOutput o) m0 m' H)
    end.
  - unfold on_stderr_data in H.
    destruct (invocations m !! k) as [i|]; [|by injection H as <-].
    match type of H with
    | streamIfActive ?id (Streamer.streamOutput ?o) ?m0 = _ =>
        by apply (deaf_streamIfActive id (Streamer.StreamOutput o) m0 m' H)
    end.
  - unfold on_exit in H.
    destruct (invocations m !! k) as [i|]; [|by injection H as <-].
    apply bind_Some in H as (m1 & Hstream & H).
    assert (StreamerChecks.deaf (outputStreamer m1)) as Hd1.
    { match type of Hstream with
      | streamIfActive ?id (Streamer.streamProcessExit ?p ?c ?n) ?m0 = _ =>
          by apply (deaf_streamIfActive id (Streamer.StreamProcessExit p c n)
                      m0 m1 Hstream)
      end. }
    destruct (bool_decide _); by eapply deaf_settle.
  - unfold on_error in H.
    destruct (invocations m !! k) as [i|]; [|by injection H as <-].
    apply bind_Some in H as (m1 & Hstream & H).
    assert (StreamerChecks.deaf (outputStreamer m1)) as Hd1.
    { match type of Hstream with
      | streamIfActive ?id (Streamer.streamError ?p ?e ?n) ?m0 = _ =>
          by apply (deaf_streamIfActive id (Streamer.StreamError p e n)
                      m0 m1 Hstream)
      end. }
    by eapply deaf_settle.
  - unfold on_timeout in H.
    destruct (invocations m !! k) as [i|]; [|by injection H as <-].
    destruct (timeoutId i); [|by injection H as <-].
    by eapply deaf_settle.
  - injection H as <-. unfold on_forceKill.
    destruct (invocations m !! k) as [i|]; [|done].
    by destruct (forceKillTimer i).
Qed.

Lemma deaf_run ls m m' :
  run ls m = Some m' →
  StreamerChecks.deaf (outputStreamer m) → StreamerChecks.deaf (outputStreamer m').
Proof.
  revert m. induction ls as [|l ls IH]; intros m H Hd; simpl in H.
  { by injection H as <-. }
  apply bind_Some in H as (m1 & H1 & H).
  apply (IH m1 H). by eapply deaf_step.
Qed.

(** X27.  An error of the child while its output is streamed is not
    handled.  The manager never registers a listener for the [error]
    event of its streamer.  So in every run of a manager, when the
    child of an execution whose stream is open emits [error] (it could
    not be started, for instance), [streamError] makes the emitter
    throw inside the handler, after the deadline timer was cleared and
    before [reject] is reached: the handler does not return, and the
    promise of the execution is not rejected by it. *)
Theorem child_error_while_streaming_throws
    (config : PartialConfig) (cwd : string) (ls : list Label)
    (m : EnhancedClaudeManager) (k : nat) (i : Invocation)
    (message : string) (now : Z) :
  run ls (new config cwd) = Some m →
  invocations m !! k = Some i →
  Streamer.isStreaming (id_of i) (outputStreamer m) = true →
  Streamer.handlers_of "error" (outputStreamer m) = []
  ∧ on_error k message now m = None.
Proof.
  intros Hrun Hk Hstream.
  assert (Streamer.handlers_of "error" (outputStreamer m) = []) as Hnone.
  { apply StreamerMore.deaf_handlers. apply (deaf_run ls _ _ Hrun).
    intros h Hin. by apply elem_of_nil in Hin. }
  split; [done|].
  unfold on_error. rewrite Hk. unfold streamIfActive.
  cbn [outputStreamer update set_invocations].
  fold (id_of i). rewrite Hstream.
  destruct (StreamerMore.streamError_needs_an_error_listener_aux
              (outputStreamer m) (id_of i) message now) as [_ Hthrow].
  rewrite Hthrow; [done| |done].
  by apply StreamerFacts.isStreaming_spec.
Qed.

Lemma child_error_while_streaming_throws_witness :
  let command := Command.mk "a" "claude" ["-p"; "hello"] None None None in
  let m := default (new no_config "/home/user")
             (run [ExecuteStreamingCommand command 7%nat 0 (Some 41)]
                  (new no_config "/home/user")) in
  Streamer.handlers_of "error" (outputStreamer m) = []
  ∧ on_error 0 "spawn claude ENOENT" 1 m = None.
Proof.
  intros command m.
  assert (∃ i, invocations m !! 0%nat = Some i ∧ id_of i = "a") as (i & Hi & Hid).
  { vm_compute. eexists. split; reflexivity. }
  apply (child_error_while_streaming_throws no_config "/home/user"
           [ExecuteStreamingCommand command 7%nat 0 (Some 41)] m 0 i
           "spawn claude ENOENT" 1).
  - vm_compute. reflexivity.
  - exact Hi.
  - rewrite Hid. vm_compute. reflexivity.
Defined.

End ManagerMore.

(** * Runs of the manager *)

Module ManagerRunFacts.
Import Process Manager ManagerInv ManagerChecks ManagerRuns ManagerFacts ManagerMore.
Import StreamerCalls.

(** ** The calls that a step makes to the streamer *)

Lemma settle_calls k o now m m' :
  settle k o now m = Some m' →
  ∃ cs, Streamer.run cs (outputStreamer m) = Some (outputStreamer m')
        ∧ Forall (λ c, ∃ i, invocations m !! k = Some i
                            ∧ made_for (outputStreamer m) (id_of i) c
                            ∧ ¬ opens c) cs.
Proof.
  unfold settle. intros H.
  destruct (invocations m !! k) as [i|] eqn:Hk;
    [|injection H as <-; by exists []].
  destruct (settled i); [injection H as <-; by exists []|].
  destruct (onOutput i) as [handler|]; [|injection H as <-; by exists []].
  apply bind_Some in H as (s2 & Hstop & H). injection H as <-.
  cbn [outputStreamer update set_invocations set_outputStreamer
       set_childProcesses] in *.
  exists [Streamer.Off (Streamer.formatProcessEvent (outputStreamer m) "output"
                          (id_of i)) handler;
          Streamer.StopStreaming (id_of i) now].
  split.
  - cbn [Streamer.run Streamer.call]. unfold id_of.
    cbn beta iota delta [mbind option_bind].
    unfold Streamer.offProcessOutput in Hstop. by rewrite Hstop.
  - repeat constructor; exists i; by repeat split; auto.
Qed.

Lemma streamIfActive_calls id c m m' :
  streamIfActive id (Streamer.call c) m = Some m' →
  ∃ cs, Streamer.run cs (outputStreamer m) = Some (outputStreamer m')
        ∧ Forall (λ c', c' = c) cs.
Proof.
  unfold streamIfActive. destruct (Streamer.isStreaming _ _).
  - intros H. apply bind_Some in H as (s & Hs & [= <-]).
    exists [c]. split; [|by repeat constructor].
    cbn [Streamer.run]. by rewrite Hs.
  - intros [= <-]. by exists [].
Qed.

Lemma killProcess_calls processId now m m' b :
  killProcess processId now m = Some (m', b) →
  ∃ cs, Streamer.run cs (outputStreamer m) = Some (outputStreamer m')
        ∧ Forall (λ c, c = Streamer.StopStreaming processId now) cs.
Proof.
  intros H. destruct b.
  2:{ apply killProcess_false in H as ->. by exists []. }
  unfold killProcess in H.
  destruct (processes m !! processId) as [k|]; [|done].
  destruct (invocations m !! k) as [i|]; [|done].
  destruct (negb _); [done|].
  apply bind_Some in H as (s & Hstop & H). injection H as <-.
  cbn [outputStreamer set_outputStreamer update set_invocations] in *.
  exists [Streamer.StopStreaming processId now].
  split; [|by repeat constructor].
  cbn [Streamer.run Streamer.call].
  destruct (childProcesses m !! processId); simpl in Hstop; by rewrite Hstop.
Qed.

Lemma kill_all_calls ids now m m' :
  kill_all ids now m = Some m' →
  ∃ cs, Streamer.run cs (outputStreamer m) = Some (outputStreamer m')
        ∧ Forall (λ c, ∃ q, c = Streamer.StopStreaming q now) cs.
Proof.
  revert m. induction ids as [|p ids IH]; intros m H; simpl in H.
  { injection H as <-. by exists []. }
  apply bind_Some in H as ([m1 b] & H1 & H).
  destruct (killProcess_calls _ _ _ _ _ H1) as (cs1 & R1 & F1).
  destruct (IH m1 H) as (cs2 & R2 & F2).
  exists (cs1 ++ cs2). split.
  - rewrite StreamerCallFacts.calls_app, R1. exact R2.
  - apply Forall_app. split; [|done].
    eapply Forall_impl; [exact F1|]. intros c ->. by eexists.
Qed.

Lemma settle_calls_at k o now m0 m1 m' i q :
  settle k o now m1 = Some m' →
  invocations m1 !! k = Some i → id_of i = q →
  Streamer.eventNamingPattern (outputStreamer m1)
  = Streamer.eventNamingPattern (outputStreamer m0) →
  ∃ cs, Streamer.run cs (outputStreamer m1) = Some (outputStreamer m')
        ∧ Forall (λ c, made_for (outputStreamer m0) q c ∧ ¬ opens c) cs.
Proof.
  intros H Hk Hq He.
  destruct (settle_calls _ _ _ _ _ H) as (cs & Hrun & Hcs).
  exists cs. split; [done|].
  eapply Forall_impl; [exact Hcs|]. intros c (i' & Hk' & Hc & Ho).
  rewrite Hk in Hk'. injection Hk' as <-. rewrite Hq in Hc.
  split; [|done]. by apply (StreamerCallFacts.made_for_same (outputStreamer m1)).
Qed.

(** Every step of the manager acts on the streamer through calls of
    its methods. *)
Lemma step_calls l m m' :
  step l m = Some m' →
  ∃ cs, Streamer.run cs (outputStreamer m) = Some (outputStreamer m')
        ∧ Forall (acts_on l m) cs.
Proof.
  intros H.
  destruct l as [c now child_pid|c handler now child_pid|p now|now|k d now
                |k d now|k code signal now|k message now|k now|k]; simpl in H.
  - (* executeCommand *)
    injection H as <-. unfold executeCommand. exists [].
    split; [|done]. cbn [Streamer.run]. f_equal.
    destruct (executeCommand_from_cases None c now child_pid m)
      as [->|(_ & _ & m2 & i & Hcall & _ & _ & _ & _ & Hst)]; [done|].
    by rewrite Hcall.
  - (* executeStreamingCommand *)
    apply fmap_Some in H as ([m2 r] & H & ->). cbn [fst].
    unfold executeStreamingCommand in H.
    destruct (isShuttingDown m); [injection H as <- <-; by exists []|].
    apply bind_Some in H as (s1 & Hstart & H).
    assert (Streamer.formatProcessEvent s1 "output" (Command.id c)
            = Streamer.formatProcessEvent (outputStreamer m) "output"
                (Command.id c)) as Hname.
    { unfold Streamer.formatProcessEvent.
      by rewrite (StreamerCallFacts.call_eventNamingPattern
                    (Streamer.StartStreaming (Command.id c) now) _ _ Hstart). }
    set (name := Streamer.formatProcessEvent (outputStreamer m) "output"
                   (Command.id c)) in *.
    set (s2 := Streamer.onProcessOutput (Command.id c) handler s1) in H.
    assert (Streamer.run [Streamer.StartStreaming (Command.id c) now;
                          Streamer.On name handler] (outputStreamer m)
            = Some s2) as Hrun2.
    { cbn [Streamer.run Streamer.call]. rewrite Hstart.
      cbn beta iota delta [mbind option_bind]. unfold s2, Streamer.onProcessOutput.
      by rewrite Hname. }
    assert (Forall (acts_on (ExecuteStreamingCommand c handler now child_pid) m)
              [Streamer.StartStreaming (Command.id c) now;
               Streamer.On name handler]) as Hacts2
      by (by repeat constructor).
    destruct (executeCommand_from_cases (Some handler) c now child_pid
                (set_outputStreamer s2 m))
      as [Hsame|(_ & _ & m3 & i & Hcall & _ & _ & _ & _ & Hst)].
    + destruct (executeCommand_from _ _ _ _ (set_outputStreamer s2 m))
        as [m3 [message|k]]; cbn [fst] in Hsame; subst m3.
      * apply bind_Some in H as (s3 & Hstop & H). injection H as <- <-.
        cbn [outputStreamer set_outputStreamer] in *.
        exists ([Streamer.StartStreaming (Command.id c) now;
                 Streamer.On name handler]
                ++ [Streamer.Off name handler;
                    Streamer.StopStreaming (Command.id c) now]).
        split.
        -- rewrite StreamerCallFacts.calls_app, Hrun2.
           cbn [Streamer.run Streamer.call mbind option_bind].
           unfold Streamer.offProcessOutput in Hstop.
           assert (Streamer.formatProcessEvent s2 "output" (Command.id c) = name)
             as Hname2 by (by rewrite <- Hname).
           rewrite Hname2 in Hstop. by rewrite Hstop.
        -- apply Forall_app. split; [done|]. by repeat constructor.
      * injection H as <- <-. by eexists.
    + rewrite Hcall in H. injection H as <- <-. rewrite Hst. by eexists.
  - (* killProcess *)
    apply fmap_Some in H as ([m2 b] & H & ->). cbn [fst].
    destruct (killProcess_calls _ _ _ _ _ H) as (cs & Hrun & Hcs).
    exists cs. split; [done|].
    eapply Forall_impl; [exact Hcs|]. intros c ->. exists p.
    split; [done|]. split; [done|by intros []].
  - (* shutdown *)
    unfold shutdown in H.
    destruct (isShuttingDown m); [injection H as <-; by exists []|].
    apply bind_Some in H as (m1 & Hkill & H).
    apply bind_Some in H as (s & Hshut & H). injection H as <-.
    destruct (kill_all_calls _ _ _ _ Hkill) as (cs & Hrun & Hcs).
    cbn [outputStreamer set_isShuttingDown set_outputStreamer set_processes
         set_childProcesses] in *.
    exists (cs ++ [Streamer.Shutdown now]). split.
    + rewrite StreamerCallFacts.calls_app, Hrun.
      cbn [Streamer.run Streamer.call mbind option_bind]. by rewrite Hshut.
    + apply Forall_app. split.
      * eapply Forall_impl; [exact Hcs|]. intros c [q ->]. simpl. left. by eexists _, _.
      * apply Forall_singleton. simpl. right. by eexists.
  - (* stdout *)
    unfold on_stdout_data in H.
    destruct (invocations m !! k) as [i|] eqn:Hk; [|injection H as <-; by exists []].
    match type of H with
    | streamIfActive ?id (Streamer.streamOutput ?o) ?m0 = _ =>
        destruct (streamIfActive_calls id (Streamer.StreamOutput o) m0 m' H)
          as (cs & Hrun & Hcs)
    end.
    exists cs. split; [done|].
    eapply Forall_impl; [exact Hcs|]. intros c ->.
    exists (id_of i). cbn [subject]. rewrite Hk.
    split; [done|]. split; [|by intros []]. split; [done|by left].
  - (* stderr *)
    unfold on_stderr_data in H.
    destruct (invocations m !! k) as [i|] eqn:Hk; [|injection H as <-; by exists []].
    match type of H with
    | streamIfActive ?id (Streamer.streamOutput ?o) ?m0 = _ =>
        destruct (streamIfActive_calls id (Streamer.StreamOutput o) m0 m' H)
          as (cs & Hrun & Hcs)
    end.
    exists cs. split; [done|].
    eapply Forall_impl; [exact Hcs|]. intros c ->.
    exists (id_of i). cbn [subject]. rewrite Hk.
    split; [done|]. split; [|by intros []]. split; [done|by right].
  - (* exit *)
    unfold on_exit in H.
    destruct (invocations m !! k) as [i|] eqn:Hk; [|injection H as <-; by exists []].
    apply bind_Some in H as (m1 & Hstream & H).
    match type of Hstream with
    | streamIfActive ?id (Streamer.streamProcessExit ?p ?c ?n) ?m0 = _ =>
        destruct (streamIfActive_calls id (Streamer.StreamProcessExit p c n)
                    m0 m1 Hstream) as (cs1 & Hrun1 & Hcs1)
    end.
    cbn [outputStreamer update set_invocations] in Hrun1.
    assert (∃ o, settle k o now m1 = Some m') as [o Hsettle]
      by (destruct (bool_decide _); by eexists).
    destruct (settle_calls_at k o now m m1 m' (set_timeoutId None i) (id_of i) Hsettle)
      as (cs2 & Hrun2 & Hcs2).
    { destruct (streamIfActive_same _ _ _ _ Hstream) as (-> & _).
      cbn [update invocations set_invocations].
      by rewrite list_lookup_alter_eq, Hk. }
    { done. }
    { by apply (StreamerCallFacts.run_eventNamingPattern cs1). }
    exists (cs1 ++ cs2). split.
    + rewrite StreamerCallFacts.calls_app, Hrun1. exact Hrun2.
    + apply Forall_app. split.
      * eapply Forall_impl; [exact Hcs1|]. intros c ->.
        exists (id_of i). cbn [subject]. rewrite Hk.
        split; [done|]. split; [done|by intros []].
      * eapply Forall_impl; [exact Hcs2|]. intros c [Hc Ho].
        exists (id_of i). cbn [subject]. by rewrite Hk.
  - (* error *)
    unfold on_error in H.
    destruct (invocations m !! k) as [i|] eqn:Hk; [|injection H as <-; by exists []].
    apply bind_Some in H as (m1 & Hstream & Hsettle).
    match type of Hstream with
    | streamIfActive ?id (Streamer.streamError ?p ?e ?n) ?m0 = _ =>
        destruct (streamIfActive_calls id (Streamer.StreamError p e n)
                    m0 m1 Hstream) as (cs1 & Hrun1 & Hcs1)
    end.
    cbn [outputStreamer update set_invocations] in Hrun1.
    destruct (settle_calls_at k _ now m m1 m' (set_timeoutId None i) (id_of i) Hsettle)
      as (cs2 & Hrun2 & Hcs2).
    { destruct (streamIfActive_same _ _ _ _ Hstream) as (-> & _).
      cbn [update invocations set_invocations].
      by rewrite list_lookup_alter_eq, Hk. }
    { done. }
    { by apply (StreamerCallFacts.run_eventNamingPattern cs1). }
    exists (cs1 ++ cs2). split.
    + rewrite StreamerCallFacts.calls_app, Hrun1. exact Hrun2.
    + apply Forall_app. split.
      * eapply Forall_impl; [exact Hcs1|]. intros c ->.
        exists (id_of i). cbn [subject]. rewrite Hk.
        split; [done|]. split; [done|by intros []].
      * eapply Forall_impl; [exact Hcs2|]. intros c [Hc Ho].
        exists (id_of i). cbn [subject]. by rewrite Hk.
  - (* timeout *)
    unfold on_timeout in H.
    destruct (invocations m !! k) as [i|] eqn:Hk; [|injection H as <-; by exists []].
    destruct (timeoutId i); [|injection H as <-; by exists []].
    match type of H with
    | settle k ?o now ?m1 = _ =>
        destruct (settle_calls_at k o now m m1 m'
                    (kill "SIGTERM" (set_timeoutId None i)) (id_of i) H)
          as (cs & Hrun & Hcs)
    end.
    { cbn [update invocations set_invocations].
      by rewrite list_lookup_alter_eq, Hk. }
    { done. }
    { done. }
    exists cs. split; [done|].
    eapply Forall_impl; [exact Hcs|]. intros c [Hc Ho].
    exists (id_of i). cbn [subject]. by rewrite Hk.
  - (* forced kill *)
    injection H as <-. exists []. split; [|done].
    cbn [Streamer.run]. f_equal. unfold on_forceKill.
    destruct (invocations m !! k) as [i|]; [|done].
    by destruct (forceKillTimer i).
Qed.

Lemma acts_on_made_by_manager l m c :
  acts_on l m c → made_by_manager (outputStreamer m) c.
Proof.
  destruct l; simpl; try (intros (q & _ & Hc & _); left; by exists q).
  - intros Hc. left. by eexists.
  - intros [(q & now' & ->)|Hc]; [left; by exists q|by right].
Qed.


(** ** Reachable states *)

Lemma new_consistent config cwd : consistent (new config cwd).
Proof.
  split.
  - intros _ k i Hk. by destruct k.
  - intros p Hp. by apply elem_of_nil in Hp.
Qed.

Lemma consistent_frame m m' :
  consistent m → same_frame m m' →
  StreamerCalls.closes_only (outputStreamer m) (outputStreamer m') →
  consistent m'.
Proof.
  intros [Hinv Hopen] Hframe Hcl.
  pose proof Hframe as (Hp & Hs & _). split.
  - intros Hsd k i' Hk.
    destruct (same_frame_lookup m m' k i' Hframe Hk) as (i & Hi & <-).
    rewrite Hp. apply Hinv; [congruence|done].
  - intros p Hq. rewrite Hp. by apply Hopen, Hcl.
Qed.

Lemma spawn_consistent m m' i id :
  consistent m →
  isShuttingDown m = false → processes m !! id = None →
  id_of i = id →
  invocations m' = invocations m ++ [i] →
  processes m' = <[id := List.length (invocations m)]> (processes m) →
  (∀ p, p ∈ Streamer.activeStreams (outputStreamer m') →
        p ∈ Streamer.activeStreams (outputStreamer m) ∨ p = id) →
  consistent m'.
Proof.
  intros [Hinv Hopen] Hsd Hnone Hid Hi Hp Hact. split.
  - intros _ k i' Hk. rewrite Hp. rewrite Hi in Hk.
    apply lookup_app_Some in Hk as [Hk|[Hlen Hk]].
    + pose proof (Hinv Hsd k i' Hk) as Htracked.
      rewrite lookup_insert_ne; [done|]. intros E. congruence.
    + apply list_lookup_singleton_Some in Hk as [Hk <-].
      rewrite Hid, lookup_insert_eq. f_equal. lia.
  - intros p Hq. rewrite Hp, lookup_insert_is_Some.
    destruct (Hact p Hq) as [Hq'| ->]; [|by left].
    destruct (decide (id = p)); [by left|right]. split; [done|by apply Hopen].
Qed.

Lemma startStreaming_active p now s s' q :
  Streamer.startStreaming p now s = Some s' →
  q ∈ Streamer.activeStreams s' → q ∈ Streamer.activeStreams s ∨ q = p.
Proof.
  unfold Streamer.startStreaming.
  destruct (Streamer.active_has p s) eqn:E; [intros [= <-]; by left|].
  intros H. apply StreamerFacts.emit_Some in H as ->.
  unfold Streamer.active_set. rewrite E. simpl.
  intros [Hq|Hq]%elem_of_app; [by left|right].
  by apply list_elem_of_singleton in Hq.
Qed.

Lemma executeStreamingCommand_consistent command handler now child_pid m m' r :
  consistent m →
  executeStreamingCommand command handler now child_pid m = Some (m', r) →
  consistent m'.
Proof.
  intros Hm H. unfold executeStreamingCommand in H.
  destruct (isShuttingDown m) eqn:Hs; [by injection H as <- _|].
  apply bind_Some in H as (s1 & Hstart & H).
  set (s2 := Streamer.onProcessOutput (Command.id command) handler s1) in H.
  assert (∀ p, p ∈ Streamer.activeStreams s2 →
               p ∈ Streamer.activeStreams (outputStreamer m)
               ∨ p = Command.id command) as Hact2.
  { intros p Hp. by apply (startStreaming_active _ _ _ _ _ Hstart). }
  destruct (executeCommand_from_cases (Some handler) command now child_pid
              (set_outputStreamer s2 m))
    as [Hsame|(_ & Hid & m2 & i & Hcall & Hidi & Hi & Hp & Hsd & Hst)].
  - destruct (executeCommand_from (Some handler) command now child_pid
                (set_outputStreamer s2 m)) as [m2 [message|k]] eqn:Hcall;
      simpl in Hsame; subst m2.
    + apply bind_Some in H as (s3 & Hstop & H). injection H as <- _.
      cbn [outputStreamer set_outputStreamer] in Hstop.
      apply (consistent_frame m); [done|by repeat split|].
      intros p Hq. cbn [outputStreamer set_outputStreamer] in Hq.
      apply (StreamerMore.stopStreaming_active _ _ _ _ _ Hstop) in Hq as [Hq Hne].
      by destruct (Hact2 p Hq).
    + injection H as <- _.
      unfold executeCommand_from in Hcall.
      cbn [isShuttingDown set_outputStreamer] in Hcall. rewrite Hs in Hcall.
      repeat case_match; simplify_eq.
      exfalso.
      match goal with
      | H : spawnClaudeProcess _ _ _ _ _ = _ |- _ =>
          apply (f_equal (λ x, List.length (invocations x.1))) in H;
            simpl in H; rewrite length_app in H; simpl in H; lia
      end.
  - rewrite Hcall in H. injection H as <- _.
    apply (spawn_consistent m m2 i (Command.id command)); try done.
    intros p Hq. rewrite Hst in Hq. by apply Hact2.
Qed.

Lemma step_frame l m m' :
  step l m = Some m' →
  match l with
  | ExecuteCommand _ _ _ | ExecuteStreamingCommand _ _ _ _ | Shutdown _ => True
  | _ => same_frame m m'
  end.
Proof.
  intros H.
  destruct l as [c now child_pid|c handler now child_pid|p now|now|k d now
                |k d now|k code signal now|k message now|k now|k];
    simpl in H; try done.
  - apply fmap_Some in H as ([m2 b] & H & ->). by eapply killProcess_frame.
  - unfold on_stdout_data in H.
    destruct (invocations m !! k) as [i|]; [|injection H as <-; apply same_frame_refl].
    destruct (streamIfActive_frame _ _ _ _ H) as [F _].
    eapply same_frame_trans; [|exact F]. by apply same_frame_update.
  - unfold on_stderr_data in H.
    destruct (invocations m !! k) as [i|]; [|injection H as <-; apply same_frame_refl].
    destruct (streamIfActive_frame _ _ _ _ H) as [F _].
    eapply same_frame_trans; [|exact F]. by apply same_frame_update.
  - unfold on_exit in H.
    destruct (invocations m !! k) as [i|]; [|injection H as <-; apply same_frame_refl].
    apply bind_Some in H as (m1 & Hstream & H).
    destruct (streamIfActive_frame _ _ _ _ Hstream) as [F _].
    assert (∃ o, settle k o now m1 = Some m') as [o Hsettle]
      by (destruct (bool_decide _); by eexists).
    apply (same_frame_trans _ (update k (set_timeoutId None) m));
      [by apply same_frame_update|].
    eapply same_frame_trans; [exact F|]. by eapply settle_frame.
  - unfold on_error in H.
    destruct (invocations m !! k) as [i|]; [|injection H as <-; apply same_frame_refl].
    apply bind_Some in H as (m1 & Hstream & H).
    destruct (streamIfActive_frame _ _ _ _ Hstream) as [F _].
    apply (same_frame_trans _ (update k (set_timeoutId None) m));
      [by apply same_frame_update|].
    eapply same_frame_trans; [exact F|]. by eapply settle_frame.
  - unfold on_timeout in H.
    destruct (invocations m !! k) as [i|]; [|injection H as <-; apply same_frame_refl].
    destruct (timeoutId i); [|injection H as <-; apply same_frame_refl].
    match type of H with
    | settle _ _ _ ?m1 = _ => apply (same_frame_trans _ m1)
    end; [by apply same_frame_update|by eapply settle_frame].
  - injection H as <-. unfold on_forceKill.
    destruct (invocations m !! k) as [i|]; [|apply same_frame_refl].
    destruct (forceKillTimer i); [|apply same_frame_refl].
    apply same_frame_update. intros i0. simpl. by destruct (negb _).
Qed.

Lemma step_closes_only l m m' :
  step l m = Some m' →
  (∀ c h now child_pid, l ≠ ExecuteStreamingCommand c h now child_pid) →
  StreamerCalls.closes_only (outputStreamer m) (outputStreamer m').
Proof.
  intros H Hl. destruct (step_calls l m m' H) as (cs & Hrun & Hcs).
  apply (StreamerCallFacts.run_closes_only cs); [|done].
  eapply Forall_impl; [exact Hcs|]. intros c Hc p now ->.
  destruct l as [c0 now0 child_pid|c0 handler now0 child_pid|p0 now0|now0|k d now0
                |k d now0|k code signal now0|k message now0|k now0|k];
    simpl in Hc; try (destruct Hc as (q & _ & _ & Ho); by apply Ho).
  - by destruct (Hl c0 handler now0 child_pid).
  - by destruct Hc as [(q & now' & [=])|(now' & [=])].
Qed.

(** Every step keeps a manager consistent. *)
Lemma step_consistent l m m' : consistent m → step l m = Some m' → consistent m'.
Proof.
  intros Hm H.
  pose proof (step_frame l m m' H) as Hframe.
  destruct l as [c now child_pid|c handler now child_pid|p now|now|k d now
                |k d now|k code signal now|k message now|k now|k];
    try (apply (consistent_frame m); [done|done|by apply (step_closes_only _ _ _ H)]).
  - (* executeCommand *)
    simpl in H. injection H as <-. unfold executeCommand.
    destruct (executeCommand_from_cases None c now child_pid m)
      as [->|(Hsd & Hnone & m2 & i & Hcall & Hidi & Hi & Hp & _ & Hst)]; [done|].
    rewrite Hcall. cbn [fst].
    apply (spawn_consistent m m2 i (Command.id c)); try done.
    intros p Hq. left. by rewrite Hst in Hq.
  - (* executeStreamingCommand *)
    simpl in H. apply fmap_Some in H as ([m2 r] & H & ->).
    by apply (executeStreamingCommand_consistent _ _ _ _ _ _ _ Hm H).
  - (* shutdown *)
    simpl in H. unfold shutdown in H.
    destruct (isShuttingDown m) eqn:Hs; [by injection H as <-|].
    apply bind_Some in H as (m1 & Hkill & H).
    apply bind_Some in H as (s & Hshut & H). injection H as <-.
    destruct (kill_all_frame _ _ _ _ Hkill) as (_ & E & _).
    split.
    + cbn [isShuttingDown set_childProcesses set_processes set_outputStreamer].
      rewrite E. done.
    + intros p Hq. exfalso.
      cbn [outputStreamer set_childProcesses set_processes set_outputStreamer] in Hq.
      destruct (StreamerMore.shutdown_leaves_an_empty_streamer_aux
                  (outputStreamer m1) now) as (s2 & H2 & Hnone).
      rewrite Hshut in H2. injection H2 as <-.
      unfold Streamer.getActiveStreams in Hnone. rewrite Hnone in Hq.
      by apply elem_of_nil in Hq.
Qed.

Lemma run_consistent ls m m' : consistent m → run ls m = Some m' → consistent m'.
Proof.
  revert m. induction ls as [|l ls IH]; intros m Hm H; simpl in H.
  { by injection H as <-. }
  apply bind_Some in H as (m1 & H1 & H).
  apply (IH m1); [|done]. by apply (step_consistent l m).
Qed.


(** ** What the listeners hear *)

Lemma made_by_manager_same s0 s1 c :
  Streamer.eventNamingPattern s1 = Streamer.eventNamingPattern s0 →
  made_by_manager s0 c → made_by_manager s1 c.
Proof.
  intros He [[q Hc]|Hc]; [left|by right].
  exists q. by apply (StreamerCallFacts.made_for_same s0).
Qed.

(** A run of the manager acts on the streamer through calls of its
    methods. *)
Lemma run_calls ls m m' :
  run ls m = Some m' →
  ∃ cs, Streamer.run cs (outputStreamer m) = Some (outputStreamer m')
        ∧ Forall (made_by_manager (outputStreamer m)) cs.
Proof.
  revert m. induction ls as [|l ls IH]; intros m H; simpl in H.
  { injection H as <-. by exists []. }
  apply bind_Some in H as (m1 & H1 & H).
  destruct (step_calls l m m1 H1) as (cs1 & R1 & F1).
  destruct (IH m1 H) as (cs2 & R2 & F2).
  exists (cs1 ++ cs2). split.
  - rewrite StreamerCallFacts.calls_app, R1. exact R2.
  - apply Forall_app. split.
    + eapply Forall_impl; [exact F1|]. apply acts_on_made_by_manager.
    + eapply Forall_impl; [exact F2|]. intros c.
      apply made_by_manager_same. symmetry.
      by apply (StreamerCallFacts.run_eventNamingPattern cs1).
Qed.

(** X28.  Through the manager, listeners hear output only.  In every
    run of a manager, every listener of its streamer is registered for
    the output event of a process, as [executeStreamingCommand]
    registers [onOutput], and every call made to a listener carried a
    stdout or stderr event.  No exit event, no error event and no
    notification that a stream started or stopped is delivered to
    anyone; the caller learns of the end of a process from the promise
    alone. *)
Theorem listeners_hear_output_only
    (config : PartialConfig) (cwd : string) (ls : list Label)
    (m : EnhancedClaudeManager) :
  run ls (new config cwd) = Some m →
  (∀ name h, (name, h) ∈ Streamer.listeners (outputStreamer m) →
             ∃ p, name = "output:" +:+ p)
  ∧ (∀ h payload, (h, payload) ∈ Streamer.delivered (outputStreamer m) →
       ∃ e, payload = Streamer.Event e
            ∧ (Streamer.type e = Streamer.stdout
               ∨ Streamer.type e = Streamer.stderr))
  ∧ (∀ p, ¬ StreamerInv.exit_seen p (Streamer.delivered (outputStreamer m))).
Proof.
  intros Hrun. destruct (run_calls _ _ _ Hrun) as (cs & Hcs & Hby).
  assert (hears_chunks_only (outputStreamer m)) as [Hnames Hlog].
  { apply (StreamerCallFacts.run_hears_chunks_only _ cs _ _ eq_refl Hby);
      [|done].
    split; intros ? ? Hin; by apply elem_of_nil in Hin. }
  assert (Streamer.eventNamingPattern (outputStreamer m) = Streamer.colon) as Hcolon
    by (by rewrite (StreamerCallFacts.run_eventNamingPattern _ _ _ Hcs)).
  split; [|split].
  - intros name h Hin. destruct (Hnames name h Hin) as [p ->]. exists p.
    unfold Streamer.formatProcessEvent. by rewrite Hcolon.
  - exact Hlog.
  - intros p Hseen. apply Exists_exists in Hseen as ([h pl] & Hin & e & He & _ & Ht).
    simpl in He. subst pl.
    destruct (Hlog h _ Hin) as (e' & [= <-] & [Ho|Ho]); congruence.
Qed.

Lemma listeners_hear_output_only_witness :
  let a := Command.mk "a" "claude" ["-p"; "hello"] None None None in
  let b := Command.mk "b" "claude" ["-p"; "other"] None None None in
  let m := default (new no_config "/home/user")
             (run [ExecuteStreamingCommand a 7%nat 0 (Some 41);
                   StdoutData 0 "Hel" 1; StderrData 0 "warn" 2;
                   ExecuteStreamingCommand b 8%nat 3 (Some 42);
                   ChildExit 0 (Some 0) None 4; StdoutData 0 "late" 5]
                  (new no_config "/home/user")) in
  Streamer.listeners (outputStreamer m) = [("output:b", 8%nat)]
  ∧ Streamer.delivered (outputStreamer m)
    = [ (7%nat, Streamer.Event
           {| Streamer.processId := "a"; Streamer.type := Streamer.stdout;
              Streamer.data := "Hel"; Streamer.timestamp := 1;
              Streamer.exitCode := None |});
        (7%nat, Streamer.Event
           {| Streamer.processId := "a"; Streamer.type := Streamer.stderr;
              Streamer.data := "warn"; Streamer.timestamp := 2;
              Streamer.exitCode := None |}) ]
  ∧ (∀ name h, (name, h) ∈ Streamer.listeners (outputStreamer m) →
               ∃ p, name = "output:" +:+ p)
  ∧ (∀ h payload, (h, payload) ∈ Streamer.delivered (outputStreamer m) →
       ∃ e, payload = Streamer.Event e
            ∧ (Streamer.type e = Streamer.stdout
               ∨ Streamer.type e = Streamer.stderr))
  ∧ (∀ p, ¬ StreamerInv.exit_seen p (Streamer.delivered (outputStreamer m))).
Proof.
  intros a b m. split; [by vm_compute|]. split; [by vm_compute|].
  apply (listeners_hear_output_only no_config "/home/user"
           [ExecuteStreamingCommand a 7%nat 0 (Some 41);
            StdoutData 0 "Hel" 1; StderrData 0 "warn" 2;
            ExecuteStreamingCommand b 8%nat 3 (Some 42);
            ChildExit 0 (Some 0) None 4; StdoutData 0 "late" 5] m).
  vm_compute. reflexivity.
Defined.


(** ** An execution that is left alone *)

Lemma same_call_refl k m : same_call k m m.
Proof. intros i Hk. by exists i. Qed.

Lemma same_call_trans k m1 m2 m3 :
  same_call k m1 m2 → same_call k m2 m3 → same_call k m1 m3.
Proof.
  intros H1 H2 i Hk. destruct (H1 i Hk) as (i1 & Hk1 & A1 & B1 & C1 & D1).
  destruct (H2 i1 Hk1) as (i2 & Hk2 & A2 & B2 & C2 & D2).
  exists i2. split; [done|]. repeat split; congruence.
Qed.

Lemma same_call_same k m m' :
  invocations m' = invocations m → same_call k m m'.
Proof. intros E i Hk. exists i. by rewrite E. Qed.

Lemma same_call_app k m m' i :
  invocations m' = invocations m ++ [i] → same_call k m m'.
Proof.
  intros E x Hk. exists x. split; [|done]. rewrite E.
  by apply lookup_app_l_Some.
Qed.

Lemma same_call_update_other k j f m : j ≠ k → same_call k m (update j f m).
Proof.
  intros Hne i Hk. exists i. split; [|done].
  cbn [update invocations set_invocations]. by rewrite list_lookup_alter_ne.
Qed.

Lemma same_call_update_fields k j f m :
  (∀ x, id_of (f x) = id_of x ∧ settled (f x) = settled x
        ∧ onOutput (f x) = onOutput x ∧ output (f x) = output x) →
  same_call k m (update j f m).
Proof.
  intros Hf i Hk. cbn [update invocations set_invocations].
  rewrite list_lookup_alter. destruct (decide (j = k)) as [->|Hne].
  - rewrite Hk. eexists. split; [done|]. apply Hf.
  - by exists i.
Qed.

Lemma settle_same_call k j o now m m' :
  j ≠ k → settle j o now m = Some m' → same_call k m m'.
Proof.
  intros Hne H. unfold settle in H.
  destruct (invocations m !! j) as [i|]; [|injection H as <-; apply same_call_refl].
  destruct (settled i); [injection H as <-; apply same_call_refl|].
  match type of H with
  | context [set_childProcesses ?c (update j ?f m)] =>
      set (m1 := set_childProcesses c (update j f m)) in H;
      assert (same_call k m m1) as H1
        by (eapply same_call_trans;
              [by apply (same_call_update_other k j f)|by apply same_call_same])
  end.
  destruct (onOutput i) as [handler|]; [|by injection H as <-].
  apply bind_Some in H as (s2 & Hstop & H). injection H as <-.
  eapply same_call_trans; [exact H1|].
  eapply same_call_trans; [|by apply same_call_update_other].
  by apply same_call_same.
Qed.

Lemma killProcess_same_call k processId now m m' b :
  killProcess processId now m = Some (m', b) → same_call k m m'.
Proof.
  intros H. destruct b.
  2:{ apply killProcess_false in H as ->. apply same_call_refl. }
  unfold killProcess in H.
  destruct (processes m !! processId) as [j|]; [|done].
  destruct (invocations m !! j) as [i|]; [|done].
  destruct (negb _); [done|].
  apply bind_Some in H as (s & Hstop & H). injection H as <-.
  set (m1 := match childProcesses m !! processId with
             | Some c => _ | None => m end) in *.
  assert (same_call k m m1) as H1.
  { unfold m1. destruct (childProcesses m !! processId) as [c|];
      [|apply same_call_refl].
    eapply same_call_trans; [|by apply same_call_same].
    by apply same_call_update_fields. }
  eapply same_call_trans; [exact H1|].
  eapply same_call_trans; [|by apply same_call_same].
  by apply same_call_update_fields.
Qed.

Lemma kill_all_same_call k ids now m m' :
  kill_all ids now m = Some m' → same_call k m m'.
Proof.
  revert m. induction ids as [|p ids IH]; intros m H; simpl in H.
  { injection H as <-. apply same_call_refl. }
  apply bind_Some in H as ([m1 b] & H1 & H).
  eapply same_call_trans; [by eapply killProcess_same_call|by apply IH].
Qed.

Lemma executeCommand_from_same_call k onOutput command now child_pid m :
  same_call k m (executeCommand_from onOutput command now child_pid m).1.
Proof.
  destruct (executeCommand_from_cases onOutput command now child_pid m)
    as [->|(_ & _ & m2 & i & -> & _ & Hi & _)]; [apply same_call_refl|].
  by apply (same_call_app k m m2 i).
Qed.

(** A step other than a stdout chunk of the child of invocation [k],
    its end or its deadline leaves the call as it is. *)
Lemma step_same_call k l m m' :
  step l m = Some m' →
  match l with
  | StdoutData j _ _ | ChildExit j _ _ _ | ChildError j _ _
  | TimeoutFires j _ => j ≠ k
  | _ => True
  end →
  same_call k m m'.
Proof.
  intros H Hl.
  destruct l as [c now child_pid|c handler now child_pid|p now|now|j d now
                |j d now|j code signal now|j message now|j now|j]; simpl in H.
  - injection H as <-. apply executeCommand_from_same_call.
  - apply fmap_Some in H as ([m2 r] & H & ->). cbn [fst].
    unfold executeStreamingCommand in H.
    destruct (isShuttingDown m); [injection H as <- _; apply same_call_refl|].
    apply bind_Some in H as (s1 & _ & H).
    match type of H with
    | context [executeCommand_from ?h c now child_pid ?m1] =>
        pose proof (executeCommand_from_same_call k h c now child_pid m1) as Hc;
        destruct (executeCommand_from h c now child_pid m1) as [m3 [message|k']]
    end; cbn [fst] in Hc.
    + apply bind_Some in H as (s3 & _ & H). injection H as <- _.
      eapply same_call_trans; [|by apply same_call_same].
      eapply same_call_trans; [|exact Hc]. by apply same_call_same.
    + injection H as <- _.
      eapply same_call_trans; [|exact Hc]. by apply same_call_same.
  - apply fmap_Some in H as ([m2 b] & H & ->). by eapply killProcess_same_call.
  - unfold shutdown in H.
    destruct (isShuttingDown m); [injection H as <-; apply same_call_refl|].
    apply bind_Some in H as (m1 & Hkill & H).
    apply bind_Some in H as (s & _ & H). injection H as <-.
    eapply same_call_trans; [by apply (same_call_same k m (set_isShuttingDown true m))|].
    eapply same_call_trans; [by eapply kill_all_same_call|].
    by apply same_call_same.
  - unfold on_stdout_data in H.
    destruct (invocations m !! j) as [i|]; [|injection H as <-; apply same_call_refl].
    destruct (streamIfActive_same _ _ _ _ H) as (E & _).
    match type of H with
    | streamIfActive _ _ ?m0 = _ => apply (same_call_trans _ _ m0)
    end; [by apply same_call_update_other|by apply same_call_same].
  - unfold on_stderr_data in H.
    destruct (invocations m !! j) as [i|]; [|injection H as <-; apply same_call_refl].
    destruct (streamIfActive_same _ _ _ _ H) as (E & _).
    match type of H with
    | streamIfActive _ _ ?m0 = _ => apply (same_call_trans _ _ m0)
    end; [by apply same_call_update_fields|by apply same_call_same].
  - unfold on_exit in H.
    destruct (invocations m !! j) as [i|]; [|injection H as <-; apply same_call_refl].
    apply bind_Some in H as (m1 & Hstream & H).
    destruct (streamIfActive_same _ _ _ _ Hstream) as (E & _).
    assert (∃ o, settle j o now m1 = Some m') as [o Hsettle]
      by (destruct (bool_decide _); by eexists).
    apply (same_call_trans _ _ (update j (set_timeoutId None) m));
      [by apply same_call_update_other|].
    eapply same_call_trans; [by apply same_call_same|].
    by eapply settle_same_call.
  - unfold on_error in H.
    destruct (invocations m !! j) as [i|]; [|injection H as <-; apply same_call_refl].
    apply bind_Some in H as (m1 & Hstream & H).
    destruct (streamIfActive_same _ _ _ _ Hstream) as (E & _).
    apply (same_call_trans _ _ (update j (set_timeoutId None) m));
      [by apply same_call_update_other|].
    eapply same_call_trans; [by apply same_call_same|].
    by eapply settle_same_call.
  - unfold on_timeout in H.
    destruct (invocations m !! j) as [i|]; [|injection H as <-; apply same_call_refl].
    destruct (timeoutId i); [|injection H as <-; apply same_call_refl].
    match type of H with
    | settle _ _ _ ?m1 = _ => apply (same_call_trans _ _ m1)
    end; [by apply same_call_update_other|by eapply settle_same_call].
  - injection H as <-. unfold on_forceKill.
    destruct (invocations m !! j) as [i|]; [|apply same_call_refl].
    destruct (forceKillTimer i); [|apply same_call_refl].
    apply same_call_update_fields. intros x. simpl. by destruct (negb _).
Qed.

(** What one undisturbed step makes of the call: the text accumulated
    grows by the stdout chunk of its child, if the step is one. *)
Lemma step_pending k l m m' i :
  step l m = Some m' →
  invocations m !! k = Some i →
  undisturbed (id_of i) k l →
  ∃ i', invocations m' !! k = Some i'
        ∧ id_of i' = id_of i ∧ settled i' = settled i
        ∧ onOutput i' = onOutput i
        ∧ output i' = output i +:+ Js.join "" (stdout_of k l).
Proof.
  intros H Hk Hl.
  assert (∀ l0, step l0 m = Some m' → stdout_of k l0 = [] →
                match l0 with
                | StdoutData j _ _ | ChildExit j _ _ _ | ChildError j _ _
                | TimeoutFires j _ => j ≠ k
                | _ => True
                end →
                ∃ i', invocations m' !! k = Some i'
                      ∧ id_of i' = id_of i ∧ settled i' = settled i
                      ∧ onOutput i' = onOutput i
                      ∧ output i' = output i +:+ Js.join "" (stdout_of k l0))
    as Hsame.
  { intros l0 H0 -> Hl0.
    destruct (step_same_call k l0 m m' H0 Hl0 i Hk) as (i' & Hk' & A & B & C & D).
    exists i'. split; [done|]. repeat split; try done.
    by rewrite D, append_nil_r. }
  destruct l as [c now child_pid|c handler now child_pid|p now|now|j d now
                |j d now|j code signal now|j message now|j now|j];
    try (by apply Hsame).
  destruct (decide (j = k)) as [->|Hne].
  - simpl in H. unfold on_stdout_data in H. rewrite Hk in H.
    destruct (streamIfActive_same _ _ _ _ H) as (E & _).
    rewrite E. cbn [update invocations set_invocations].
    rewrite list_lookup_alter_eq, Hk. eexists. split; [done|].
    cbn [stdout_of]. rewrite decide_True by done. done.
  - apply Hsame; [done| |done]. cbn [stdout_of]. by rewrite decide_False.
Qed.


Lemma step_isShuttingDown l m m' :
  step l m = Some m' → (∀ now, l ≠ Shutdown now) →
  isShuttingDown m' = isShuttingDown m.
Proof.
  intros H Hl. pose proof (step_frame l m m' H) as Hframe.
  destruct l as [c now child_pid|c handler now child_pid|p now|now|j d now
                |j d now|j code signal now|j message now|j now|j];
    try (by destruct Hframe as (_ & ? & _)); simpl in H.
  - injection H as <-. unfold executeCommand.
    destruct (executeCommand_from_cases None c now child_pid m)
      as [->|(Hsd & _ & m2 & i & -> & _ & _ & _ & Hsd' & _)]; [done|].
    cbn [fst]. congruence.
  - apply fmap_Some in H as ([m2 r] & H & ->). cbn [fst].
    unfold executeStreamingCommand in H.
    destruct (isShuttingDown m) eqn:Hs; [by injection H as <- _|].
    apply bind_Some in H as (s1 & _ & H).
    match type of H with
    | context [executeCommand_from ?h c now child_pid ?m1] =>
        destruct (executeCommand_from_cases h c now child_pid m1)
          as [Hsame|(_ & _ & m3 & i & Hcall & _ & _ & _ & Hsd' & _)]
    end.
    + destruct (executeCommand_from _ _ _ _ _) as [m3 [message|k']];
        cbn [fst] in Hsame; subst m3.
      * apply bind_Some in H as (s3 & _ & H). by injection H as <- _.
      * by injection H as <- _.
    + rewrite Hcall in H. by injection H as <- _.
  - by destruct (Hl now).
Qed.

(** Unless the manager is shutting down, two invocations have two
    ids. *)
Lemma distinct_ids m k j i x :
  consistent m → isShuttingDown m = false →
  invocations m !! k = Some i → invocations m !! j = Some x → j ≠ k →
  id_of x ≠ id_of i.
Proof.
  intros [Hinv _] Hs Hk Hj Hne E.
  pose proof (Hinv Hs k i Hk) as H1. pose proof (Hinv Hs j x Hj) as H2.
  rewrite E in H2. congruence.
Qed.

(** What one undisturbed step makes of the stream of the call: it
    stays open, and its buffer receives the chunk of the child, if the
    step is one. *)
Lemma step_stream k l m m' i acc :
  consistent m → isShuttingDown m = false →
  step l m = Some m' →
  invocations m !! k = Some i →
  undisturbed (id_of i) k l →
  id_of i ∈ Streamer.activeStreams (outputStreamer m) →
  Streamer.buffers (outputStreamer m) !! id_of i
  = Some (StreamerChecks.last_chunks
            (Streamer.maxBufferSize (outputStreamer m)) acc) →
  id_of i ∈ Streamer.activeStreams (outputStreamer m')
  ∧ Streamer.buffers (outputStreamer m') !! id_of i
    = Some (StreamerChecks.last_chunks
              (Streamer.maxBufferSize (outputStreamer m))
              (acc ++ output_of k l))
  ∧ Streamer.maxBufferSize (outputStreamer m')
    = Streamer.maxBufferSize (outputStreamer m).
Proof.
  intros Hm Hs H Hk Hl Hopen Hbuf.
  set (p := id_of i) in *.
  assert (∀ l0, step l0 m = Some m' → output_of k l0 = [] →
                (∀ c, acts_on l0 m c →
                      ∃ q, q ≠ p ∧ made_for (outputStreamer m) q c) →
                p ∈ Streamer.activeStreams (outputStreamer m')
                ∧ Streamer.buffers (outputStreamer m') !! p
                  = Some (StreamerChecks.last_chunks
                            (Streamer.maxBufferSize (outputStreamer m))
                            (acc ++ output_of k l0))
                ∧ Streamer.maxBufferSize (outputStreamer m')
                  = Streamer.maxBufferSize (outputStreamer m)) as Hother.
  { intros l0 H0 -> Hacts. rewrite app_nil_r.
    destruct (step_calls l0 m m' H0) as (cs & Hrun & Hcs).
    assert (Forall (λ c, ∃ q, q ≠ p ∧ made_for (outputStreamer m) q c) cs)
      as Hcs' by (eapply Forall_impl; [exact Hcs|exact Hacts]).
    destruct (StreamerCallFacts.run_untouched _ p cs _ _ Hcs' Hrun)
      as (A & B & C).
    split; [by apply A|]. split; [by rewrite B|done]. }
  assert (∀ j, j ≠ k → ∀ q, id_of <$> invocations m !! j = Some q → q ≠ p)
    as Hids.
  { intros j Hne q Hq. apply fmap_Some in Hq as (x & Hj & ->).
    by apply (distinct_ids m k j i x). }
  assert (∀ o m0, Streamer.processId o = p → StreamerInv.is_chunk o →
               outputStreamer m0 = outputStreamer m →
               streamIfActive p (Streamer.streamOutput o) m0 = Some m' →
               p ∈ Streamer.activeStreams (outputStreamer m')
               ∧ Streamer.buffers (outputStreamer m') !! p
                 = Some (StreamerChecks.last_chunks
                           (Streamer.maxBufferSize (outputStreamer m))
                           (acc ++ [Streamer.data o]))
               ∧ Streamer.maxBufferSize (outputStreamer m')
                 = Streamer.maxBufferSize (outputStreamer m)) as Hchunk.
  { intros o m0 Ho Hc E Hstream. unfold streamIfActive in Hstream.
    rewrite E in Hstream.
    rewrite (proj2 (StreamerFacts.isStreaming_spec _ _) Hopen) in Hstream.
    destruct (StreamerCallFacts.streamOutput_open o (outputStreamer m)
                (StreamerChecks.last_chunks
                   (Streamer.maxBufferSize (outputStreamer m)) acc) Hc)
      as (s' & Hso & A & B & C); [by rewrite Ho|by rewrite Ho|].
    rewrite Hso in Hstream. injection Hstream as <-.
    cbn [outputStreamer set_outputStreamer]. rewrite Ho in A, B.
    split; [done|]. split; [|done].
    by rewrite B, StreamerMore.last_chunks_snoc. }
  destruct l as [c now child_pid|c handler now child_pid|q now|now|j d now
                |j d now|j code signal now|j message now|j now|j];
    simpl in Hl.
  - apply Hother; [done|done|]. by intros c0 (q & [=] & _).
  - apply Hother; [done|done|]. intros c0 Hc. by exists (Command.id c).
  - apply Hother; [done|done|]. intros c0 (q' & [= <-] & Hc & _). by exists q.
  - done.
  - destruct (decide (j = k)) as [->|Hne].
    + simpl in H. unfold on_stdout_data in H. rewrite Hk in H.
      cbn [output_of]. rewrite decide_True by done.
      refine (Hchunk _ _ _ _ _ H); [done|by left|done].
    + apply Hother; [done|by cbn [output_of]; rewrite decide_False|].
      intros c0 (q & Hq & Hc & _). exists q. split; [by apply (Hids j)|done].
  - destruct (decide (j = k)) as [->|Hne].
    + simpl in H. unfold on_stderr_data in H. rewrite Hk in H.
      cbn [output_of]. rewrite decide_True by done.
      refine (Hchunk _ _ _ _ _ H); [done|by right|done].
    + apply Hother; [done|by cbn [output_of]; rewrite decide_False|].
      intros c0 (q & Hq & Hc & _). exists q. split; [by apply (Hids j)|done].
  - apply Hother; [done|done|].
    intros c0 (q & Hq & Hc & _). exists q. split; [by apply (Hids j)|done].
  - apply Hother; [done|done|].
    intros c0 (q & Hq & Hc & _). exists q. split; [by apply (Hids j)|done].
  - apply Hother; [done|done|].
    intros c0 (q & Hq & Hc & _). exists q. split; [by apply (Hids j)|done].
  - apply Hother; [done|done|]. by intros c0 (q & [=] & _).
Qed.


Lemma join_app l1 l2 :
  Js.join "" (l1 ++ l2) = Js.join "" l1 +:+ Js.join "" l2.
Proof.
  rewrite !join_empty_separator.
  induction l1 as [|x l1 IH]; simpl; [done|]. by rewrite IH, append_assoc.
Qed.

(** An undisturbed run: the call stays pending, and the text
    accumulated grows by the stdout chunks of its child. *)
Lemma run_pending k ls : ∀ m m' i,
  run ls m = Some m' →
  invocations m !! k = Some i →
  Forall (undisturbed (id_of i) k) ls →
  ∃ i', invocations m' !! k = Some i'
        ∧ id_of i' = id_of i ∧ settled i' = settled i
        ∧ onOutput i' = onOutput i
        ∧ output i' = output i +:+ Js.join "" (child_stdout k ls).
Proof.
  induction ls as [|l ls IH]; intros m m' i H Hk Hls; simpl in H.
  { injection H as <-. exists i. split; [done|]. repeat split.
    by rewrite append_nil_r. }
  apply Forall_cons in Hls as [Hl Hls].
  apply bind_Some in H as (m1 & H1 & H).
  destruct (step_pending k l m m1 i H1 Hk Hl) as (i1 & Hk1 & A1 & B1 & C1 & D1).
  destruct (IH m1 m' i1 H Hk1) as (i' & Hk' & A & B & C & D);
    [by rewrite A1|].
  exists i'. split; [done|]. split; [congruence|]. split; [congruence|].
  split; [congruence|].
  rewrite D, D1. unfold child_stdout. cbn [flat_map].
  by rewrite join_app, append_assoc.
Qed.

(** An undisturbed run: the stream of the call stays open, and its
    buffer receives the chunks of its child, stdout and stderr. *)
Lemma run_stream k ls : ∀ m m' i acc,
  consistent m → isShuttingDown m = false →
  run ls m = Some m' →
  invocations m !! k = Some i →
  Forall (undisturbed (id_of i) k) ls →
  id_of i ∈ Streamer.activeStreams (outputStreamer m) →
  Streamer.buffers (outputStreamer m) !! id_of i
  = Some (StreamerChecks.last_chunks
            (Streamer.maxBufferSize (outputStreamer m)) acc) →
  id_of i ∈ Streamer.activeStreams (outputStreamer m')
  ∧ Streamer.buffers (outputStreamer m') !! id_of i
    = Some (StreamerChecks.last_chunks
              (Streamer.maxBufferSize (outputStreamer m))
              (acc ++ child_output k ls))
  ∧ Streamer.maxBufferSize (outputStreamer m')
    = Streamer.maxBufferSize (outputStreamer m).
Proof.
  induction ls as [|l ls IH]; intros m m' i acc Hm Hs H Hk Hls Hopen Hbuf;
    simpl in H.
  { injection H as <-. by rewrite app_nil_r. }
  apply Forall_cons in Hls as [Hl Hls].
  apply bind_Some in H as (m1 & H1 & H).
  destruct (step_pending k l m m1 i H1 Hk Hl) as (i1 & Hk1 & A1 & _).
  destruct (step_stream k l m m1 i acc Hm Hs H1 Hk Hl Hopen Hbuf)
    as (Hopen1 & Hbuf1 & Hmax1).
  destruct (IH m1 m' i1 (acc ++ output_of k l)) as (A & B & C).
  - by apply (step_consistent l m).
  - rewrite (step_isShuttingDown l m m1 H1); [done|].
    intros now' ->. exact Hl.
  - done.
  - done.
  - by rewrite A1.
  - by rewrite A1.
  - by rewrite A1, Hmax1.
  - rewrite A1, Hmax1 in *. split; [done|]. split; [|done].
    rewrite B. unfold child_output. cbn [flat_map]. by rewrite app_assoc.
Qed.

Lemma executeStreamingCommand_awaiting command handler now child_pid m m' k :
  executeStreamingCommand command handler now child_pid m = Some (m', Awaiting k) →
  isShuttingDown m = false
  ∧ Sanitizer.isValid (verdict m command) = true
  ∧ processes m !! Command.id command = None.
Proof.
  intros H. unfold executeStreamingCommand in H.
  destruct (isShuttingDown m) eqn:Hs; [done|].
  apply bind_Some in H as (s1 & _ & H).
  set (m1 := set_outputStreamer _ m) in H.
  split; [done|].
  destruct (Sanitizer.isValid (verdict m command)) eqn:Hv.
  - split; [done|].
    destruct (processes m !! Command.id command) as [j|] eqn:Hid; [|done].
    rewrite (executeCommand_duplicate (Some handler) command now child_pid m1)
      in H; [|done|done|unfold m1; simpl; by rewrite Hid].
    apply bind_Some in H as (s3 & _ & H). done.
  - rewrite (executeCommand_invalid (Some handler) command now child_pid m1)
      in H; [|done|done].
    apply bind_Some in H as (s3 & _ & H). done.
Qed.

Lemma child_output_stdout k ls :
  Forall (λ l, ¬ writes_stderr k l) ls → child_output k ls = child_stdout k ls.
Proof.
  induction 1 as [|l ls Hl _ IH]; [done|].
  unfold child_output, child_stdout in *. cbn [flat_map]. rewrite IH. f_equal.
  destruct l; try done. simpl in *. by destruct (decide (k0 = k)).
Qed.


(** ** Streaming and synchronous results *)

(** C8, amended.  Take any run of a manager, and in it a call of
    [executeStreamingCommand] that is accepted.  Let the command
    complete successfully while its stream stays open: until its child
    exits with code 0, whatever other commands and children do, there
    is no [killProcess] of its id, no [executeStreamingCommand] with
    its id, no [shutdown], no deadline and no error of its child.  Then
    the exit is handled, and
    - [executeStreamingCommand] returns the last [maxBufferSize] chunks
      of the child, stdout and stderr, concatenated in arrival order,
      or the text of [executeCommand] when that concatenation is empty;
    - the [executeCommand] inside it returns the stdout chunks of the
      child, concatenated in arrival order;
    - so the two texts are equal when the child writes to stdout only,
      and no more than [maxBufferSize] chunks;
    - [executeCommand] called in place of [executeStreamingCommand] is
      accepted too and, after the same steps, returns the same stdout
      chunks concatenated. *)
Theorem streamed_text_equals_accumulated
    (config : PartialConfig) (cwd : string) (before : list Label)
    (m0 m1 m2 : EnhancedClaudeManager)
    (command : Command.ClaudeCommand) (handler : Streamer.Handler)
    (now : Z) (child_pid : option Z) (k : nat)
    (ls : list Label) (signal : option string) (now' : Z) :
  run before (new config cwd) = Some m0 →
  executeStreamingCommand command handler now child_pid m0
  = Some (m1, Awaiting k) →
  Forall (undisturbed (Command.id command) k) ls →
  run ls m1 = Some m2 →
  let max := Streamer.maxBufferSize (outputStreamer m0) in
  let buffered :=
    Js.join "" (StreamerChecks.last_chunks max (child_output k ls)) in
  let accumulated := Js.join "" (child_stdout k ls) in
  (∃ m3,
     step (ChildExit k (Some 0) signal now') m2 = Some m3
     ∧ streamed k m3
       = Some (Resolved (if Js.truthy buffered then buffered else accumulated))
     ∧ result k m3 = Some (Resolved accumulated)
     ∧ (Forall (λ l, ¬ writes_stderr k l) ls →
        Z.of_nat (List.length (child_output k ls)) ≤ max →
        streamed k m3 = Some (Resolved accumulated)))
  ∧ (∃ m1',
       executeCommand command now child_pid m0 = (m1', Awaiting k)
       ∧ ∀ m2', run ls m1' = Some m2' →
           ∃ m3', step (ChildExit k (Some 0) signal now') m2' = Some m3'
                  ∧ result k m3' = Some (Resolved accumulated)).
Proof.
  intros Hbefore Hcall Hls Hrun max buffered accumulated.
  pose proof (run_consistent before _ _ (new_consistent config cwd) Hbefore)
    as Hm0.
  destruct (executeStreamingCommand_awaiting _ _ _ _ _ _ _ Hcall)
    as (Hs & Hv & Hid).
  assert (Command.id command ∉ Streamer.activeStreams (outputStreamer m0))
    as Hclosed.
  { intros Hin. destruct Hm0 as [_ Hopen].
    destruct (Hopen _ Hin) as [j Hj]. congruence. }
  split.
  - (* the streaming call *)
    destruct (executeStreamingCommand_spawns command handler now child_pid m0
                Hs Hv Hid Hclosed)
      as (m1' & i & Hcall' & Hk & Hidi & Ho & Hset & Hh & Hact1 & Hbuf1 & Hmax1).
    rewrite Hcall in Hcall'. injection Hcall' as <- ->.
    assert (consistent m1) as Hm1
      by exact (executeStreamingCommand_consistent _ _ _ _ _ _ _ Hm0 Hcall).
    assert (isShuttingDown m1 = false) as Hs1.
    { rewrite (step_isShuttingDown
                 (ExecuteStreamingCommand command handler now child_pid) m0 m1);
        [done| |done].
      simpl. by rewrite Hcall. }
    rewrite <- Hidi in Hls, Hact1, Hbuf1.
    destruct (run_pending _ ls m1 m2 i Hrun Hk Hls)
      as (i2 & Hk2 & A2 & B2 & C2 & D2).
    destruct (run_stream _ ls m1 m2 i [] Hm1 Hs1 Hrun Hk Hls Hact1)
      as (Hopen2 & Hbuf2 & _).
    { rewrite Hbuf1. unfold StreamerChecks.last_chunks. by rewrite drop_nil. }
    rewrite Hmax1, app_nil_l in Hbuf2. fold max in Hbuf2.
    rewrite <- A2 in Hopen2, Hbuf2.
    destruct (on_exit_streaming _ signal now' m2 i2 handler
                (StreamerChecks.last_chunks max
                   (child_output (List.length (invocations m0)) ls)) Hk2)
      as (m3 & Hexit & Hresult & Hstreamed);
      [congruence|congruence|done|done|].
    assert (output i2 = accumulated) as Hout by (by rewrite D2, Ho).
    rewrite Hout in Hresult, Hstreamed.
    exists m3. split; [exact Hexit|]. split; [exact Hstreamed|].
    split; [exact Hresult|].
    intros Hstdout Hroom. rewrite Hstreamed. do 2 f_equal.
    assert (buffered = accumulated) as Hsame.
    { unfold buffered, accumulated.
      rewrite StreamerMore.last_chunks_all by lia.
      by rewrite child_output_stdout. }
    unfold buffered in Hsame. rewrite Hsame. by destruct (Js.truthy accumulated).
  - (* the plain call *)
    destruct (executeCommand_spawns None command now child_pid m0 Hs Hv Hid)
      as (m1' & Hcall' & _ & _ & _ & _ & _ & Hi).
    assert (k = List.length (invocations m0)) as ->.
    { destruct (executeStreamingCommand_spawns command handler now child_pid m0
                  Hs Hv Hid Hclosed) as (? & ? & Hcall'' & _).
      rewrite Hcall in Hcall''. by injection Hcall'' as _ ->. }
    exists m1'. split; [exact Hcall'|]. intros m2' Hrun'.
    match type of Hi with
    | _ = _ ++ [?x] =>
        assert (invocations m1' !! List.length (invocations m0) = Some x) as Hk
          by (by rewrite Hi, lookup_app_r, Nat.sub_diag)
    end.
    destruct (run_pending _ ls m1' m2' _ Hrun' Hk Hls)
      as (i2 & Hk2 & A2 & B2 & C2 & D2).
    destruct (on_exit_pending _ (Some 0) signal now' m2' i2 Hk2)
      as (m3' & Hexit & _ & Hresult & _); [by rewrite B2|].
    rewrite bool_decide_eq_true_2 in Hresult by done.
    exists m3'. split; [exact Hexit|]. by rewrite Hresult, D2.
Qed.

Lemma streamed_text_equals_accumulated_witness :
  let a := Command.mk "a" "claude" ["-p"; "hello"] None None None in
  let b := Command.mk "b" "claude" ["-p"; "other"] None None None in
  let before := [ExecuteCommand b 0 (Some 40)] in
  let ls := [StdoutData 1 "Hel" 2; StdoutData 0 "noise" 3;
             ExecuteStreamingCommand b 8%nat 4 (Some 42);
             StdoutData 1 "lo, " 5; ChildExit 0 (Some 1) None 6;
             StdoutData 1 "world" 7] in
  let m0 := default (new no_config "/home/user")
              (run before (new no_config "/home/user")) in
  let m1 := default m0 (run [ExecuteStreamingCommand a 7%nat 1 (Some 41)] m0) in
  let m2 := default m1 (run ls m1) in
  (∃ m3,
     step (ChildExit 1 (Some 0) None 8) m2 = Some m3
     ∧ streamed 1 m3 = Some (Resolved "Hello, world")
     ∧ result 1 m3 = Some (Resolved "Hello, world"))
  ∧ (∃ m1' m2' m3',
       executeCommand a 1 (Some 41) m0 = (m1', Awaiting 1%nat)
       ∧ run ls m1' = Some m2'
       ∧ step (ChildExit 1 (Some 0) None 8) m2' = Some m3'
       ∧ result 1 m3' = Some (Resolved "Hello, world")).
Proof.
  intros a b before ls m0 m1 m2.
  destruct (streamed_text_equals_accumulated no_config "/home/user" before
              m0 m1 m2 a 7%nat 1 (Some 41) 1 ls None 8)
    as [(m3 & H1 & H2 & H3 & _) (m1' & Hcall & Hplain)].
  - vm_compute. reflexivity.
  - vm_compute. reflexivity.
  - repeat constructor; by vm_compute.
  - vm_compute. reflexivity.
  - split.
    + exists m3. split; [exact H1|]. split; [exact H2|exact H3].
    + assert (m1' = (executeCommand a 1 (Some 41) m0).1) as E
        by (by rewrite Hcall).
      destruct (Hplain (default m1' (run ls m1'))) as (m3' & H4 & H5).
      { rewrite E. vm_compute. reflexivity. }
      exists m1', (default m1' (run ls m1')), m3'.
      split; [exact Hcall|]. split; [|by split].
      rewrite E. vm_compute. reflexivity.
Defined.

(** The stream of a running command is closed by a second
    [executeStreamingCommand] with its id, which is rejected as a
    duplicate: the chunk that arrives afterwards is accumulated but not
    buffered, and the two texts differ. *)
Example closed_stream_loses_later_chunks :
  let a := Command.mk "a" "claude" ["-p"; "hello"] None None None in
  let m := default (new no_config "/home/user")
             (run [ExecuteStreamingCommand a 7%nat 0 (Some 41);
                   StdoutData 0 "x" 1;
                   ExecuteStreamingCommand a 8%nat 2 (Some 42);
                   StdoutData 0 "y" 3;
                   ChildExit 0 (Some 0) None 4]
                  (new no_config "/home/user")) in
  streamed 0 m = Some (Resolved "x") ∧ result 0 m = Some (Resolved "xy").
Proof. split; by vm_compute. Qed.


End ManagerRunFacts.

(** * Properties of the mock manager and of the factory *)

Module MockFacts.
Import Mock.

Lemma skip_nil n : skip n "" = "".
Proof. by destruct n. Qed.

Lemma skip_length n s : Js.length (skip n s) = (Js.length s - n)%nat.
Proof.
  revert s. induction n as [|n IH]; intros [|c s]; simpl; by try apply IH.
Qed.

Lemma skip_all n s : (Js.length s ≤ n)%nat → skip n s = "".
Proof.
  revert s. induction n as [|n IH]; intros [|c s] H; simpl in *; try done.
  - lia.
  - apply IH. lia.
Qed.

Lemma skip_skip n k s : skip n (skip k s) = skip (k + n) s.
Proof.
  revert s. induction k as [|k IH]; intros s; [done|].
  destruct s as [|c s]; [by rewrite !skip_nil|]. simpl. apply IH.
Qed.

Lemma take_skip n s : Re.take n s +:+ skip n s = s.
Proof.
  revert s. induction n as [|n IH]; intros [|c s]; try done.
  change (String c (Re.take n s +:+ skip n s) = String c s).
  by rewrite IH.
Qed.

Lemma take_all n s : (Js.length s ≤ n)%nat → Re.take n s = s.
Proof.
  revert s. induction n as [|n IH]; intros [|c s] H; simpl in *; try done.
  - lia.
  - rewrite IH; [done|lia].
Qed.

Lemma take_length n s : Js.length (Re.take n s) = Nat.min n (Js.length s).
Proof.
  revert s. induction n as [|n IH]; intros [|c s]; try done.
  cbn [Re.take]. unfold Js.length in *. simpl. by rewrite IH.
Qed.

(** A chunk cut inside the text: what it is, and what is left. *)
Lemma slice_chunk text i chunkSize :
  0 ≤ i → i < Z.of_nat (Js.length text) → 1 ≤ chunkSize →
  slice text i (i + chunkSize) +:+ skip (Z.to_nat (i + chunkSize)) text
  = skip (Z.to_nat i) text
  ∧ 1 ≤ Z.of_nat (Js.length (slice text i (i + chunkSize))) ≤ chunkSize
  ∧ (i + chunkSize ≤ Z.of_nat (Js.length text) →
     Z.of_nat (Js.length (slice text i (i + chunkSize))) = chunkSize).
Proof.
  intros Hi Hlen Hc. unfold slice.
  rewrite (proj2 (Z.ltb_ge i 0)) by lia.
  rewrite (proj2 (Z.ltb_ge (i + chunkSize) 0)) by lia.
  rewrite (Z.min_l i) by lia.
  set (len := Z.of_nat (Js.length text)) in *.
  set (d := skip (Z.to_nat i) text).
  assert (Z.of_nat (Js.length d) = len - i) as Hd.
  { unfold d. rewrite skip_length. lia. }
  destruct (decide (i + chunkSize ≤ len)) as [Hin|Hout].
  - rewrite (Z.min_l (i + chunkSize)) by lia.
    replace (Z.to_nat (Z.max (i + chunkSize - i) 0)) with (Z.to_nat chunkSize)
      by lia.
    replace (Z.to_nat (i + chunkSize)) with (Z.to_nat i + Z.to_nat chunkSize)%nat
      by lia.
    rewrite <- skip_skip. fold d. rewrite take_skip, take_length.
    split; [done|]. split; [lia|]. intros _. lia.
  - rewrite (Z.min_r (i + chunkSize)) by lia.
    replace (Z.to_nat (Z.max (len - i) 0)) with (Js.length d) by lia.
    rewrite (skip_all (Z.to_nat (i + chunkSize))) by lia.
    rewrite take_length, Nat.min_id.
    split; [|split; [lia|intros; lia]].
    by rewrite take_all, ManagerFacts.append_nil_r.
Qed.

Lemma join_cons c l : Js.join "" (c :: l) = c +:+ Js.join "" l.
Proof. rewrite !ManagerFacts.join_empty_separator. done. Qed.

Lemma breakIntoChunks_from_spec fuel : ∀ text chunkSize i chunks,
  1 ≤ chunkSize → 0 ≤ i → i < Z.of_nat (Js.length text) + chunkSize →
  Z.of_nat (Js.length text) - i ≤ Z.of_nat fuel →
  ∃ more,
    breakIntoChunks_from fuel text chunkSize i chunks = Some (chunks ++ more)
    ∧ Js.join "" more = skip (Z.to_nat i) text
    ∧ Forall (λ c, 1 ≤ Z.of_nat (Js.length c) ≤ chunkSize) more
    ∧ Z.of_nat (List.length more) * chunkSize
      < Z.of_nat (Js.length text) - i + chunkSize
    ∧ (i ≤ Z.of_nat (Js.length text) →
       Z.of_nat (Js.length text) - i ≤ Z.of_nat (List.length more) * chunkSize).
Proof.
  induction fuel as [|fuel IH]; intros text chunkSize i chunks Hc Hi Hi' Hfuel.
  - exists []. simpl. rewrite (proj2 (Z.ltb_ge _ _)) by lia. simpl.
    rewrite app_nil_r. split; [done|].
    split; [by rewrite skip_all by lia|].
    split; [done|]. simpl. lia.
  - cbn [breakIntoChunks_from].
    destruct (i <? Z.of_nat (Js.length text)) eqn:E; cbn [negb].
    + apply Z.ltb_lt in E.
      destruct (slice_chunk text i chunkSize Hi E Hc) as (Hcut & Hsize & Hfull).
      destruct (IH text chunkSize (i + chunkSize)
                  (chunks ++ [slice text i (i + chunkSize)]))
        as (more & Hrun & Hjoin & Hall & Hup & Hlow); [lia..|].
      exists (slice text i (i + chunkSize) :: more).
      split; [by rewrite Hrun, <- app_assoc|].
      split; [by rewrite join_cons, Hjoin|].
      split; [by constructor|].
      cbn [List.length]. split; [lia|]. intros _.
      destruct (decide (i + chunkSize ≤ Z.of_nat (Js.length text))); lia.
    + apply Z.ltb_ge in E. exists []. rewrite app_nil_r.
      split; [done|]. split; [by rewrite skip_all by lia|].
      split; [done|]. simpl. lia.
Qed.

Lemma breakIntoChunks_from_diverges fuel : ∀ text chunkSize i chunks,
  chunkSize ≤ 0 → i < Z.of_nat (Js.length text) →
  breakIntoChunks_from fuel text chunkSize i chunks = None.
Proof.
  induction fuel as [|fuel IH]; intros text chunkSize i chunks Hc Hi;
    cbn [breakIntoChunks_from]; rewrite (proj2 (Z.ltb_lt _ _)) by lia;
    cbn [negb]; [done|].
  apply IH; lia.
Qed.

(** X24.  Cutting a text into chunks loses nothing.  For a chunk size
    of at least one, [breakIntoChunks] ends within as many turns as the
    text has characters; the chunks, joined in order, are the text;
    every chunk has at least one and at most [chunkSize] characters;
    and there are exactly as many chunks as the text needs, the length
    divided by the chunk size, rounded up.  For a chunk size of zero or
    less and a text that is not empty the loop never ends. *)
Theorem chunks_join_to_the_text
    (text : string) (chunkSize : Z) (fuel : nat) :
  (1 ≤ chunkSize → (Js.length text ≤ fuel)%nat →
   ∃ chunks,
     breakIntoChunks fuel text chunkSize = Some chunks
     ∧ Js.join "" chunks = text
     ∧ Forall (λ c, 1 ≤ Z.of_nat (Js.length c) ≤ chunkSize) chunks
     ∧ Z.of_nat (List.length chunks)
       = (Z.of_nat (Js.length text) + chunkSize - 1) / chunkSize)
  ∧ (chunkSize ≤ 0 → text ≠ "" →
     breakIntoChunks fuel text chunkSize = None).
Proof.
  split.
  - intros Hc Hfuel.
    destruct (breakIntoChunks_from_spec fuel text chunkSize 0 [] Hc)
      as (chunks & Hrun & Hjoin & Hall & Hup & Hlow); [lia..|].
    exists chunks. split; [exact Hrun|]. split; [exact Hjoin|].
    split; [exact Hall|].
    specialize (Hlow ltac:(lia)).
    apply (Z.div_unique_pos _ _ _
      (Z.of_nat (Js.length text) + chunkSize - 1
       - chunkSize * Z.of_nat (List.length chunks))); lia.
  - intros Hc Hne. apply breakIntoChunks_from_diverges; [done|].
    destruct text; [done|]. unfold Js.length; simpl. lia.
Qed.

Lemma outputs_data processId chunks now :
  map Streamer.data (outputs processId chunks now) = chunks.
Proof.
  unfold outputs. revert now. induction chunks as [|c chunks IH]; intros now.
  - done.
  - rewrite imap_cons. cbn [map Streamer.data]. f_equal. apply IH.
Qed.

Lemma outputs_Forall (P : Streamer.ClaudeOutput → Prop) processId chunks now :
  (∀ n c, c ∈ chunks →
     P {| Streamer.processId := processId; Streamer.type := Streamer.stdout;
          Streamer.data := c; Streamer.timestamp := now n;
          Streamer.exitCode := None |}) →
  Forall P (outputs processId chunks now).
Proof.
  unfold outputs. revert now. induction chunks as [|c chunks IH]; intros now H.
  - constructor.
  - rewrite imap_cons. constructor.
    + apply H. by left.
    + apply IH. intros n c' Hc'. apply (H (S n)). by right.
Qed.

(** X25.  The mock streams what it returns.  The outputs that the
    mock's [executeStreamingCommand] hands to [onOutput] for a response
    are stdout outputs of the command's id whose data, joined in the
    order of the calls, is the response that the call returns; each
    carries between 1 and 20 characters. *)
Theorem mock_streams_the_response
    (processId response : string) (now : nat → Z) (fuel : nat) :
  (Js.length response ≤ fuel)%nat →
  ∃ outs,
    stream_response fuel processId response now = Some outs
    ∧ Js.join "" (map Streamer.data outs) = response
    ∧ Forall (λ o, Streamer.processId o = processId
                   ∧ Streamer.type o = Streamer.stdout
                   ∧ 1 ≤ Z.of_nat (Js.length (Streamer.data o)) ≤ 20) outs.
Proof.
  intros Hfuel. unfold stream_response, breakIntoChunks.
  destruct (breakIntoChunks_from_spec fuel response 20 0 [])
    as (chunks & Hrun & Hjoin & Hall & _); [lia..|].
  rewrite Hrun. simpl. eexists. split; [done|].
  split; [by rewrite outputs_data|].
  apply outputs_Forall. intros n c Hc. split; [done|]. split; [done|].
  by apply (proj1 (Forall_forall _ _) Hall).
Qed.

Lemma mock_streams_the_response_witness :
  ∃ outs,
    stream_response 30 "a" "Mock response for: hello" (λ n, Z.of_nat n)
      = Some outs
    ∧ Js.join "" (map Streamer.data outs) = "Mock response for: hello"
    ∧ Forall (λ o, Streamer.processId o = "a"
                   ∧ Streamer.type o = Streamer.stdout
                   ∧ 1 ≤ Z.of_nat (Js.length (Streamer.data o)) ≤ 20) outs.
Proof.
  apply (mock_streams_the_response "a" "Mock response for: hello"
           (λ n, Z.of_nat n) 30).
  vm_compute. lia.
Defined.

(** The chunks of the mock's streaming, 20 characters each. *)
Example chunks_of_twenty :
  breakIntoChunks 45 "Mock response for: explain the streaming layer" 20
  = Some ["Mock response for: e"; "xplain the streaming"; " layer"].
Proof. by vm_compute. Qed.

End MockFacts.

Module FactoryFacts.
Import Factory.

(** X26.  What [create] returns.  An explicit type [production] or
    [mock] decides alone.  Otherwise [forceProduction] gives the
    production manager; else a test environment gives the mock; else,
    when [NODE_ENV] is [development] or not set, [create] throws
    "Unknown Claude manager type: auto"; in every other environment it
    gives the production manager.  So a call with the default
    configuration throws exactly in a development environment that is
    no test environment. *)
Theorem create_throws_in_development_only
    (config : FactoryConfig) (env : Env) (cwd : string) :
  ((∃ message, create config env cwd = Throws message)
   ↔ (type config = None ∨ type config = Some auto)
     ∧ default false (forceProduction config) = false
     ∧ isTestEnvironment env = false
     ∧ isDevelopmentEnvironment env = true)
  ∧ (∀ message, create config env cwd = Throws message →
       message = "Unknown Claude manager type: auto")
  ∧ (type config = Some production →
     create config env cwd
     = Production (Manager.new (default Manager.no_config (claudeConfig config)) cwd))
  ∧ (type config = Some mock →
     create config env cwd = Mocked (Mock.new (mockConfig config)))
  ∧ ((∃ m, create config env cwd = Mocked m)
     ↔ type config = Some mock
       ∨ ((type config = None ∨ type config = Some auto)
          ∧ default false (forceProduction config) = false
          ∧ isTestEnvironment env = true)).
Proof.
  unfold create, determineManagerType.
  destruct (type config) as [[| |]|];
    destruct (default false (forceProduction config));
    destruct (isTestEnvironment env);
    destruct (isDevelopmentEnvironment env);
    cbn [type_name];
    (split; [split; [intros [? ?]|intros (? & ? & ? & ?)]|
     split; [intros ? ?|split; [intros ?|split; [intros ?|
       split; [intros [? ?]|intros [?|(? & ? & ?)]]]]]]);
    try done; try by eexists.
  all: try (repeat split; auto; fail).
  all: try (destruct H as [?|?]; done).
  all: try (by injection H as <-).
  all: try (right; repeat split; auto; fail).
Qed.

End FactoryFacts.
